(** * ccsound: the hook registry and the settings store

    A shallow embedding of the TypeScript sources [src/lib/hooks.ts],
    [src/lib/config.ts], [src/lib/utils.ts], [src/lib/test.ts] and
    [src/types/index.ts], followed by the properties of the ownership model:
    which hook groups the tool owns, how [addSoundHook] merges a new group
    into an event, and how removal leaves foreign groups alone.

    Conventions.
    - A JavaScript string is a [string]; each [ascii] stands for one UTF-16
      code unit in the range 0..255.
    - The process environment (platform, [$HOME], [path.resolve], the file
      system's answer to [access], the player's exit status) is a record
      [Env]; the clock and the UUID generator are the record [Fresh].
    - The files the settings store touches are the record [FS]; an [async]
      function of the source is a function [FS -> Result A], where
      [process.exit] is the constructor [Exit].
    - Console output is not a state: each operation returns the report it
      prints ([AddReport], [RemoveReport], ...), and an [Exit] carries the
      error that was printed before it. *)

From Stdlib Require Import String Ascii.
From stdpp Require Import gmap strings list fin_maps.

(** [simpl] and [cbn] may compute a concatenation. *)
#[local] Arguments String.append : simpl nomatch.

(** ** Characters and the regular expressions of the source *)

Module Js.

Definition code (c : ascii) : nat := nat_of_ascii c.

(** [\s] on code units below 256: TAB, LF, VT, FF, CR, space, NBSP. *)
Definition isSpace (c : ascii) : bool :=
  let n := code c in
  ((9 <=? n)%nat && (n <=? 13)%nat) || (n =? 32)%nat || (n =? 160)%nat.

(** [\S] *)
Definition nonSpace (c : ascii) : bool := negb (isSpace c).

Definition dquote : ascii := ascii_of_nat 34.

Definition isQuote (c : ascii) : bool := Ascii.eqb c dquote.

(** The class of every character but the double quote. *)
Definition nonQuote (c : ascii) : bool := negb (isQuote c).

(** A backtracking matcher is run as the list of its outcomes in the
    order the engine tries them; the match is the head of the list.
    [plus p s] is [p+] at the start of [s]: every split of [s] into a
    non-empty run of [p]-characters and a remainder, longest run first
    (the quantifier is greedy). *)
Fixpoint plus (p : ascii -> bool) (s : string) : list (string * string) :=
  match s with
  | EmptyString => []
  | String c r =>
      if p c
      then ((λ ar : string * string, (String c ar.1, ar.2)) <$> plus p r)
             ++ [(String c EmptyString, r)]
      else []
  end.

(** [c?] at the start of [s], greedy: the remainders, the one that
    consumed [c] first. *)
Definition opt (c : ascii) (s : string) : list string :=
  match s with
  | String c' r => if Ascii.eqb c' c then [r; s] else [s]
  | EmptyString => [s]
  end.

(** A literal character at the start of [s]. *)
Definition lit (c : ascii) (s : string) : list string :=
  match s with
  | String c' r => if Ascii.eqb c' c then [r] else []
  | EmptyString => []
  end.

(** [$] without the [m] flag. *)
Definition atEnd {A} (s : string) (a : A) : list A :=
  match s with
  | EmptyString => [a]
  | String _ _ => []
  end.

(** [s.split(sep)] for a one-character separator. *)
Fixpoint split (sep : ascii) (s : string) : list string :=
  match s with
  | EmptyString => [EmptyString]
  | String c r =>
      if Ascii.eqb c sep then EmptyString :: split sep r
      else match split sep r with
           | h :: t => String c h :: t
           | [] => [String c EmptyString]
           end
  end.

(** The replacement text of [String.prototype.replace] when the pattern
    has no capture group: [$$], [$&], [$`] and [$'] are expanded, every
    other character, and every other use of [$], is copied. *)
Fixpoint substitution (before matched after tpl : string) : string :=
  match tpl with
  | EmptyString => EmptyString
  | String c t =>
      if Ascii.eqb c "$"
      then match t with
           | String d t' =>
               if Ascii.eqb d "$" then String "$" (substitution before matched after t')
               else if Ascii.eqb d "&" then matched +:+ substitution before matched after t'
               else if Ascii.eqb d "`" then before +:+ substitution before matched after t'
               else if Ascii.eqb d "'" then after +:+ substitution before matched after t'
               else String c (substitution before matched after t)
           | EmptyString => String c EmptyString
           end
      else String c (substitution before matched after t)
  end.

(** [s] between two double quotes. *)
Definition quoted (s : string) : string :=
  String dquote (s +:+ String dquote EmptyString).

(** [s.slice(0, n)] *)
Fixpoint slice0 (n : nat) (s : string) : string :=
  match n, s with
  | S n', String c r => String c (slice0 n' r)
  | _, _ => EmptyString
  end.

(** Every character of [s] is in the class [p]. *)
Fixpoint all (p : ascii -> bool) (s : string) : bool :=
  match s with
  | EmptyString => true
  | String c r => p c && all p r
  end.

(** Truthiness of a string. *)
Definition truthy (s : string) : bool :=
  match s with EmptyString => false | String _ _ => true end.

End Js.

(** [s.replace(/^~/, home || '')] *)
Definition expandHome (home : option string) (s : string) : string :=
  match s with
  | String c rest =>
      if Ascii.eqb c "~"
      then Js.substitution "" "~" rest (default "" home) +:+ rest
      else s
  | EmptyString => s
  end.

(** The pattern of [findExistingAudioHook], [command.match(/^(\S+)\s+Q?([^Q]+)Q?$/)]
    where Q is the double-quote character, projected on its second group. *)
Definition matchPlayerCommand (command : string) : option string :=
  head (wr1 ← Js.plus Js.nonSpace command;
        sr2 ← Js.plus Js.isSpace wr1.2;
        r3 ← Js.opt Js.dquote sr2.2;
        pr4 ← Js.plus Js.nonQuote r3;
        r5 ← Js.opt Js.dquote pr4.2;
        Js.atEnd r5 pr4.1).

(** [/Q([^Q]+)Q/] (Q the double quote) tried at the start of [s]. *)
Definition quotedHere (s : string) : option string :=
  head (r1 ← Js.lit Js.dquote s;
        pr2 ← Js.plus Js.nonQuote r1;
        _ ← Js.lit Js.dquote pr2.2;
        [pr2.1]).

(** [command.match(/Q([^Q]+)Q/)?.[1]]: the leftmost start wins. *)
Fixpoint firstQuoted (s : string) : option string :=
  match quotedHere s with
  | Some p => Some p
  | None =>
      match s with
      | EmptyString => None
      | String _ r => firstQuoted r
      end
  end.

(** [hook.command.match(/Q([^Q]+)Q/)?.[1] || hook.command.split(' ')[1]]:
    the extraction used by list, test and doctor.  [None] is [undefined]. *)
Definition extractAudioFile (command : string) : option string :=
  match firstQuoted command with
  | Some p => Some p
  | None => Js.split " " command !! 1
  end.


(** ** Data model ([src/types/index.ts])

    The values are the objects [JSON.parse] returns, so every record also
    carries the properties the declared type does not name ([rest]: key and
    JSON text, in order); the tool never reads them and [JSON.stringify]
    writes them back. *)

Record ccsoundWatermark := {
  wm_version : string;
  wm_managed : bool;
  wm_created : string;
  wm_id : string;
  wm_migrated : option bool
}.

Record Hook := {
  hook_type : string;
  command : string;
  _ccsound : option ccsoundWatermark;
  hook_rest : list (string * string)
}.

Record HookGroup := {
  matchers : option (list string);
  hooks : list Hook;
  group_rest : list (string * string)
}.

(** [hooks] is keyed by event name; the key may be absent from the file. *)
Record SettingsConfig := {
  settingsHooks : option (gmap string (list HookGroup));
  settings_rest : list (string * string)
}.

Record AddSoundOptions := { matcher : option string }.

Record AudioValidation := { exists_ : bool; path : string }.

Record TestOptions := {
  verbose : bool;
  dryRun : bool;
  showCommand : bool;
  delay : option string;
  events : option (list string)
}.

Definition VALID_EVENTS : list string :=
  ["Stop"; "Notification"; "PreToolUse"; "PostToolUse"; "SubagentStop"].

(** [VALID_EVENTS.includes(event)] *)
Definition includes (l : list string) (x : string) : bool :=
  existsb (String.eqb x) l.

(** ** The process environment *)

Inductive Platform := darwin | linux | win32 | otherPlatform.

Record Env := {
  platform : Platform;            (* os.platform() *)
  HOME : option string;           (* process.env.HOME *)
  resolve : string -> string;     (* path.resolve with one argument *)
  access : string -> bool;        (* fs.access(p, F_OK) does not throw *)
  version : string;               (* the version field of package.json *)
  execSync : string -> bool       (* the shell command exits with status 0 *)
}.

(** What one call of [createWatermark] draws from the clock and from
    [uuidv4]. *)
Record Fresh := { now : string; uuid : string }.

(** ** The files of the settings store ([src/lib/config.ts])

    The content of a file is kept as what [JSON.parse] makes of it: a
    syntax error, or the parsed document (JSON text that parses to a value
    of another type than the document's is not represented).  The calls of
    [fs-extra] succeed: a disk that refuses a read or a write is not
    modelled, and neither is the [ENOENT] branch of [readSettingsFile] that
    only such a failure reaches. *)

Inductive FileContent :=
| Unparsable (text : string)
| Json (config : SettingsConfig).

Inductive Path := settingsPath | backupPath | tempPath.

Record FS := {
  claudeDir : bool;                      (* dirname(settingsPath) exists *)
  settingsFile : option FileContent;     (* ~/.claude/settings.json *)
  backupFile : option FileContent;       (* settings.json.backup *)
  tempFile : option FileContent          (* settings.json.tmp *)
}.

Definition fileAt (p : Path) (fs : FS) : option FileContent :=
  match p with
  | settingsPath => settingsFile fs
  | backupPath => backupFile fs
  | tempPath => tempFile fs
  end.

Definition setFileAt (p : Path) (c : option FileContent) (fs : FS) : FS :=
  match p with
  | settingsPath =>
      {| claudeDir := claudeDir fs; settingsFile := c;
         backupFile := backupFile fs; tempFile := tempFile fs |}
  | backupPath =>
      {| claudeDir := claudeDir fs; settingsFile := settingsFile fs;
         backupFile := c; tempFile := tempFile fs |}
  | tempPath =>
      {| claudeDir := claudeDir fs; settingsFile := settingsFile fs;
         backupFile := backupFile fs; tempFile := c |}
  end.

Definition ensureDir (fs : FS) : FS :=
  {| claudeDir := true; settingsFile := settingsFile fs;
     backupFile := backupFile fs; tempFile := tempFile fs |}.

Definition pathExists (p : Path) (fs : FS) : bool :=
  match fileAt p fs with Some _ => true | None => false end.

Definition copy (src dst : Path) (fs : FS) : FS := setFileAt dst (fileAt src fs) fs.

Definition writeFile (p : Path) (c : FileContent) (fs : FS) : FS := setFileAt p (Some c) fs.

(** [move(src, dst, { overwrite: true })] *)
Definition move (src dst : Path) (fs : FS) : FS :=
  setFileAt src None (setFileAt dst (fileAt src fs) fs).

Definition remove (p : Path) (fs : FS) : FS := setFileAt p None fs.

(** ** Results: a value, or [process.exit] after an error message *)

Inductive Failure :=
| InvalidEvent (event : string)
| AudioFileNotFound (audioFile : string)
| SettingsParseError.

Inductive Result (A : Type) :=
| Done (a : A) (fs : FS)
| Exit (status : nat) (why : Failure) (fs : FS).
Arguments Done {A} a fs.
Arguments Exit {A} status why fs.

Definition IO (A : Type) : Type := FS -> Result A.

#[export] Instance IO_ret : MRet IO := λ A a fs, Done a fs.

#[export] Instance IO_bind : MBind IO := λ A B f m fs,
  match m fs with
  | Done a fs' => f a fs'
  | Exit status why fs' => Exit status why fs'
  end.

(** A file-system step that cannot fail in the model. *)
Definition step (f : FS -> FS) : IO unit := λ fs, Done tt (f fs).

Definition exit {A} (status : nat) (why : Failure) : IO A := λ fs, Exit status why fs.

Definition finalFS {A} (r : Result A) : FS :=
  match r with Done _ fs => fs | Exit _ _ fs => fs end.

(** ** [src/lib/config.ts] *)

Definition defaultSettings : SettingsConfig :=
  {| settingsHooks := Some ∅; settings_rest := [] |}.

(** The backup is taken when the destination exists, the document goes to
    the temporary file, the temporary file is moved over the destination,
    and a backup that exists afterwards is removed.  [chmod] changes no
    content. *)
Definition writeSettingsFile (config : SettingsConfig) : IO unit :=
  step ensureDir;;
  hasSettings ← (λ fs, Done (pathExists settingsPath fs) fs);
  (if hasSettings : bool then step (copy settingsPath backupPath) else mret tt);;
  step (writeFile tempPath (Json config));;
  step (move tempPath settingsPath);;
  hasBackup ← (λ fs, Done (pathExists backupPath fs) fs);
  (if hasBackup : bool then step (remove backupPath) else mret tt).

Definition readSettingsFile : IO SettingsConfig :=
  step ensureDir;;
  content ← (λ fs, Done (fileAt settingsPath fs) fs);
  match content with
  | None => writeSettingsFile defaultSettings;; mret defaultSettings
  | Some (Json config) => mret config
  | Some (Unparsable _) => exit 1 SettingsParseError
  end.

(** The functions below mutate [config] in place; here they return it.
    [config.hooks[event]] is read as the lookup of an own key of the hooks
    object, which is what it is for the five recognized events and for
    every name that [Object.prototype] does not carry; for a name such as
    constructor the source reads the inherited property instead, and such
    names are outside this model. *)
Definition ensureHooksStructure (config : SettingsConfig) : SettingsConfig :=
  match settingsHooks config with
  | Some _ => config
  | None => {| settingsHooks := Some ∅; settings_rest := settings_rest config |}
  end.

Definition getEventHooks (config : SettingsConfig) (event : string)
  : SettingsConfig * list HookGroup :=
  let config := ensureHooksStructure config in
  (config, default [] (default ∅ (settingsHooks config) !! event)).

Definition setEventHooks (config : SettingsConfig) (event : string)
    (groups : list HookGroup) : SettingsConfig :=
  let config := ensureHooksStructure config in
  {| settingsHooks := Some (<[event := groups]> (default ∅ (settingsHooks config)));
     settings_rest := settings_rest config |}.

(** ** [src/lib/utils.ts] *)

Definition getAudioPlayer (env : Env) : string :=
  match platform env with
  | darwin => "afplay"
  | linux => "aplay"
  | win32 =>
      "powershell -c " +:+ Js.quoted "(New-Object Media.SoundPlayer '%s').PlaySync();"
  | otherPlatform => "afplay"
  end.

Definition validateAudioFile (env : Env) (audioFile : string) : AudioValidation :=
  let expandedPath := resolve env (expandHome (HOME env) audioFile) in
  if access env expandedPath
  then {| exists_ := true; path := expandedPath |}
  else {| exists_ := false; path := audioFile |}.

(** ** [src/lib/hooks.ts] *)

Definition createWatermark (env : Env) (fresh : Fresh) : ccsoundWatermark :=
  {| wm_version := version env;
     wm_managed := true;
     wm_created := now fresh;
     wm_id := "ccsound_" +:+ Js.slice0 8 (uuid fresh);
     wm_migrated := None |}.

Definition createAudioHook (env : Env) (fresh : Fresh) (event audioFile : string)
    (options : AddSoundOptions) : HookGroup :=
  let player := getAudioPlayer env in
  let expandedPath := expandHome (HOME env) audioFile in
  let hook :=
    {| hook_type := "command";
       command := player +:+ " " +:+ Js.quoted expandedPath;
       _ccsound := Some (createWatermark env fresh);
       hook_rest := [] |} in
  match matcher options with
  | Some m =>
      if Js.truthy m && (String.eqb event "PreToolUse" || String.eqb event "PostToolUse")
      then {| matchers := Some [m]; hooks := [hook]; group_rest := [] |}
      else {| matchers := None; hooks := [hook]; group_rest := [] |}
  | None => {| matchers := None; hooks := [hook]; group_rest := [] |}
  end.

Definition isccsoundManaged (hookGroup : HookGroup) : bool :=
  existsb (λ h, match _ccsound h with
                | Some w => wm_managed w
                | None => false
                end) (hooks hookGroup).

(** The inner loop of [findExistingAudioHook]: does some hook of the group
    name the file [expandedPath]? *)
Fixpoint hooksNameFile (env : Env) (expandedPath : string) (hs : list Hook) : bool :=
  match hs with
  | [] => false
  | hook :: rest =>
      if String.eqb (hook_type hook) "command" && Js.truthy (command hook)
      then match matchPlayerCommand (command hook) with
           | Some p =>
               let hookPath := resolve env (expandHome (HOME env) p) in
               if String.eqb hookPath expandedPath then true
               else hooksNameFile env expandedPath rest
           | None => hooksNameFile env expandedPath rest
           end
      else hooksNameFile env expandedPath rest
  end.

Fixpoint findExistingAudioHookFrom (env : Env) (expandedPath : string)
    (eventHooks : list HookGroup) : option HookGroup :=
  match eventHooks with
  | [] => None
  | hookGroup :: rest =>
      if negb (isccsoundManaged hookGroup)
      then findExistingAudioHookFrom env expandedPath rest
      else if hooksNameFile env expandedPath (hooks hookGroup)
           then Some hookGroup
           else findExistingAudioHookFrom env expandedPath rest
  end.

Definition findExistingAudioHook (env : Env) (eventHooks : list HookGroup)
    (audioFile : string) : option HookGroup :=
  let expandedPath := resolve env (expandHome (HOME env) audioFile) in
  findExistingAudioHookFrom env expandedPath eventHooks.

Definition findExistingccsoundHooks (eventHooks : list HookGroup) : list HookGroup :=
  filter (λ g, isccsoundManaged g = true) eventHooks.

(** The three messages [addSoundHook] can end with. *)
Inductive AddReport := AlreadyExists | Replaced | Added.

Definition addSoundHook (env : Env) (fresh : Fresh) (event audioFile : string)
    (options : AddSoundOptions) : IO AddReport :=
  if negb (includes VALID_EVENTS event) then exit 1 (InvalidEvent event)
  else
    let validation := validateAudioFile env audioFile in
    if negb (exists_ validation) then exit 1 (AudioFileNotFound audioFile)
    else
      config ← readSettingsFile;
      let '(config, eventHooks) := getEventHooks config event in
      match findExistingAudioHook env eventHooks audioFile with
      | Some _ => mret AlreadyExists
      | None =>
          let existingccsoundHooks := findExistingccsoundHooks eventHooks in
          let nonccsoundHooks := filter (λ g, isccsoundManaged g = false) eventHooks in
          let newHook := createAudioHook env fresh event audioFile options in
          let updatedHooks := (nonccsoundHooks ++ [newHook])%list in
          let config := setEventHooks config event updatedHooks in
          writeSettingsFile config;;
          mret (if (0 <? length existingccsoundHooks)%nat then Replaced else Added)
      end.

(** What [removeHooks] prints. *)
Inductive RemoveReport := NoManagedHooks | Removed (removedCount : nat).

Definition removeHooks (event : string) : IO RemoveReport :=
  if negb (includes VALID_EVENTS event) then exit 1 (InvalidEvent event)
  else
    config ← readSettingsFile;
    let '(config, eventHooks) := getEventHooks config event in
    let filteredHooks := filter (λ g, isccsoundManaged g = false) eventHooks in
    let removedCount := (length eventHooks - length filteredHooks)%nat in
    if (removedCount =? 0)%nat then mret NoManagedHooks
    else
      let config := setEventHooks config event filteredHooks in
      writeSettingsFile config;;
      mret (Removed removedCount).

(** One turn of the loop of [clearAllHooks] over [VALID_EVENTS]. *)
Definition clearEvent (acc : SettingsConfig * nat) (event : string)
  : SettingsConfig * nat :=
  let '(config, totalRemoved) := acc in
  let '(config, eventHooks) := getEventHooks config event in
  let filteredHooks := filter (λ g, isccsoundManaged g = false) eventHooks in
  let removedCount := (length eventHooks - length filteredHooks)%nat in
  if (0 <? removedCount)%nat
  then (setEventHooks config event filteredHooks, (totalRemoved + removedCount)%nat)
  else (config, totalRemoved).

Inductive ClearReport := Cancelled | NothingToClear | Cleared (totalRemoved : nat).

(** [confirm] is the answer to the prompt. *)
Definition clearAllHooks (confirm : bool) : IO ClearReport :=
  if negb confirm then mret Cancelled
  else
    config ← readSettingsFile;
    let '(config, totalRemoved) := foldl clearEvent (config, 0%nat) VALID_EVENTS in
    if (totalRemoved =? 0)%nat then mret NothingToClear
    else writeSettingsFile config;; mret (Cleared totalRemoved).

(** ** [src/lib/test.ts]

    The helper [isccsoundManaged] that this file declares for itself first
    checks that [hookGroup.hooks] is there; on the declared type it is the
    function of [hooks.ts].  The pause between two sounds ([delay]) changes
    neither the files nor the report and is left out. *)

Inductive TestLine :=
| Testing (audioFile : option string)
| FailNotFound (audioFile : string)
| ShowCommand (cmd : string)
| Pass (audioFile : string)
| FailPlayback (audioFile : string)
| PlaybackError
| Skip (audioFile : string)
| NoHooksConfigured (event : string)
| EventHeader (event : string).

Record Tally := {
  lines : list TestLine;
  successCount : nat;
  failureCount : nat
}.

Definition say (l : TestLine) (t : Tally) : Tally :=
  {| lines := (lines t ++ [l])%list;
     successCount := successCount t; failureCount := failureCount t |}.

Definition passed (t : Tally) : Tally :=
  {| lines := lines t; successCount := S (successCount t); failureCount := failureCount t |}.

Definition failed (t : Tally) : Tally :=
  {| lines := lines t; successCount := successCount t; failureCount := S (failureCount t) |}.

Definition emptyTally : Tally := {| lines := []; successCount := 0; failureCount := 0 |}.

(** The body of the inner loop of [testSpecificEvent]. *)
Definition testHook (env : Env) (options : TestOptions) (t : Tally) (hook : Hook) : Tally :=
  if String.eqb (hook_type hook) "command" && Js.truthy (command hook)
  then
    let audioFile := extractAudioFile (command hook) in
    let t := if verbose options then say (Testing audioFile) t else t in
    match audioFile with
    | Some f =>
        if Js.truthy f
        then
          let validation := validateAudioFile env f in
          if negb (exists_ validation) then failed (say (FailNotFound f) t)
          else
            let t := if showCommand options then say (ShowCommand (command hook)) t else t in
            if negb (dryRun options)
            then if execSync env (command hook)
                 then passed (say (Pass f) t)
                 else failed (say (FailPlayback f) t)
            else passed (say (Skip f) t)
        else t
    | None => t
    end
  else t.

Inductive TestReport := NoHooksToTest | TestResults (t : Tally).

Definition testSpecificEvent (env : Env) (event : string) (options : TestOptions)
  : IO TestReport :=
  if negb (includes VALID_EVENTS event) then exit 1 (InvalidEvent event)
  else
    config ← readSettingsFile;
    let '(config, eventHooks) := getEventHooks config event in
    let ccsoundHooks := filter (λ g, isccsoundManaged g = true) eventHooks in
    if (length ccsoundHooks =? 0)%nat then mret NoHooksToTest
    else
      mret (TestResults
              (foldl (λ t hookGroup, foldl (testHook env options) t (hooks hookGroup))
                     emptyTally ccsoundHooks)).

(** The body of the inner loop of [testAllEvents]. *)
Definition testHookOfAll (env : Env) (options : TestOptions) (t : Tally) (hook : Hook)
  : Tally :=
  if String.eqb (hook_type hook) "command" && Js.truthy (command hook)
  then
    match extractAudioFile (command hook) with
    | Some f =>
        if Js.truthy f
        then
          let validation := validateAudioFile env f in
          if negb (exists_ validation) then failed (say (FailNotFound f) t)
          else
            let t := if showCommand options then say (ShowCommand (command hook)) t else t in
            if negb (dryRun options)
            then if execSync env (command hook)
                 then passed (say (Pass f) t)
                 else
                   let t := say (FailPlayback f) t in
                   failed (if verbose options then say PlaybackError t else t)
            else passed (say (Skip f) t)
        else t
    | None => t
    end
  else t.

(** One turn of the outer loop of [testAllEvents]. *)
Definition testEventOfAll (env : Env) (options : TestOptions)
    (acc : SettingsConfig * Tally * nat) (event : string) : SettingsConfig * Tally * nat :=
  let '(config, t, testedEvents) := acc in
  let '(config, eventHooks) := getEventHooks config event in
  let ccsoundHooks := filter (λ g, isccsoundManaged g = true) eventHooks in
  if (length ccsoundHooks =? 0)%nat
  then (config, (if verbose options then say (NoHooksConfigured event) t else t), testedEvents)
  else
    (config,
     foldl (λ t hookGroup, foldl (testHookOfAll env options) t (hooks hookGroup))
           (say (EventHeader event) t) ccsoundHooks,
     S testedEvents).

Inductive TestAllReport :=
| NothingToTest (printed : list TestLine)
| AllResults (t : Tally) (testedEvents : nat).

Definition testAllEvents (env : Env) (options : TestOptions) : IO TestAllReport :=
  config ← readSettingsFile;
  let eventsToTest := default VALID_EVENTS (events options) in
  let '(_, t, testedEvents) :=
    foldl (testEventOfAll env options) (config, emptyTally, 0%nat) eventsToTest in
  if (testedEvents =? 0)%nat then mret (NothingToTest (lines t))
  else mret (AllResults t testedEvents).

(** ** The lookup by path as the specification words it

    The specification describes the lookup of [findExistingAudioHook] with
    the extraction that list, test and doctor use ([extractAudioFile]: the
    first quoted substring, else the second token).  This second definition
    follows those words; it is compared with the source's below. *)

Module SpecWording.

Definition hookNamesFile (env : Env) (expandedPath : string) (hook : Hook) : bool :=
  String.eqb (hook_type hook) "command" &&
  match extractAudioFile (command hook) with
  | Some p => String.eqb (resolve env (expandHome (HOME env) p)) expandedPath
  | None => false
  end.

Definition findByPath (env : Env) (groups : list HookGroup) (audioPath : string)
  : option HookGroup :=
  let expandedPath := resolve env (expandHome (HOME env) audioPath) in
  head (filter (λ g, isccsoundManaged g = true
                     ∧ existsb (hookNamesFile env expandedPath) (hooks g) = true)
               groups).

End SpecWording.

(** ** Models of [path.resolve] for concrete environments

    [path.resolve] belongs to the Node library; the theorems hold for every
    [resolve].  The two functions below build the environments of the
    examples: the POSIX one, and the Windows one for paths with a drive
    letter, rooted paths (on the drive of [cwd]) and relative paths. *)

Module NodePath.

Fixpoint normalize (acc : list string) (segments : list string) : list string :=
  match segments with
  | [] => reverse acc
  | seg :: rest =>
      if String.eqb seg "" || String.eqb seg "." then normalize acc rest
      else if String.eqb seg ".." then normalize (tail acc) rest
      else normalize (seg :: acc) rest
  end.

Fixpoint join (sep : string) (segments : list string) : string :=
  match segments with
  | [] => ""
  | [seg] => seg
  | seg :: rest => seg +:+ sep +:+ join sep rest
  end.

Definition isAbsolute (p : string) : bool :=
  match p with String c _ => Ascii.eqb c "/" | EmptyString => false end.

Definition posixResolve (cwd p : string) : string :=
  let full := if isAbsolute p then p else cwd +:+ "/" +:+ p in
  "/" +:+ join "/" (normalize [] (Js.split "/" full)).

(** Both separators become a slash before the path is cut in segments. *)
Fixpoint slashes (s : string) : string :=
  match s with
  | EmptyString => EmptyString
  | String c r => String (if Ascii.eqb c "\" then "/"%char else c) (slashes r)
  end.

Definition hasDrive (p : string) : bool :=
  match p with
  | String _ (String c (String d _)) =>
      Ascii.eqb c ":" && (Ascii.eqb d "/" || Ascii.eqb d "\")
  | _ => false
  end.

Definition isRooted (p : string) : bool :=
  match p with
  | String c _ => Ascii.eqb c "/" || Ascii.eqb c "\"
  | EmptyString => false
  end.

(** The drive is kept apart from the segments, so that [..] stops at the
    root of the drive. *)
Definition win32Resolve (cwd p : string) : string :=
  let full :=
    if hasDrive p then p
    else if isRooted p then Js.slice0 2 cwd +:+ p
    else cwd +:+ "\" +:+ p in
  match Js.split "/" (slashes full) with
  | drive :: segments => drive +:+ "\" +:+ join "\" (normalize [] segments)
  | [] => ""
  end.

End NodePath.

(** ** Concrete environments and documents *)

Module Sample.

Definition everyFile : string -> bool := λ _, true.

Definition linuxEnv : Env :=
  {| platform := linux; HOME := Some "/home/u";
     resolve := NodePath.posixResolve "/home/u/project";
     access := everyFile; version := "1.0.1"; execSync := λ _, true |}.

Definition windowsEnv : Env :=
  {| platform := win32; HOME := Some "C:\Users\u";
     resolve := NodePath.win32Resolve "C:\Users\u\project";
     access := everyFile; version := "1.0.1"; execSync := λ _, true |}.

Definition fresh1 : Fresh :=
  {| now := "2025-01-01T00:00:00.000Z"; uuid := "11111111-aaaa-4aaa-8aaa-aaaaaaaaaaaa" |}.
Definition fresh2 : Fresh :=
  {| now := "2025-01-02T00:00:00.000Z"; uuid := "22222222-bbbb-4bbb-8bbb-bbbbbbbbbbbb" |}.

Definition noOptions : AddSoundOptions := {| matcher := None |}.

Definition quietOptions : TestOptions :=
  {| verbose := false; dryRun := true; showCommand := false;
     delay := None; events := None |}.

Definition managedGroup (cmd : string) : HookGroup :=
  {| matchers := None;
     hooks := [ {| hook_type := "command"; command := cmd;
                   _ccsound := Some (createWatermark linuxEnv fresh1);
                   hook_rest := [] |} ];
     group_rest := [] |}.

Definition foreignGroup (cmd : string) : HookGroup :=
  {| matchers := None;
     hooks := [ {| hook_type := "command"; command := cmd;
                   _ccsound := None; hook_rest := [("timeout", "5")] |} ];
     group_rest := [("matcher", "Bash")] |}.

Definition document (event : string) (groups : list HookGroup) : SettingsConfig :=
  {| settingsHooks := Some {[ event := groups ]};
     settings_rest := [("theme", "dark")] |}.

Definition disk (content : option FileContent) : FS :=
  {| claudeDir := true; settingsFile := content; backupFile := None; tempFile := None |}.

Definition noSettings : FS :=
  {| claudeDir := false; settingsFile := None; backupFile := None; tempFile := None |}.

Definition play (file : string) : string := "aplay " +:+ Js.quoted file.

Definition twoManagedOneForeign : list HookGroup :=
  [ managedGroup (play "/sounds/a.wav");
    foreignGroup "notify-send done";
    managedGroup (play "/sounds/b.wav") ].

Definition busyDisk : FS := disk (Some (Json (document "Stop" twoManagedOneForeign))).

Definition brokenDisk : FS := disk (Some (Unparsable "{ hooks: ")).

(** An environment in which no file can be reached. *)
Definition emptyVolumeEnv : Env :=
  {| platform := linux; HOME := Some "/home/u";
     resolve := NodePath.posixResolve "/home/u/project";
     access := λ _, false; version := "1.0.1"; execSync := λ _, true |}.

(** A managed command somebody gave a volume flag to, and one written
    without quotes around a path that holds a space. *)
Definition flaggedCommand : string := "afplay -v 2 " +:+ Js.quoted "/sounds/done.wav".
Definition bareCommand : string := "aplay /sounds/my done.wav".

(** A file name that holds a double quote. *)
Definition quoteInName : string := "/tmp/a" +:+ String Js.dquote "b.wav".

Definition bogusEvents : TestOptions :=
  {| verbose := false; dryRun := true; showCommand := false;
     delay := None; events := Some ["Bogus"] |}.

End Sample.

(** ** Vocabulary of the statements *)

(** What is on disk once a document has been written. *)
Definition written (config : SettingsConfig) : FS :=
  {| claudeDir := true; settingsFile := Some (Json config);
     backupFile := None; tempFile := None |}.

(** The groups of [event] in the document the settings file holds. *)
Definition groupsOnDisk (fs : FS) (event : string) : list HookGroup :=
  match settingsFile fs with
  | Some (Json config) => (getEventHooks config event).2
  | _ => []
  end.

Definition managedGroups (groups : list HookGroup) : list HookGroup :=
  filter (λ g, isccsoundManaged g = true) groups.

Definition unmanagedGroups (groups : list HookGroup) : list HookGroup :=
  filter (λ g, isccsoundManaged g = false) groups.

(** The document [readSettingsFile] hands over when it does not exit, and
    the files it leaves. *)
Definition loadedConfig (fs : FS) : SettingsConfig :=
  match settingsFile fs with
  | Some (Json config) => config
  | _ => defaultSettings
  end.

Definition loadedFS (fs : FS) : FS :=
  match settingsFile fs with
  | None => written defaultSettings
  | Some _ => ensureDir fs
  end.

Definition parsable (fs : FS) : bool :=
  match settingsFile fs with
  | Some (Unparsable _) => false
  | _ => true
  end.

(** The shape a command must have, as a whole, for [matchPlayerCommand] to
    read the path [p] in it: a word, blanks, an optional double quote, the
    path without any double quote, an optional double quote. *)
Inductive playerCommandShape : string -> string -> Prop :=
| PlayerCommand (w ws q1 p q2 : string) :
    w ≠ "" -> Js.all Js.nonSpace w = true ->
    ws ≠ "" -> Js.all Js.isSpace ws = true ->
    p ≠ "" -> Js.all Js.nonQuote p = true ->
    q1 = "" ∨ q1 = String Js.dquote "" ->
    q2 = "" ∨ q2 = String Js.dquote "" ->
    playerCommandShape (w +:+ ws +:+ q1 +:+ p +:+ q2) p.

(** The hook is a command whose text, read by [matchPlayerCommand], names
    the same resolved file as [audioFile]. *)
Definition namesFile (env : Env) (audioFile : string) (hook : Hook) : Prop :=
  hook_type hook = "command"
  ∧ command hook ≠ ""
  ∧ ∃ p, matchPlayerCommand (command hook) = Some p
         ∧ resolve env (expandHome (HOME env) p)
           = resolve env (expandHome (HOME env) audioFile).

(** A group [findExistingAudioHook] may answer with. *)
Definition candidate (env : Env) (audioFile : string) (g : HookGroup) : Prop :=
  isccsoundManaged g = true ∧ ∃ hook, hook ∈ hooks g ∧ namesFile env audioFile hook.

(** The count [removeHooks] reports. *)
Definition removedOf (r : RemoveReport) : nat :=
  match r with
  | NoManagedHooks => 0
  | Removed removedCount => removedCount
  end.

(** * The rest of the library and the command line

    The functions below are the ones the operations above sit between:
    listing and presets in [src/lib/hooks.ts], the system sounds of
    [src/lib/utils.ts], and the commands of [src/bin/cli.ts] that call
    them. *)

Module JsText.

(** [s.trimStart()], [s.trimEnd()] and [s.trim()] on code units below 256:
    the characters removed are those of [Js.isSpace]. *)
Fixpoint trimStart (s : string) : string :=
  match s with
  | String c r => if Js.isSpace c then trimStart r else s
  | EmptyString => EmptyString
  end.

Fixpoint trimEnd (s : string) : string :=
  match s with
  | EmptyString => EmptyString
  | String c r =>
      match trimEnd r with
      | EmptyString => if Js.isSpace c then EmptyString else String c EmptyString
      | r' => String c r'
      end
  end.

Definition trim (s : string) : string := trimEnd (trimStart s).

End JsText.

(** ** [src/lib/utils.ts]: the system sounds *)

Definition getSystemSoundPath (env : Env) (soundName : string) : string :=
  match platform env with
  | darwin => "/System/Library/Sounds/" +:+ soundName +:+ ".aiff"
  | linux => "/usr/share/sounds/alsa/" +:+ soundName +:+ ".wav"
  | win32 => soundName
  | otherPlatform => "/System/Library/Sounds/" +:+ soundName +:+ ".aiff"
  end.

(** ** [src/lib/hooks.ts]: [listHooks] *)

(** One line of the listing: the event, the path read in the command
    ([None] prints as undefined) and the version of the watermark. *)
Inductive ListLine :=
| Listed (event : string) (audioFile : option string) (version : string).

Record ListReport := {
  listed : list ListLine;
  ccsoundCount : nat;
  otherCount : nat
}.

Definition emptyListReport : ListReport :=
  {| listed := []; ccsoundCount := 0; otherCount := 0 |}.

(** The body of the loop over the hooks of a managed group. *)
Definition listHook (event : string) (r : ListReport) (hook : Hook) : ListReport :=
  if String.eqb (hook_type hook) "command"
  then match _ccsound hook with
       | Some w =>
           {| listed := listed r
                          ++ [Listed event (extractAudioFile (command hook)) (wm_version w)];
              ccsoundCount := ccsoundCount r; otherCount := otherCount r |}
       | None => r
       end
  else r.

(** The body of the loop over the groups of an event. *)
Definition listGroup (event : string) (r : ListReport) (hookGroup : HookGroup)
  : ListReport :=
  if isccsoundManaged hookGroup
  then foldl (listHook event)
             {| listed := listed r; ccsoundCount := S (ccsoundCount r);
                otherCount := otherCount r |}
             (hooks hookGroup)
  else {| listed := listed r; ccsoundCount := ccsoundCount r;
          otherCount := S (otherCount r) |}.

(** One turn of the loop over [VALID_EVENTS]. *)
Definition listEvent (acc : SettingsConfig * ListReport) (event : string)
  : SettingsConfig * ListReport :=
  let '(config, r) := acc in
  let '(config, eventHooks) := getEventHooks config event in
  (config, foldl (listGroup event) r eventHooks).

(** The report holds what is printed: the lines, then the two counts (the
    sentence for no managed hook and the sentence about the other hooks
    depend on the counts only). *)
Definition listHooks : IO ListReport :=
  config ← readSettingsFile;
  mret (foldl listEvent (config, emptyListReport) VALID_EVENTS).2.

(** ** [src/lib/hooks.ts]: [applyPreset]

    [PresetName] is the union of the three names.  The guard of the source
    against a name without a preset is for values outside the union; the
    command line refuses those before the call ([presetCommand] below). *)

Inductive PresetName := minimal | complete | development.

(** [Object.entries(presets[presetName])]: the events in the order the
    object literal lists them. *)
Definition presetEntries (env : Env) (presetName : PresetName) : list (string * string) :=
  match presetName with
  | minimal => [("Stop", getSystemSoundPath env "Tink")]
  | complete =>
      [("Stop", getSystemSoundPath env "Tink");
       ("Notification", getSystemSoundPath env "Glass");
       ("PreToolUse", getSystemSoundPath env "Ping");
       ("PostToolUse", getSystemSoundPath env "Pop");
       ("SubagentStop", getSystemSoundPath env "Tink")]
  | development =>
      [("PreToolUse", getSystemSoundPath env "Ping");
       ("PostToolUse", getSystemSoundPath env "Pop");
       ("Stop", getSystemSoundPath env "Tink")]
  end.

(** A loop of [await addSoundHook(event, audioFile, options)] over pairs of
    an event and a file.  The call number [k] draws the watermark
    [fresh k]; the reports are the messages printed, in order. *)
Fixpoint addEach (env : Env) (fresh : nat -> Fresh) (k : nat)
    (entries : list (string * string)) (options : AddSoundOptions)
  : IO (list AddReport) :=
  match entries with
  | [] => mret []
  | (event, audioFile) :: rest =>
      report ← addSoundHook env (fresh k) event audioFile options;
      reports ← addEach env fresh (S k) rest options;
      mret (report :: reports)
  end.

Definition applyPreset (env : Env) (fresh : nat -> Fresh) (presetName : PresetName)
  : IO (list AddReport) :=
  addEach env fresh 0 (presetEntries env presetName) {| matcher := None |}.

(** ** [src/bin/cli.ts]: the commands *)

(** The errors the command line prints by itself before it exits, and
    those of the library. *)
Inductive CliFailure :=
| FileOptionRequired
| EventOptionRequired
| EventOrAllRequired
| InvalidPreset (name : string)
| Library (why : Failure).

Inductive CliResult (A : Type) :=
| Completed (a : A) (fs : FS)
| Aborted (status : nat) (why : CliFailure) (fs : FS).
Arguments Completed {A} a fs.
Arguments Aborted {A} status why fs.

#[export] Instance IO_fmap : FMap IO := λ A B f m, a ← m; mret (f a).

Definition library {A} (r : Result A) : CliResult A :=
  match r with
  | Done a fs => Completed a fs
  | Exit status why fs => Aborted status (Library why) fs
  end.

(** The options of [add-sound] as commander hands them over. *)
Record AddSoundArgs := {
  arg_file : option string;
  arg_event : option string;
  arg_events : option string;
  arg_matcher : option string
}.

Definition truthyOption (o : option string) : bool :=
  match o with Some s => Js.truthy s | None => false end.

(** [options.events ? options.events.split(',').map(e => e.trim())
    : [options.event]], an absent [options.event] being [None]. *)
Definition requestedEvents (args : AddSoundArgs) : list (option string) :=
  if truthyOption (arg_events args)
  then (λ e, Some (JsText.trim e)) <$> Js.split "," (default "" (arg_events args))
  else [arg_event args].

(** The action of [add-sound].  When the first event is there the others
    are (they come from [split] or there is none). *)
Definition addSoundCommand (env : Env) (fresh : nat -> Fresh) (args : AddSoundArgs)
    (fs : FS) : CliResult (list AddReport) :=
  if negb (truthyOption (arg_file args)) then Aborted 1 FileOptionRequired fs
  else
    let events := requestedEvents args in
    if negb (truthyOption (mjoin (head events))) then Aborted 1 EventOptionRequired fs
    else
      library (addEach env fresh 0
                 ((λ e, (default "" e, default "" (arg_file args))) <$> events)
                 {| matcher := arg_matcher args |} fs).

(** The options of [test]; commander sets no [events]. *)
Record TestArgs := {
  arg_all : bool;
  arg_verbose : bool;
  arg_dryRun : bool;
  arg_showCommand : bool;
  arg_delay : option string
}.

Definition testOptionsOf (args : TestArgs) : TestOptions :=
  {| verbose := arg_verbose args; dryRun := arg_dryRun args;
     showCommand := arg_showCommand args; delay := arg_delay args; events := None |}.

Definition testCommand (env : Env) (event : option string) (args : TestArgs) (fs : FS)
  : CliResult (TestAllReport + TestReport) :=
  if arg_all args
  then library ((inl <$> testAllEvents env (testOptionsOf args)) fs)
  else if truthyOption event
  then library ((inr <$> testSpecificEvent env (default "" event) (testOptionsOf args)) fs)
  else Aborted 1 EventOrAllRequired fs.

(** [interactiveRemove]: the events that have managed groups are offered,
    [prompt] is the answer to the list prompt. *)
Definition eventsWithHooks (config : SettingsConfig) : list string :=
  filter (λ event, (0 < length (findExistingccsoundHooks (getEventHooks config event).2))%nat)
         VALID_EVENTS.

Inductive InteractiveRemoveReport :=
| NothingToRemove
| RemovedFor (selectedEvent : string) (report : RemoveReport).

Definition interactiveRemove (prompt : list string -> string) : IO InteractiveRemoveReport :=
  config ← readSettingsFile;
  let offered := eventsWithHooks config in
  match offered with
  | [] => mret NothingToRemove
  | _ =>
      let selectedEvent := prompt offered in
      report ← removeHooks selectedEvent;
      mret (RemovedFor selectedEvent report)
  end.

(** [validPresets.includes(presetName)], with the preset the name casts to. *)
Definition validPreset (presetName : string) : option PresetName :=
  if String.eqb presetName "minimal" then Some minimal
  else if String.eqb presetName "complete" then Some complete
  else if String.eqb presetName "development" then Some development
  else None.

Definition presetCommand (env : Env) (fresh : nat -> Fresh) (presetName : string)
    (fs : FS) : CliResult (list AddReport) :=
  match validPreset presetName with
  | None => Aborted 1 (InvalidPreset presetName) fs
  | Some name => library (applyPreset env fresh name fs)
  end.

(** ** [String.prototype.startsWith] and [String.prototype.includes] *)

Module JsSearch.

Fixpoint startsWith (s searchString : string) : bool :=
  match searchString, s with
  | EmptyString, _ => true
  | String p ps, String c cs => Ascii.eqb c p && startsWith cs ps
  | String _ _, EmptyString => false
  end.

Fixpoint includes (s searchString : string) : bool :=
  startsWith s searchString
  || match s with
     | String _ r => includes r searchString
     | EmptyString => false
     end.

End JsSearch.

(** ** [src/lib/installer.ts] and [src/lib/utils.ts]: [runDiagnostics] *)

(** What the diagnostics ask the machine besides [Env]: the output of
    [claude --version] ([None] when the command fails) and whether the
    settings file can be written to.  As in [test.ts], the helper
    [isccsoundManaged] that [runDiagnostics] declares for itself is, on the
    declared type, the function of [hooks.ts]. *)
Record Machine := {
  claudeVersionOutput : option string;
  settingsAccessW : bool
}.

Definition checkClaudeCodeInstallation (m : Machine) : bool * option string :=
  match claudeVersionOutput m with
  | Some out => (true, Some (JsText.trim out))
  | None => (false, None)
  end.

(** [which afplay] and [which aplay] are asked through [execSync]; every
    platform other than darwin and linux is taken to have its player. *)
Definition audioSystemAvailable (env : Env) : bool :=
  match platform env with
  | darwin => execSync env "which afplay"
  | linux => execSync env "which aplay"
  | _ => true
  end.

Record InvalidHook := {
  ih_event : string;
  ih_error : string
}.

(** The body of the loop that validates the hooks of a managed group. *)
Definition checkHook (env : Env) (event : string) (invalidHooks : list InvalidHook)
    (hook : Hook) : list InvalidHook :=
  if String.eqb (hook_type hook) "command" && Js.truthy (command hook)
  then match extractAudioFile (command hook) with
       | Some audioFile =>
           if Js.truthy audioFile
           then
             let validation := validateAudioFile env audioFile in
             if negb (exists_ validation)
             then invalidHooks
                    ++ [{| ih_event := event;
                           ih_error := "file not found: " +:+ audioFile |}]
             else invalidHooks
           else invalidHooks
       | None => invalidHooks
       end
  else invalidHooks.

Definition checkGroup (env : Env) (event : string) (acc : nat * list InvalidHook)
    (hookGroup : HookGroup) : nat * list InvalidHook :=
  let '(ccsoundHooks, invalidHooks) := acc in
  if isccsoundManaged hookGroup
  then (S ccsoundHooks, foldl (checkHook env event) invalidHooks (hooks hookGroup))
  else acc.

Definition checkEvent (env : Env) (acc : SettingsConfig * (nat * list InvalidHook))
    (event : string) : SettingsConfig * (nat * list InvalidHook) :=
  let '(config, counts) := acc in
  let '(config, eventHooks) := getEventHooks config event in
  (config, foldl (checkGroup env event) counts eventHooks).

(** A line of the details: PASS or FAIL, the event, the path read in the
    command and the version of the watermark; under a FAIL line, the error
    of the first invalid hook found for it. *)
Inductive DoctorLine :=
| Detail (isInvalid : bool) (event : string) (audioFile : option string) (version : string)
| DetailError (error : option string).

(** [ih => ih.event === event && ih.error.includes(audioFile || '')] *)
Definition invalidFor (event : string) (audioFile : option string) (ih : InvalidHook)
  : bool :=
  String.eqb (ih_event ih) event && JsSearch.includes (ih_error ih) (default "" audioFile).

Definition detailHook (invalidHooks : list InvalidHook) (event : string)
    (printed : list DoctorLine) (hook : Hook) : list DoctorLine :=
  if String.eqb (hook_type hook) "command"
  then match _ccsound hook with
       | Some w =>
           let audioFile := extractAudioFile (command hook) in
           let isInvalid := existsb (invalidFor event audioFile) invalidHooks in
           let printed := printed ++ [Detail isInvalid event audioFile (wm_version w)] in
           if isInvalid
           then printed
                  ++ [DetailError (ih_error <$> find (invalidFor event audioFile) invalidHooks)]
           else printed
       | None => printed
       end
  else printed.

Definition detailGroup (invalidHooks : list InvalidHook) (event : string)
    (printed : list DoctorLine) (hookGroup : HookGroup) : list DoctorLine :=
  if isccsoundManaged hookGroup
  then foldl (detailHook invalidHooks event) printed (hooks hookGroup)
  else printed.

Definition detailEvent (invalidHooks : list InvalidHook)
    (acc : SettingsConfig * list DoctorLine) (event : string)
  : SettingsConfig * list DoctorLine :=
  let '(config, printed) := acc in
  let '(config, eventHooks) := getEventHooks config event in
  (config, foldl (detailGroup invalidHooks event) printed eventHooks).

Inductive HooksStatus :=
| NoneConfigured
| Configured (ccsoundHooks : nat) (valid : Z).

Inductive Recommendation :=
| InstallClaudeCode
| InstallAudioPlayer (audioPlayer : string)
| ReplaceMissingFiles
| ConfigureHooks
| AddMoreEvents.

Record Diagnostics := {
  claudeInstalled : bool;
  claudeVersion : option string;
  settingsWritable : bool;
  audioPlayer : string;
  audioAvailable : bool;
  hooksStatus : HooksStatus;
  details : list DoctorLine;
  recommendations : list Recommendation
}.

(** The report holds what is printed once the settings are loaded; the
    number of valid hooks is the difference the source prints. *)
Definition runDiagnostics (env : Env) (m : Machine) : IO Diagnostics :=
  let '(claudeInstalled, claudeVersion) := checkClaudeCodeInstallation m in
  let settingsWritable := if settingsAccessW m then true else true in
  let audioPlayer := getAudioPlayer env in
  let audioAvailable := audioSystemAvailable env in
  config ← readSettingsFile;
  let '(config, (ccsoundHooks, invalidHooks)) :=
    foldl (checkEvent env) (config, (0%nat, [])) VALID_EVENTS in
  let hooksStatus :=
    if (0 <? ccsoundHooks)%nat
    then Configured ccsoundHooks (Z.of_nat ccsoundHooks - Z.of_nat (length invalidHooks))
    else NoneConfigured in
  let details :=
    if (0 <? ccsoundHooks)%nat
    then (foldl (detailEvent invalidHooks) (config, []) VALID_EVENTS).2
    else [] in
  let recommendations :=
    (if negb claudeInstalled then [InstallClaudeCode] else [])
    ++ (if negb audioAvailable then [InstallAudioPlayer audioPlayer] else [])
    ++ (if (0 <? length invalidHooks)%nat then [ReplaceMissingFiles] else [])
    ++ (if (ccsoundHooks =? 0)%nat then [ConfigureHooks]
        else if (ccsoundHooks =? 1)%nat && (length invalidHooks =? 0)%nat
             then [AddMoreEvents] else []) in
  mret {| claudeInstalled := claudeInstalled; claudeVersion := claudeVersion;
          settingsWritable := settingsWritable;
          audioPlayer := audioPlayer; audioAvailable := audioAvailable;
          hooksStatus := hooksStatus; details := details;
          recommendations := recommendations |}.

(** ** [src/lib/utils.ts]: [getSystemSounds] *)

Module JsReplace.

(** [s.replace(searchValue, '')] for a string [searchValue]: the first
    occurrence is removed. *)
Fixpoint dropChars (n : nat) (s : string) : string :=
  match n, s with
  | S n', String _ r => dropChars n' r
  | _, _ => s
  end.

Fixpoint removeFirst (searchValue s : string) : string :=
  if JsSearch.startsWith s searchValue then dropChars (String.length searchValue) s
  else match s with
       | String c r => String c (removeFirst searchValue r)
       | EmptyString => EmptyString
       end.

End JsReplace.

(** [lsOutput] is what [ls] prints for the sounds of macOS, [None] when
    the command fails. *)
Definition getSystemSounds (env : Env) (lsOutput : option string) : list string :=
  match platform env with
  | darwin =>
      match lsOutput with
      | Some files =>
          let soundsDir := "/System/Library/Sounds/" in
          (λ f, JsReplace.removeFirst ".aiff" (JsReplace.removeFirst soundsDir f))
            <$> filter (λ f, Js.truthy f = true) (Js.split (ascii_of_nat 10) (JsText.trim files))
      | None =>
          ["Basso"; "Blow"; "Bottle"; "Frog"; "Funk"; "Glass"; "Hero"; "Morse"; "Ping";
           "Pop"; "Purr"; "Sosumi"; "Submarine"; "Tink"]
      end
  | linux => ["bell"; "beep"; "click"]
  | win32 => ["SystemAsterisk"; "SystemExclamation"; "SystemNotification"; "SystemQuestion"]
  | otherPlatform => ["Tink"; "Glass"; "Ping"]
  end.

(** ** [src/bin/cli.ts]: the choice of a sound *)

Record SoundChoice := {
  choice_name : string;
  choice_value : string;
  choice_file : option string
}.

Definition soundChoicesOf (env : Env) (systemSounds : list string) : list SoundChoice :=
  {| choice_name := "Custom audio file"; choice_value := "custom"; choice_file := None |}
  :: ((λ sound, {| choice_name := "System: " +:+ sound;
                   choice_value := "system:" +:+ sound;
                   choice_file := Some (getSystemSoundPath env sound) |})
        <$> systemSounds).

(** How the selector ends: with the value of a choice, with the process
    left on Ctrl+C, waiting for a key, rejecting because the terminal
    cannot be read, or with the exception of reading a choice that is not
    there. *)
Inductive Selection :=
| Selected (value : string)
| Interrupted
| Waiting (currentIndex : Z)
| Rejected
| NoSuchChoice.

Definition keyCtrlC : string := String (ascii_of_nat 3) "".
Definition keyUp : string := String (ascii_of_nat 27) "[A".
Definition keyDown : string := String (ascii_of_nat 27) "[B".
Definition keyReturn : string := String (ascii_of_nat 13) "".
Definition keyNewline : string := String (ascii_of_nat 10) "".

(** [soundChoices[currentIndex]] *)
Definition choiceAt (soundChoices : list SoundChoice) (currentIndex : Z)
  : option SoundChoice :=
  if (currentIndex <? 0)%Z then None else soundChoices !! Z.to_nat currentIndex.

(** [onKeyPress] over the chunks read from the terminal, from the index
    the selector is at.  Drawing the list and playing the sound under the
    cursor change neither the index nor the result; they are left out. *)
Fixpoint keysPressed (soundChoices : list SoundChoice) (currentIndex : Z)
    (keys : list string) : Selection :=
  match keys with
  | [] => Waiting currentIndex
  | key :: rest =>
      if String.eqb key keyCtrlC then Interrupted
      else if String.eqb key keyUp || String.eqb key "k" || String.eqb key "w"
      then keysPressed soundChoices (Z.max 0 (currentIndex - 1)) rest
      else if String.eqb key keyDown || String.eqb key "j" || String.eqb key "s"
      then keysPressed soundChoices
             (Z.min (Z.of_nat (length soundChoices) - 1) (currentIndex + 1)) rest
      else if String.eqb key keyReturn || String.eqb key keyNewline || String.eqb key " "
      then match choiceAt soundChoices currentIndex with
           | Some choice => Selected (choice_value choice)
           | None => NoSuchChoice
           end
      else keysPressed soundChoices currentIndex rest
  end.

(** [stdin] holds the chunks typed, [None] when the terminal cannot be
    set up.  Before any key is read the first choice is looked at for its
    sound; without a first choice the promise is rejected. *)
Definition useCustomSoundSelector (soundChoices : list SoundChoice)
    (stdin : option (list string)) : Selection :=
  match stdin with
  | Some keys =>
      match choiceAt soundChoices 0 with
      | Some _ => keysPressed soundChoices 0 keys
      | None => Rejected
      end
  | None => Rejected
  end.

(** [listAnswer] is the answer to the list prompt the selector falls back
    to. *)
Definition selectSoundWithPreview (env : Env) (lsOutput : option string)
    (stdin : option (list string)) (listAnswer : string) : Selection :=
  let systemSounds := getSystemSounds env lsOutput in
  let soundChoices := soundChoicesOf env systemSounds in
  match useCustomSoundSelector soundChoices stdin with
  | Rejected =>
      let selectedChoice :=
        find (λ choice, String.eqb (choice_name choice) listAnswer) soundChoices in
      Selected (match selectedChoice with
                | Some choice =>
                    if Js.truthy (choice_value choice) then choice_value choice else "custom"
                | None => "custom"
                end)
  | selection => selection
  end.

(** The audio file [quickstart] takes for a selection; [customFile] is the
    answer to the prompt for a path. *)
Definition audioFileOfChoice (env : Env) (soundChoice customFile : string) : string :=
  if String.eqb soundChoice "custom" then customFile
  else if JsSearch.startsWith soundChoice "system:"
  then getSystemSoundPath env (JsReplace.removeFirst "system:" soundChoice)
  else getSystemSoundPath env "Tink".

(** ** [src/lib/installer.ts]: [runAutoInstallation]

    [npmInstalled] tells whether [npm install -g] went through, [after] is
    the machine after it, [shouldContinue] the answer to the prompt asked
    when the installation failed.  [None] is the exit with status 1. *)
Definition runAutoInstallation (npmInstalled : bool) (after : Machine)
    (shouldContinue : bool) : option bool :=
  if npmInstalled && (checkClaudeCodeInstallation after).1 then Some true
  else if negb shouldContinue then None
  else Some false.

(** ** [src/bin/cli.ts]: [quickstart] *)

(** The answers to the prompts of [quickstart], in the order they are
    asked, and what is typed in the selector. *)
Record QuickstartAnswers := {
  shouldInstall : bool;
  shouldContinue : bool;
  checkedEvents : list string;
  stdin : option (list string);
  listAnswer : string;
  customFile : string;
  shouldTest : bool
}.

Inductive QuickstartEnd :=
| ClaudeCodeRequired
| NoEventsSelected
| SelectorInterrupted
| SelectorWaiting
| SelectorThrew
| LibraryExit (status : nat) (why : Failure)
| SetupComplete (reports : list AddReport) (tested : option TestAllReport).

(** The options of the test [quickstart] ends with. *)
Definition testOfEvents (events : list string) : TestOptions :=
  {| verbose := false; dryRun := false; showCommand := false; delay := None;
     events := Some events |}.

Definition quickstart (env : Env) (fresh : nat -> Fresh) (m : Machine)
    (npmInstalled : bool) (after : Machine) (lsOutput : option string)
    (answers : QuickstartAnswers) (fs : FS) : QuickstartEnd * FS :=
  let '(installed, _) := checkClaudeCodeInstallation m in
  let goesOn :=
    if negb installed
    then if shouldInstall answers
         then match runAutoInstallation npmInstalled after (shouldContinue answers) with
              | Some _ => true
              | None => false
              end
         else false
    else true in
  if negb goesOn then (ClaudeCodeRequired, fs)
  else
    let events := checkedEvents answers in
    if (length events =? 0)%nat then (NoEventsSelected, fs)
    else
      match selectSoundWithPreview env lsOutput (stdin answers) (listAnswer answers) with
      | Selected soundChoice =>
          let audioFile := audioFileOfChoice env soundChoice (customFile answers) in
          match addEach env fresh 0 ((λ event, (event, audioFile)) <$> events)
                  {| matcher := None |} fs with
          | Exit status why fs => (LibraryExit status why, fs)
          | Done reports fs =>
              if shouldTest answers
              then match testAllEvents env (testOfEvents events) fs with
                   | Done tested fs => (SetupComplete reports (Some tested), fs)
                   | Exit status why fs => (LibraryExit status why, fs)
                   end
              else (SetupComplete reports None, fs)
          end
      | Interrupted => (SelectorInterrupted, fs)
      | Waiting _ => (SelectorWaiting, fs)
      | Rejected | NoSuchChoice => (SelectorThrew, fs)
      end.

(** ** Vocabulary of the statements about them *)

(** The managed, and the unmanaged, groups the settings file holds under
    the events of a list, counted. *)
Definition managedOnDisk (fs : FS) (events : list string) : nat :=
  sum_list ((λ e, length (managedGroups (groupsOnDisk fs e))) <$> events).

Definition unmanagedOnDisk (fs : FS) (events : list string) : nat :=
  sum_list ((λ e, length (unmanagedGroups (groupsOnDisk fs e))) <$> events).

(** The count [clearAllHooks] reports. *)
Definition clearedOf (r : ClearReport) : nat :=
  match r with
  | Cleared totalRemoved => totalRemoved
  | _ => 0
  end.

(** A character other than the dollar sign. *)
Definition nonDollar (c : ascii) : bool := negb (Ascii.eqb c "$").

(** The text of the Windows player command between its double quotes. *)
Definition windowsScript : string := "(New-Object Media.SoundPlayer '%s').PlaySync();".

(** The event a line of the listing is printed for. *)
Definition listedEvent (l : ListLine) : string :=
  match l with Listed event _ _ => event end.

(** What a command that only reads may do to the files: an existing
    settings file, parsable or not, is left with its backup and temporary
    file as they were; a missing one is created with the empty document. *)
Definition onlyLoaded (fs fs' : FS) : Prop :=
  (∀ content, settingsFile fs = Some content ->
              settingsFile fs' = Some content
              ∧ backupFile fs' = backupFile fs ∧ tempFile fs' = tempFile fs)
  ∧ (settingsFile fs = None -> fs' = written defaultSettings).

(** A name as it may stand in a list of events: no comma in it, and no
    blank at either end. *)
Definition nonComma (c : ascii) : bool := negb (Ascii.eqb c ",").

Definition startsNonSpace (s : string) : bool :=
  match s with String c _ => Js.nonSpace c | EmptyString => false end.

Fixpoint endsNonSpace (s : string) : bool :=
  match s with
  | EmptyString => false
  | String c EmptyString => Js.nonSpace c
  | String _ r => endsNonSpace r
  end.

Definition tidyName (s : string) : Prop :=
  Js.all nonComma s = true ∧ startsNonSpace s = true ∧ endsNonSpace s = true.

(** A name between blanks. *)
Definition blanks (s : string) : Prop := Js.all Js.isSpace s = true.

Definition paddedName (lnr : string * string * string) : string :=
  lnr.1.1 +:+ lnr.1.2 +:+ lnr.2.

(** The options with the list of events to test set. *)
Definition onlyEvents (options : TestOptions) (evs : list string) : TestOptions :=
  {| verbose := verbose options; dryRun := dryRun options;
     showCommand := showCommand options; delay := delay options; events := Some evs |}.

(** The environment with another answer of the player. *)
Definition withExecSync (env : Env) (answer : string -> bool) : Env :=
  {| platform := platform env; HOME := HOME env; resolve := resolve env;
     access := access env; version := version env; execSync := answer |}.

(** The lines [testSpecificEvent] prints for a hook whose file is there. *)
Definition linesOfFound (env : Env) (options : TestOptions) (cmd audioFile : string)
  : list TestLine :=
  (if verbose options then [Testing (Some audioFile)] else [])
  ++ (if showCommand options then [ShowCommand cmd] else [])
  ++ [if dryRun options then Skip audioFile
      else if execSync env cmd then Pass audioFile else FailPlayback audioFile].

(** The invalid hook the diagnostics record for a hook, if any, and the
    hooks of the managed groups the settings file holds under an event. *)
Definition missingOf (env : Env) (event : string) (hook : Hook) : list InvalidHook :=
  checkHook env event [] hook.

Definition managedHooks (config : SettingsConfig) (event : string) : list Hook :=
  hookGroup ← managedGroups (getEventHooks config event).2; hooks hookGroup.

(** The lines the diagnostics print for a hook. *)
Definition detailOf (invalidHooks : list InvalidHook) (event : string) (hook : Hook)
  : list DoctorLine :=
  detailHook invalidHooks event [] hook.

(** What [ls] prints for the sounds of macOS: one line per file, and the
    names that can be read back from it (no line break and no dot). *)
Definition newline : ascii := ascii_of_nat 10.

Definition soundFile (name : string) : string :=
  "/System/Library/Sounds/" +:+ name +:+ ".aiff".

Definition lsOutputOf (names : list string) : string :=
  foldr (λ name printed, soundFile name +:+ String newline printed) "" names.

Definition plainName (name : string) : Prop :=
  Js.all (λ c, negb (Ascii.eqb c newline) && negb (Ascii.eqb c ".")) name = true.

(** The environment on another platform. *)
Definition withPlatform (env : Env) (p : Platform) : Env :=
  {| platform := p; HOME := HOME env; resolve := resolve env;
     access := access env; version := version env; execSync := execSync env |}.

Module MoreSamples.

Import Sample.

Definition freshes (k : nat) : Fresh :=
  {| now := "2025-02-01T00:00:00.000Z";
     uuid := String (ascii_of_nat (48 + k)) "0000000-cccc-4ccc-8ccc-cccccccccccc" |}.

(** A disk with a stale backup and a stale temporary file beside settings
    that do not parse. *)
Definition litteredDisk : FS :=
  {| claudeDir := true; settingsFile := Some (Unparsable "{");
     backupFile := Some (Unparsable "old"); tempFile := Some (Unparsable "half") |}.

(** Linux with the ALSA sample for Ping and no other sound installed. *)
Definition pingOnlyEnv : Env :=
  {| platform := linux; HOME := Some "/home/u";
     resolve := NodePath.posixResolve "/home/u/project";
     access := String.eqb "/usr/share/sounds/alsa/Ping.wav";
     version := "1.0.1"; execSync := λ _, true |}.

(** Windows without [HOME], nothing reachable from the working directory. *)
Definition bareWindowsEnv : Env :=
  {| platform := win32; HOME := None;
     resolve := NodePath.win32Resolve "C:\Users\u\project";
     access := λ _, false; version := "1.0.1"; execSync := λ _, true |}.

(** Windows with one sound file and nothing else. *)
Definition oneSoundWindowsEnv : Env :=
  {| platform := win32; HOME := Some "C:\Users\u";
     resolve := NodePath.win32Resolve "C:\Users\u\project";
     access := String.eqb "C:\Users\u\a.wav";
     version := "1.0.1"; execSync := λ _, true |}.

(** Linux with one sound file and nothing else; a machine without Claude
    Code whose settings file cannot be written to. *)
Definition oneSoundEnv : Env :=
  {| platform := linux; HOME := Some "/home/u";
     resolve := NodePath.posixResolve "/home/u/project";
     access := String.eqb "/sounds/a.wav";
     version := "1.0.1"; execSync := λ _, true |}.

Definition bareMachine : Machine :=
  {| claudeVersionOutput := None; settingsAccessW := false |}.

(** A machine with Claude Code, and the answers of a setup for two events
    with the first system sound, tested at the end. *)
Definition readyMachine : Machine :=
  {| claudeVersionOutput := Some "1.0.0 (Claude Code)"; settingsAccessW := true |}.

Definition setupAnswers : QuickstartAnswers :=
  {| shouldInstall := false; shouldContinue := false;
     checkedEvents := ["Stop"; "Notification"];
     stdin := Some [keyDown; keyReturn]; listAnswer := "";
     customFile := ""; shouldTest := true |}.

(** The options of [test --all --dry-run]. *)
Definition allQuietly : TestArgs :=
  {| arg_all := true; arg_verbose := false; arg_dryRun := true;
     arg_showCommand := false; arg_delay := Some "1000" |}.

(** Managed groups under two events. *)
Definition twoEventsDisk : FS :=
  disk (Some (Json (setEventHooks (document "Stop" twoManagedOneForeign) "PostToolUse"
                      [managedGroup (play "/sounds/b.wav")]))).

End MoreSamples.

(** * Properties *)

Import Sample.

(** ** The settings store *)

Lemma bind_run {A B} (m : IO A) (f : A -> IO B) (fs : FS) :
  (m ≫= f) fs =
  match m fs with
  | Done a fs' => f a fs'
  | Exit status why fs' => Exit status why fs'
  end.
Proof. reflexivity. Qed.

Lemma writeSettingsFile_run config fs :
  writeSettingsFile config fs = Done tt (written config).
Proof. by destruct fs as [d [s|] [b|] [t|]]. Qed.

Lemma readSettingsFile_run fs :
  readSettingsFile fs =
  match settingsFile fs with
  | None => Done defaultSettings (written defaultSettings)
  | Some (Json config) => Done config (ensureDir fs)
  | Some (Unparsable _) => Exit 1 SettingsParseError (ensureDir fs)
  end.
Proof. by destruct fs as [d [[text|config]|] [b|] [t|]]. Qed.

Lemma groupsOnDisk_written config event :
  groupsOnDisk (written config) event = (getEventHooks config event).2.
Proof. reflexivity. Qed.

Lemma getEventHooks_ensured config event :
  (getEventHooks (ensureHooksStructure config) event).2 = (getEventHooks config event).2.
Proof. by destruct config as [[m|] r]. Qed.

Lemma getEventHooks_fst config event :
  (getEventHooks config event).1 = ensureHooksStructure config.
Proof. reflexivity. Qed.

Lemma getEventHooks_setEventHooks config event groups event' :
  (getEventHooks (setEventHooks config event groups) event').2 =
  if decide (event = event') then groups else (getEventHooks config event').2.
Proof.
  destruct config as [[m|] r]; cbn; rewrite lookup_insert; by case_decide.
Qed.

Lemma getEventHooks_default event : (getEventHooks defaultSettings event).2 = [].
Proof. cbn. by rewrite lookup_empty. Qed.

Lemma setEventHooks_ensured config event groups :
  setEventHooks (ensureHooksStructure config) event groups = setEventHooks config event groups.
Proof. by destruct config as [[m|] r]. Qed.

Lemma readSettingsFile_parsable fs :
  parsable fs = true -> readSettingsFile fs = Done (loadedConfig fs) (loadedFS fs).
Proof.
  rewrite readSettingsFile_run. unfold parsable, loadedConfig, loadedFS.
  by destruct (settingsFile fs) as [[text|config]|].
Qed.

Lemma readSettingsFile_unparsable fs :
  parsable fs = false -> readSettingsFile fs = Exit 1 SettingsParseError (ensureDir fs).
Proof.
  rewrite readSettingsFile_run. unfold parsable.
  by destruct (settingsFile fs) as [[text|config]|].
Qed.

Lemma groupsOnDisk_loaded fs event :
  (getEventHooks (loadedConfig fs) event).2 = groupsOnDisk fs event.
Proof.
  unfold loadedConfig, groupsOnDisk.
  destruct (settingsFile fs) as [[text|config]|]; try done; apply getEventHooks_default.
Qed.

Lemma groupsOnDisk_loadedFS fs event :
  groupsOnDisk (loadedFS fs) event = groupsOnDisk fs event.
Proof.
  unfold loadedFS, groupsOnDisk.
  destruct (settingsFile fs) as [[text|config]|] eqn:E; cbn; rewrite ?E; done.
Qed.

Lemma addSoundHook_run env fresh event audioFile options fs :
  addSoundHook env fresh event audioFile options fs =
  if negb (includes VALID_EVENTS event) then Exit 1 (InvalidEvent event) fs
  else if negb (access env (resolve env (expandHome (HOME env) audioFile)))
  then Exit 1 (AudioFileNotFound audioFile) fs
  else if negb (parsable fs) then Exit 1 SettingsParseError (ensureDir fs)
  else
    let groups := groupsOnDisk fs event in
    match findExistingAudioHook env groups audioFile with
    | Some _ => Done AlreadyExists (loadedFS fs)
    | None =>
        Done (if (0 <? length (managedGroups groups))%nat then Replaced else Added)
             (written (setEventHooks (loadedConfig fs) event
                         (unmanagedGroups groups
                            ++ [createAudioHook env fresh event audioFile options])%list))
    end.
Proof.
  unfold addSoundHook.
  destruct (negb (includes VALID_EVENTS event)); [done|].
  unfold validateAudioFile.
  destruct (access env _); cbn [exists_ negb]; [|done].
  rewrite bind_run.
  destruct (parsable fs) eqn:P; cbn [negb].
  - rewrite (readSettingsFile_parsable _ P).
    destruct (getEventHooks (loadedConfig fs) event) as [config eventHooks] eqn:G.
    assert (eventHooks = groupsOnDisk fs event) as ->
      by (rewrite <- groupsOnDisk_loaded, G; done).
    assert (config = ensureHooksStructure (loadedConfig fs)) as ->
      by (rewrite <- getEventHooks_fst with (event := event), G; done).
    cbn zeta.
    destruct (findExistingAudioHook env _ audioFile); [done|].
    rewrite bind_run, writeSettingsFile_run, setEventHooks_ensured. done.
  - by rewrite (readSettingsFile_unparsable _ P).
Qed.

(** [H] says that an operation ended in [Done]: each guard that would have
    ended it in [Exit] is decided the other way. *)
Ltac passed_guards H :=
  repeat match type of H with
         | context [if negb ?b then _ else _] =>
             destruct b eqn:?; cbn [negb] in H; [|done]
         end;
  cbn zeta in H.

(** In a goal about every outcome, the outcomes that exited left the files
    of the statement alone. *)
Ltac skip_exits :=
  repeat match goal with
         | |- context [if negb ?b then _ else _] => destruct (negb b); [done|]
         end;
  cbn zeta.

(** ** Managed and unmanaged groups of a list *)

Lemma unmanagedGroups_cons g l :
  unmanagedGroups (g :: l) =
  if isccsoundManaged g then unmanagedGroups l else g :: unmanagedGroups l.
Proof.
  unfold unmanagedGroups. rewrite filter_cons.
  destruct (isccsoundManaged g); by case_decide.
Qed.

Lemma managedGroups_cons g l :
  managedGroups (g :: l) =
  if isccsoundManaged g then g :: managedGroups l else managedGroups l.
Proof.
  unfold managedGroups. rewrite filter_cons.
  destruct (isccsoundManaged g); by case_decide.
Qed.

Lemma unmanagedGroups_app l1 l2 :
  unmanagedGroups (l1 ++ l2) = (unmanagedGroups l1 ++ unmanagedGroups l2)%list.
Proof. apply filter_app. Qed.

Lemma managedGroups_app l1 l2 :
  managedGroups (l1 ++ l2) = (managedGroups l1 ++ managedGroups l2)%list.
Proof. apply filter_app. Qed.

Lemma unmanagedGroups_idemp l : unmanagedGroups (unmanagedGroups l) = unmanagedGroups l.
Proof.
  induction l as [|g l IH]; [done|].
  rewrite unmanagedGroups_cons. destruct (isccsoundManaged g) eqn:E; [done|].
  by rewrite unmanagedGroups_cons, E, IH.
Qed.

Lemma managedGroups_unmanagedGroups l : managedGroups (unmanagedGroups l) = [].
Proof.
  induction l as [|g l IH]; [done|].
  rewrite unmanagedGroups_cons. destruct (isccsoundManaged g) eqn:E; [done|].
  by rewrite managedGroups_cons, E.
Qed.

Lemma length_managed_unmanaged l :
  (length (managedGroups l) + length (unmanagedGroups l))%nat = length l.
Proof.
  induction l as [|g l IH]; [done|].
  rewrite managedGroups_cons, unmanagedGroups_cons.
  destruct (isccsoundManaged g); cbn; lia.
Qed.

Lemma removedCount_managed l :
  (length l - length (unmanagedGroups l))%nat = length (managedGroups l).
Proof. pose proof (length_managed_unmanaged l). lia. Qed.

Lemma createAudioHook_managed env fresh event audioFile options :
  isccsoundManaged (createAudioHook env fresh event audioFile options) = true.
Proof.
  unfold createAudioHook. destruct (matcher options) as [m|]; [|done].
  by destruct (Js.truthy m && _).
Qed.

(** ** [removeHooks] and [clearAllHooks], run *)

Lemma removeHooks_run event fs :
  removeHooks event fs =
  if negb (includes VALID_EVENTS event) then Exit 1 (InvalidEvent event) fs
  else if negb (parsable fs) then Exit 1 SettingsParseError (ensureDir fs)
  else
    let groups := groupsOnDisk fs event in
    let removedCount := length (managedGroups groups) in
    if (removedCount =? 0)%nat then Done NoManagedHooks (loadedFS fs)
    else Done (Removed removedCount)
              (written (setEventHooks (loadedConfig fs) event (unmanagedGroups groups))).
Proof.
  unfold removeHooks.
  destruct (negb (includes VALID_EVENTS event)); [done|].
  rewrite bind_run.
  destruct (parsable fs) eqn:P; cbn [negb].
  - rewrite (readSettingsFile_parsable _ P).
    destruct (getEventHooks (loadedConfig fs) event) as [config eventHooks] eqn:G.
    assert (eventHooks = groupsOnDisk fs event) as ->
      by (rewrite <- groupsOnDisk_loaded, G; done).
    assert (config = ensureHooksStructure (loadedConfig fs)) as ->
      by (rewrite <- getEventHooks_fst with (event := event), G; done).
    cbn zeta. fold (unmanagedGroups (groupsOnDisk fs event)).
    rewrite removedCount_managed.
    destruct (_ =? 0)%nat; [done|].
    by rewrite bind_run, writeSettingsFile_run, setEventHooks_ensured.
  - by rewrite (readSettingsFile_unparsable _ P).
Qed.

Lemma clearAllHooks_run confirm fs :
  clearAllHooks confirm fs =
  if negb confirm then Done Cancelled fs
  else if negb (parsable fs) then Exit 1 SettingsParseError (ensureDir fs)
  else
    let '(config, totalRemoved) := foldl clearEvent (loadedConfig fs, 0%nat) VALID_EVENTS in
    if (totalRemoved =? 0)%nat then Done NothingToClear (loadedFS fs)
    else Done (Cleared totalRemoved) (written config).
Proof.
  unfold clearAllHooks.
  destruct (negb confirm); [done|].
  rewrite bind_run.
  destruct (parsable fs) eqn:P; cbn [negb].
  - rewrite (readSettingsFile_parsable _ P).
    destruct (foldl clearEvent _ _) as [config totalRemoved].
    destruct (_ =? 0)%nat; [done|].
    by rewrite bind_run, writeSettingsFile_run.
  - by rewrite (readSettingsFile_unparsable _ P).
Qed.

Lemma clearEvent_unmanaged config n event event' :
  unmanagedGroups (getEventHooks (clearEvent (config, n) event).1 event').2 =
  unmanagedGroups (getEventHooks config event').2.
Proof.
  unfold clearEvent.
  destruct (getEventHooks config event) as [config1 eventHooks] eqn:G.
  assert (eventHooks = (getEventHooks config event).2) as -> by (by rewrite G).
  assert (config1 = ensureHooksStructure config) as ->
    by (rewrite <- getEventHooks_fst with (event := event), G; done).
  destruct (0 <? _)%nat; cbn [fst].
  - rewrite setEventHooks_ensured, getEventHooks_setEventHooks.
    case_decide as E; [|done]. subst event'.
    apply unmanagedGroups_idemp.
  - by rewrite getEventHooks_ensured.
Qed.

Lemma clearEvents_unmanaged evs config n event' :
  unmanagedGroups (getEventHooks (foldl clearEvent (config, n) evs).1 event').2 =
  unmanagedGroups (getEventHooks config event').2.
Proof.
  revert config n. induction evs as [|ev evs IH]; intros config n; [done|].
  cbn [foldl]. destruct (clearEvent (config, n) ev) as [config1 n1] eqn:E.
  rewrite IH. replace config1 with (clearEvent (config, n) ev).1 by (by rewrite E).
  apply clearEvent_unmanaged.
Qed.


Lemma includes_elem_of l x : includes l x = true <-> x ∈ l.
Proof.
  unfold includes. rewrite existsb_exists. split.
  - intros (y & Hy & E). apply String.eqb_eq in E. subst y. by apply list_elem_of_In.
  - intros H. exists x. split; [by apply list_elem_of_In | apply String.eqb_refl].
Qed.

Lemma includes_not_elem_of l x : includes l x = false <-> x ∉ l.
Proof.
  rewrite <- includes_elem_of. by destruct (includes l x).
Qed.

(** ** The operations on a document *)

(** C1. After an [addSoundHook] that ends with the message "Added" or
    "Replaced" (a successful add), the groups of the event that are managed
    are exactly the one new watermarked group, however many managed groups
    the event had; the message is "Replaced" when the event had a managed
    group before and "Added" otherwise. *)
Theorem add_leaves_one_managed_group env fresh event audioFile options fs report fs' :
  addSoundHook env fresh event audioFile options fs = Done report fs' ->
  report ≠ AlreadyExists ->
  let newHook := createAudioHook env fresh event audioFile options in
  event ∈ VALID_EVENTS
  ∧ isccsoundManaged newHook = true
  ∧ managedGroups (groupsOnDisk fs' event) = [newHook]
  ∧ (report = Replaced <-> managedGroups (groupsOnDisk fs event) ≠ [])
  ∧ (report = Added <-> managedGroups (groupsOnDisk fs event) = []).
Proof.
  intros Hrun Hreport newHook.
  rewrite addSoundHook_run in Hrun. passed_guards Hrun.
  destruct (findExistingAudioHook env _ audioFile); [by simplify_eq|].
  injection Hrun as <- <-.
  split; [by apply includes_elem_of|].
  split; [apply createAudioHook_managed|].
  split.
  - rewrite groupsOnDisk_written, getEventHooks_setEventHooks.
    case_decide; [|done].
    rewrite managedGroups_app, managedGroups_unmanagedGroups.
    cbn [app]. rewrite managedGroups_cons.
    by rewrite (createAudioHook_managed env fresh event audioFile options).
  - destruct (managedGroups (groupsOnDisk fs event)); cbn; split; split; done.
Qed.

Lemma add_leaves_one_managed_group_witness :
  ∃ fs',
    addSoundHook linuxEnv fresh2 "Stop" "/sounds/c.wav" noOptions busyDisk = Done Replaced fs'
    ∧ length (managedGroups (groupsOnDisk busyDisk "Stop")) = 2
    ∧ managedGroups (groupsOnDisk fs' "Stop")
      = [createAudioHook linuxEnv fresh2 "Stop" "/sounds/c.wav" noOptions].
Proof.
  eexists. split; [vm_compute; reflexivity|]. split; [reflexivity|].
  eapply (add_leaves_one_managed_group linuxEnv fresh2 "Stop" "/sounds/c.wav" noOptions
            busyDisk Replaced).
  - vm_compute. reflexivity.
  - discriminate.
Defined.

(** C10. After such an add the groups of the event are the unmanaged groups
    it had, in their order, followed by the new group: the new group is
    last, wherever the managed groups it replaces were; it is managed and
    is the only managed group of the list, every group before it being
    unmanaged. *)
Theorem add_puts_new_group_last env fresh event audioFile options fs report fs' :
  addSoundHook env fresh event audioFile options fs = Done report fs' ->
  report ≠ AlreadyExists ->
  let newHook := createAudioHook env fresh event audioFile options in
  groupsOnDisk fs' event = (unmanagedGroups (groupsOnDisk fs event) ++ [newHook])%list
  ∧ isccsoundManaged newHook = true
  ∧ Forall (λ g, isccsoundManaged g = false) (unmanagedGroups (groupsOnDisk fs event))
  ∧ last (groupsOnDisk fs' event) = Some newHook
  ∧ managedGroups (groupsOnDisk fs' event) = [newHook].
Proof.
  intros Hrun Hreport newHook.
  rewrite addSoundHook_run in Hrun. passed_guards Hrun.
  destruct (findExistingAudioHook env _ audioFile); [by simplify_eq|].
  injection Hrun as <- <-.
  rewrite groupsOnDisk_written, getEventHooks_setEventHooks, decide_True by done.
  fold newHook. split_and!.
  - done.
  - apply createAudioHook_managed.
  - apply Forall_forall. by intros g [Hg _]%list_elem_of_filter.
  - apply last_snoc.
  - rewrite managedGroups_app, managedGroups_unmanagedGroups. cbn [app].
    rewrite managedGroups_cons. subst newHook. by rewrite createAudioHook_managed.
Qed.

Lemma add_puts_new_group_last_witness :
  ∃ fs',
    addSoundHook linuxEnv fresh2 "Stop" "/sounds/c.wav" noOptions busyDisk = Done Replaced fs'
    ∧ groupsOnDisk fs' "Stop"
      = [foreignGroup "notify-send done";
         createAudioHook linuxEnv fresh2 "Stop" "/sounds/c.wav" noOptions]
    ∧ isccsoundManaged (createAudioHook linuxEnv fresh2 "Stop" "/sounds/c.wav" noOptions)
      = true
    ∧ managedGroups (groupsOnDisk fs' "Stop")
      = [createAudioHook linuxEnv fresh2 "Stop" "/sounds/c.wav" noOptions].
Proof.
  eexists. split; [vm_compute; reflexivity|].
  edestruct (add_puts_new_group_last linuxEnv fresh2 "Stop" "/sounds/c.wav" noOptions
               busyDisk Replaced) as (Hgroups & Hmanaged & _ & _ & Hone).
  - vm_compute. reflexivity.
  - discriminate.
  - split; [exact Hgroups|]. split; [exact Hmanaged|exact Hone].
Defined.

(** C3. Whatever [addSoundHook], [removeHooks] and [clearAllHooks] do, and
    however they end, the unmanaged groups of an event in the settings file
    are afterwards the same groups with the same content in the same
    order.  This holds for the event the operation works on and for every
    other event. *)
Theorem unmanaged_groups_untouched env fresh event audioFile options confirm fs event' :
  unmanagedGroups
    (groupsOnDisk (finalFS (addSoundHook env fresh event audioFile options fs)) event')
  = unmanagedGroups (groupsOnDisk fs event')
  ∧ unmanagedGroups (groupsOnDisk (finalFS (removeHooks event fs)) event')
    = unmanagedGroups (groupsOnDisk fs event')
  ∧ unmanagedGroups (groupsOnDisk (finalFS (clearAllHooks confirm fs)) event')
    = unmanagedGroups (groupsOnDisk fs event').
Proof.
  repeat split.
  - rewrite addSoundHook_run. skip_exits.
    destruct (findExistingAudioHook env _ audioFile); cbn [finalFS].
    + by rewrite groupsOnDisk_loadedFS.
    + rewrite groupsOnDisk_written, getEventHooks_setEventHooks.
      case_decide as E; [subst event'|by rewrite groupsOnDisk_loaded].
      rewrite unmanagedGroups_app, unmanagedGroups_idemp.
      cbn [app]. rewrite unmanagedGroups_cons, createAudioHook_managed.
      apply app_nil_r.
  - rewrite removeHooks_run. skip_exits.
    destruct (_ =? 0)%nat; cbn [finalFS].
    + by rewrite groupsOnDisk_loadedFS.
    + rewrite groupsOnDisk_written, getEventHooks_setEventHooks.
      case_decide as E; [subst event'|by rewrite groupsOnDisk_loaded].
      apply unmanagedGroups_idemp.
  - rewrite clearAllHooks_run. skip_exits.
    pose proof (clearEvents_unmanaged VALID_EVENTS (loadedConfig fs) 0 event') as H.
    destruct (foldl clearEvent _ _) as [config totalRemoved].
    destruct (_ =? 0)%nat; cbn [finalFS].
    + by rewrite groupsOnDisk_loadedFS.
    + by rewrite groupsOnDisk_written, <- groupsOnDisk_loaded.
Qed.

(** C5. When the settings file is absent [readSettingsFile] returns the
    empty document and the file then holds it; when the file holds text
    that does not parse, [readSettingsFile] exits with status 1 after the
    parse error, and the settings file, the backup and the temporary file
    are as they were. *)
Theorem load_absent_or_malformed fs :
  defaultSettings = {| settingsHooks := Some ∅; settings_rest := [] |}
  ∧ (settingsFile fs = None ->
     ∃ fs', readSettingsFile fs = Done defaultSettings fs'
            ∧ settingsFile fs' = Some (Json defaultSettings))
  ∧ (∀ text, settingsFile fs = Some (Unparsable text) ->
     ∃ fs', readSettingsFile fs = Exit 1 SettingsParseError fs'
            ∧ settingsFile fs' = Some (Unparsable text)
            ∧ backupFile fs' = backupFile fs
            ∧ tempFile fs' = tempFile fs).
Proof.
  split; [done|]. split.
  - intros E. eexists. rewrite readSettingsFile_run, E. done.
  - intros text E. eexists. rewrite readSettingsFile_run, E. done.
Qed.

Lemma load_absent_or_malformed_witness :
  (∃ fs', readSettingsFile noSettings = Done defaultSettings fs'
          ∧ settingsFile fs' = Some (Json defaultSettings))
  ∧ (∃ fs', readSettingsFile brokenDisk = Exit 1 SettingsParseError fs'
            ∧ settingsFile fs' = settingsFile brokenDisk).
Proof.
  split.
  - apply (load_absent_or_malformed noSettings). reflexivity.
  - destruct (proj2 (proj2 (load_absent_or_malformed brokenDisk)) "{ hooks: " eq_refl)
      as (fs' & Hrun & Hfile & _).
    exists fs'. split; [exact Hrun | exact Hfile].
Defined.

(** C6. On a recognized event and a settings file that parses (or is
    absent), [removeHooks] ends normally; the settings file then holds, for
    the event, exactly the unmanaged groups it held, and for every other
    event what it held; the count reported is the number of managed groups
    the event had, with the "none found" message standing for zero.  So
    with two managed groups and one unmanaged group [u] under the event,
    two are reported and [u] alone remains. *)
Theorem remove_drops_managed_groups event fs :
  event ∈ VALID_EVENTS ->
  parsable fs = true ->
  ∃ report fs',
    removeHooks event fs = Done report fs'
    ∧ groupsOnDisk fs' event = unmanagedGroups (groupsOnDisk fs event)
    ∧ managedGroups (groupsOnDisk fs' event) = []
    ∧ (∀ event', event' ≠ event -> groupsOnDisk fs' event' = groupsOnDisk fs event')
    ∧ (∃ config', settingsFile fs' = Some (Json config'))
    ∧ removedOf report = length (managedGroups (groupsOnDisk fs event))
    ∧ (report = NoManagedHooks <-> managedGroups (groupsOnDisk fs event) = [])
    ∧ (∀ u, length (managedGroups (groupsOnDisk fs event)) = 2 ->
            unmanagedGroups (groupsOnDisk fs event) = [u] ->
            report = Removed 2 ∧ groupsOnDisk fs' event = [u]).
Proof.
  intros Hevent Hparse.
  apply includes_elem_of in Hevent.
  rewrite removeHooks_run, Hevent, Hparse. cbn [negb]. cbn zeta.
  destruct (managedGroups (groupsOnDisk fs event)) as [|m ms] eqn:Hm; cbn [length Nat.eqb].
  - (* nothing to remove: the file is left as loaded *)
    assert (unmanagedGroups (groupsOnDisk fs event) = groupsOnDisk fs event) as Hall.
    { pose proof (length_managed_unmanaged (groupsOnDisk fs event)) as L.
      rewrite Hm in L. cbn in L. unfold unmanagedGroups in *.
      clear -L. induction (groupsOnDisk fs event) as [|g l IH]; [done|].
      rewrite filter_cons in *. case_decide; cbn in L.
      - f_equal. apply IH. lia.
      - pose proof (length_filter (λ g, isccsoundManaged g = false) l). lia. }
    eexists _, _. split; [done|].
    rewrite groupsOnDisk_loadedFS, Hall, Hm.
    repeat split; try done.
    + intros. by rewrite groupsOnDisk_loadedFS.
    + unfold loadedFS, parsable in *.
      destruct (settingsFile fs) as [[text|config]|] eqn:E; [done| |]; cbn; eauto.
  - eexists _, _. split; [done|].
    rewrite groupsOnDisk_written, getEventHooks_setEventHooks.
    case_decide; [|done].
    repeat split; try done.
    + apply managedGroups_unmanagedGroups.
    + intros event' Hne. rewrite groupsOnDisk_written, getEventHooks_setEventHooks.
      case_decide; [congruence|]. apply groupsOnDisk_loaded.
    + cbn. eauto.
    + by f_equal.
Qed.

Lemma remove_drops_managed_groups_witness :
  ∃ fs',
    removeHooks "Stop" busyDisk = Done (Removed 2) fs'
    ∧ groupsOnDisk fs' "Stop" = [foreignGroup "notify-send done"].
Proof.
  destruct (remove_drops_managed_groups "Stop" busyDisk) as (report & fs' & Hrun & H).
  - by apply includes_elem_of.
  - reflexivity.
  - destruct H as (_ & _ & _ & _ & _ & _ & Hscenario).
    destruct (Hscenario (foreignGroup "notify-send done")) as [-> Hgroups];
      [reflexivity | reflexivity |].
    exists fs'. split; [exact Hrun | exact Hgroups].
Defined.

(** C7. When the resolved file of the audio path cannot be reached,
    [addSoundHook] exits with status 1 and no file of the settings store has
    been read, created or written: the file system is the one it started
    from.  For a recognized event the error printed is the file-not-found
    error (an unrecognized event name is refused one step earlier). *)
Theorem add_missing_file_fails env fresh event audioFile options fs :
  access env (resolve env (expandHome (HOME env) audioFile)) = false ->
  exists_ (validateAudioFile env audioFile) = false
  ∧ (∃ why, addSoundHook env fresh event audioFile options fs = Exit 1 why fs)
  ∧ (event ∈ VALID_EVENTS ->
     addSoundHook env fresh event audioFile options fs
     = Exit 1 (AudioFileNotFound audioFile) fs).
Proof.
  intros Hfile. split; [|split].
  - unfold validateAudioFile. by rewrite Hfile.
  - rewrite addSoundHook_run, Hfile. destruct (includes VALID_EVENTS event); cbn; eauto.
  - intros Hevent%includes_elem_of. by rewrite addSoundHook_run, Hevent, Hfile.
Qed.

Lemma add_missing_file_fails_witness :
  addSoundHook emptyVolumeEnv fresh1 "Notification" "~/missing.wav" noOptions busyDisk
  = Exit 1 (AudioFileNotFound "~/missing.wav") busyDisk.
Proof.
  apply (add_missing_file_fails emptyVolumeEnv fresh1 "Notification" "~/missing.wav"
           noOptions busyDisk).
  - reflexivity.
  - by apply includes_elem_of.
Defined.

(** C9, as the code has it.  The operations that take one event name,
    [addSoundHook], [removeHooks] and [testSpecificEvent], answer a name
    outside the five recognized ones with the invalid-event error and exit
    status 1, the file system untouched.  [testAllEvents] never answers
    with that error, whatever names its option [events] holds. *)
Theorem invalid_event_rejected env fresh event audioFile options testOptions fs :
  event ∉ VALID_EVENTS ->
  addSoundHook env fresh event audioFile options fs = Exit 1 (InvalidEvent event) fs
  ∧ removeHooks event fs = Exit 1 (InvalidEvent event) fs
  ∧ testSpecificEvent env event testOptions fs = Exit 1 (InvalidEvent event) fs
  ∧ (∀ status event' fs',
       testAllEvents env testOptions fs ≠ Exit status (InvalidEvent event') fs').
Proof.
  intros Hevent. apply includes_not_elem_of in Hevent.
  split; [by rewrite addSoundHook_run, Hevent|].
  split; [by rewrite removeHooks_run, Hevent|].
  split; [unfold testSpecificEvent; by rewrite Hevent|].
  intros status event' fs'. unfold testAllEvents.
  rewrite bind_run, readSettingsFile_run.
  destruct (settingsFile fs) as [[text|config]|]; [done| |].
  - destruct (foldl _ _ _) as [[c t] n]. by destruct (n =? 0)%nat.
  - destruct (foldl _ _ _) as [[c t] n]. by destruct (n =? 0)%nat.
Qed.

Lemma invalid_event_rejected_witness :
  addSoundHook linuxEnv fresh1 "Bogus" "/sounds/a.wav" noOptions busyDisk
  = Exit 1 (InvalidEvent "Bogus") busyDisk
  ∧ removeHooks "Bogus" busyDisk = Exit 1 (InvalidEvent "Bogus") busyDisk
  ∧ testSpecificEvent linuxEnv "Bogus" quietOptions busyDisk
    = Exit 1 (InvalidEvent "Bogus") busyDisk.
Proof.
  destruct (invalid_event_rejected linuxEnv fresh1 "Bogus" "/sounds/a.wav" noOptions
              quietOptions busyDisk) as (Hadd & Hremove & Htest & _).
  - by apply includes_not_elem_of.
  - exact (conj Hadd (conj Hremove Htest)).
Defined.

(** C9 as stated fails on [testAllEvents]: given the list of events
    [["Bogus"]] it reports that there is nothing to test and returns. *)
Lemma testAllEvents_takes_unknown_event :
  ("Bogus" ∉ VALID_EVENTS)
  ∧ testAllEvents linuxEnv bogusEvents busyDisk = Done (NothingToTest []) busyDisk
  ∧ (¬ ∃ status fs',
         testAllEvents linuxEnv bogusEvents busyDisk
         = Exit status (InvalidEvent "Bogus") fs').
Proof.
  split; [by apply includes_not_elem_of|].
  assert (testAllEvents linuxEnv bogusEvents busyDisk = Done (NothingToTest []) busyDisk)
    as Hrun by (vm_compute; reflexivity).
  split; [exact Hrun|].
  intros (status & fs' & Hexit). rewrite Hrun in Hexit. discriminate.
Qed.


(** ** The pattern of [findExistingAudioHook] *)

Lemma elem_of_plus p s a r :
  (a, r) ∈ Js.plus p s <-> a ≠ "" ∧ Js.all p a = true ∧ s = a +:+ r.
Proof.
  revert a. induction s as [|c s IH]; intros a; cbn.
  - split; [by intros ?%elem_of_nil|].
    intros (Ha & _ & E). destruct a; [done|discriminate].
  - destruct (p c) eqn:Hc.
    + rewrite elem_of_app, list_elem_of_fmap, list_elem_of_singleton. split.
      * intros [([a' r'] & E & Hin) | E]; simplify_eq/=.
        -- apply IH in Hin as (Ha & Hall & ->). by rewrite Hc, Hall.
        -- by rewrite Hc.
      * intros (Ha & Hall & E). destruct a as [|c' a]; [done|].
        cbn in Hall, E. simplify_eq. apply andb_true_iff in Hall as [_ Hall].
        destruct a as [|c'' a].
        -- by right.
        -- left. exists (String c'' a, r). split; [done|]. by apply IH.
    + split; [by intros ?%elem_of_nil|].
      intros (Ha & Hall & E). destruct a as [|c' a]; [done|].
      cbn in Hall, E. simplify_eq. by rewrite Hc in Hall.
Qed.

Lemma elem_of_opt c s r : r ∈ Js.opt c s <-> s = String c r ∨ r = s.
Proof.
  destruct s as [|c' s]; cbn.
  - rewrite list_elem_of_singleton. split; [by right|]. by intros [?|?].
  - destruct (Ascii.eqb_spec c' c) as [->|Hne].
    + rewrite elem_of_cons, list_elem_of_singleton. split.
      * intros [->| ->]; [by left|by right].
      * intros [E| ->]; [left; congruence|by right].
    + rewrite list_elem_of_singleton. split; [by right|].
      intros [E| ->]; [congruence|done].
Qed.

Lemma elem_of_atEnd {A} s (a b : A) : b ∈ Js.atEnd s a <-> s = "" ∧ b = a.
Proof.
  destruct s; cbn.
  - rewrite list_elem_of_singleton. split; [done|]. by intros [_ ->].
  - split; [by intros ?%elem_of_nil|]. by intros [? _].
Qed.

(** The outcomes of the matcher are the readings of the command in the
    shape above. *)
Lemma elem_of_playerCommand cmd p :
  p ∈ (wr1 ← Js.plus Js.nonSpace cmd;
       sr2 ← Js.plus Js.isSpace wr1.2;
       r3 ← Js.opt Js.dquote sr2.2;
       pr4 ← Js.plus Js.nonQuote r3;
       r5 ← Js.opt Js.dquote pr4.2;
       Js.atEnd r5 pr4.1)
  <-> playerCommandShape cmd p.
Proof.
  split.
  - intros ([w r1] & Hin & (Hw & Hwall & ->)%elem_of_plus)%list_elem_of_bind.
    apply list_elem_of_bind in Hin as ([ws r2] & Hin & (Hs & Hsall & E1)%elem_of_plus).
    apply list_elem_of_bind in Hin as (r3 & Hin & Hq1%elem_of_opt).
    apply list_elem_of_bind in Hin as ([p' r4] & Hin & (Hp & Hpall & E3)%elem_of_plus).
    apply list_elem_of_bind in Hin as (r5 & Hin & Hq2%elem_of_opt).
    apply elem_of_atEnd in Hin as [-> ->]. cbn in *. subst r1 r3.
    destruct Hq1 as [-> | <-], Hq2 as [-> | <-].
    + apply (PlayerCommand w ws (String Js.dquote "") p' (String Js.dquote "")); auto.
    + apply (PlayerCommand w ws (String Js.dquote "") p' ""); auto.
    + apply (PlayerCommand w ws "" p' (String Js.dquote "")); auto.
    + apply (PlayerCommand w ws "" p' ""); auto.
  - intros [w ws q1 p' q2 Hw Hwall Hs Hsall Hp Hpall Hq1 Hq2].
    apply list_elem_of_bind. exists (w, ws +:+ q1 +:+ p' +:+ q2).
    split; [|by apply elem_of_plus].
    apply list_elem_of_bind. exists (ws, q1 +:+ p' +:+ q2).
    split; [|by apply elem_of_plus].
    apply list_elem_of_bind. exists (p' +:+ q2).
    split; [|apply elem_of_opt; destruct Hq1 as [-> | ->]; auto].
    apply list_elem_of_bind. exists (p', q2).
    split; [|by apply elem_of_plus].
    apply list_elem_of_bind. exists "".
    split; [by apply elem_of_atEnd|].
    apply elem_of_opt. destruct Hq2 as [-> | ->]; auto.
Qed.

Lemma matchPlayerCommand_sound cmd p :
  matchPlayerCommand cmd = Some p -> playerCommandShape cmd p.
Proof.
  unfold matchPlayerCommand. intros H. apply elem_of_playerCommand.
  by apply head_Some_elem_of.
Qed.

Lemma matchPlayerCommand_complete cmd p :
  playerCommandShape cmd p -> is_Some (matchPlayerCommand cmd).
Proof.
  intros H%elem_of_playerCommand. unfold matchPlayerCommand.
  apply head_is_Some. intros E. rewrite E in H. by apply elem_of_nil in H.
Qed.

(** The first split [p+] tries is the longest run. *)
Lemma plus_longest p a r :
  a ≠ "" -> Js.all p a = true -> Js.plus p r = [] ->
  ∃ others, Js.plus p (a +:+ r) = (a, r) :: others.
Proof.
  intros Ha Hall Hr. induction a as [|c a IH]; [done|].
  cbn in Hall. apply andb_true_iff in Hall as [Hc Hall].
  cbn. rewrite Hc. destruct a as [|c' a].
  - cbn. rewrite Hr. by eexists.
  - destruct IH as [others ->]; [done..|]. cbn. by eexists.
Qed.

Lemma head_bind_first {A B} (f : A -> list B) x l b :
  head (f x) = Some b -> head ((x :: l) ≫= f) = Some b.
Proof. csimpl. by destruct (f x). Qed.

(** A command [w "p"], with [w] a word and [p] free of double quotes, is
    read back as [p]. *)
Lemma matchPlayerCommand_quoted w p :
  w ≠ "" -> Js.all Js.nonSpace w = true ->
  p ≠ "" -> Js.all Js.nonQuote p = true ->
  matchPlayerCommand (w +:+ " " +:+ Js.quoted p) = Some p.
Proof.
  intros Hw Hwall Hp Hpall. unfold matchPlayerCommand.
  destruct (plus_longest Js.nonSpace w (" " +:+ Js.quoted p)) as [ws ->]; [done..|].
  apply head_bind_first. cbn [snd].
  change (Js.plus Js.isSpace (" " +:+ Js.quoted p)) with [(" ", Js.quoted p)].
  apply head_bind_first. cbn [snd].
  change (Js.opt Js.dquote (Js.quoted p))
    with [p +:+ String Js.dquote ""; Js.quoted p].
  apply head_bind_first.
  destruct (plus_longest Js.nonQuote p (String Js.dquote "")) as [ps ->]; [done..|].
  by apply head_bind_first.
Qed.

(** The Windows player command holds two double quotes of its own: no
    command built on it is read back. *)
Lemma matchPlayerCommand_win32 env p :
  platform env = win32 ->
  matchPlayerCommand (getAudioPlayer env +:+ " " +:+ Js.quoted p) = None.
Proof. unfold getAudioPlayer. by intros ->. Qed.

(** ** The lookup by resolved path *)

Lemma truthy_nonempty s : Js.truthy s = true <-> s ≠ "".
Proof. by destruct s. Qed.

Lemma hooksNameFile_spec env audioFile hs :
  hooksNameFile env (resolve env (expandHome (HOME env) audioFile)) hs = true
  <-> ∃ hook, hook ∈ hs ∧ namesFile env audioFile hook.
Proof.
  induction hs as [|hook hs IH]; cbn.
  - split; [done|]. by intros (hook & ?%elem_of_nil & _).
  - assert ((∃ h, h ∈ hook :: hs ∧ namesFile env audioFile h)
            <-> namesFile env audioFile hook ∨ ∃ h, h ∈ hs ∧ namesFile env audioFile h)
      as ->.
    { split.
      - intros (h & [-> | Hin]%elem_of_cons & Hn); [by left | right; eauto].
      - intros [Hn | (h & Hin & Hn)]; [exists hook | exists h];
          (split; [|done]); [by left | by right]. }
    rewrite <- IH. clear IH. unfold namesFile.
    destruct (String.eqb_spec (hook_type hook) "command") as [Ht|Ht]; cbn [andb].
    2: { split; [by right|]. by intros [(? & _)|?]. }
    destruct (Js.truthy (command hook)) eqn:Hc.
    2: { split; [by right|]. intros [(_ & Hne & _)|?]; [|done].
         apply truthy_nonempty in Hne. congruence. }
    apply truthy_nonempty in Hc.
    destruct (matchPlayerCommand (command hook)) as [p|].
    2: { split; [by right|]. by intros [(_ & _ & p & ? & _)|?]. }
    destruct (String.eqb_spec (resolve env (expandHome (HOME env) p))
                (resolve env (expandHome (HOME env) audioFile))) as [E|E].
    + split; [|done]. intros _. left. eauto.
    + split; [by right|]. intros [(_ & _ & p' & ? & E')|?]; [|done]. by simplify_eq.
Qed.

Lemma findExistingAudioHook_first env groups audioFile :
  match findExistingAudioHook env groups audioFile with
  | Some g =>
      ∃ before after,
        groups = before ++ g :: after
        ∧ candidate env audioFile g
        ∧ ∀ g', g' ∈ before -> ¬ candidate env audioFile g'
  | None => ∀ g, g ∈ groups -> ¬ candidate env audioFile g
  end.
Proof.
  unfold findExistingAudioHook.
  induction groups as [|g groups IH]; cbn.
  - by intros g ?%elem_of_nil.
  - assert (isccsoundManaged g && hooksNameFile env
              (resolve env (expandHome (HOME env) audioFile)) (hooks g) = true
            <-> candidate env audioFile g) as Hg.
    { unfold candidate. rewrite andb_true_iff. by rewrite hooksNameFile_spec. }
    destruct (isccsoundManaged g); cbn [negb andb] in *.
    + destruct (hooksNameFile env _ (hooks g)).
      * exists [], groups. split; [done|]. split; [by apply Hg|].
        by intros g' ?%elem_of_nil.
      * assert (¬ candidate env audioFile g) as Hng by (rewrite <- Hg; done).
        destruct (findExistingAudioHookFrom env _ groups) as [found|].
        -- destruct IH as (before & after & -> & Hc & Hb).
           exists (g :: before), after. split; [done|]. split; [done|].
           intros g' [-> | Hin]%elem_of_cons; [done|]. by apply Hb.
        -- intros g' [-> | Hin]%elem_of_cons; [done|]. by apply IH.
    + assert (¬ candidate env audioFile g) as Hng by (rewrite <- Hg; done).
      destruct (findExistingAudioHookFrom env _ groups) as [found|].
      * destruct IH as (before & after & -> & Hc & Hb).
        exists (g :: before), after. split; [done|]. split; [done|].
        intros g' [-> | Hin]%elem_of_cons; [done|]. by apply Hb.
      * intros g' [-> | Hin]%elem_of_cons; [done|]. by apply IH.
Qed.

Lemma findExistingAudioHook_managed_only env groups audioFile :
  findExistingAudioHook env groups audioFile
  = findExistingAudioHook env (managedGroups groups) audioFile.
Proof.
  unfold findExistingAudioHook.
  induction groups as [|g groups IH]; [done|].
  rewrite managedGroups_cons. cbn.
  destruct (isccsoundManaged g) eqn:E; cbn [negb]; [|done].
  cbn. rewrite E. cbn [negb]. by rewrite IH.
Qed.

(** C4, as the code has it.  [findExistingAudioHook] reads a path in a
    command entry by matching the whole command text against the shape
    word, blanks, optional double quote, path without double quote,
    optional double quote; the entries it reads are those of type command
    with a non-empty text of that shape.  Both the path read and the query
    have a leading tilde expanded and are resolved; the answer is the first
    managed group with an entry whose resolved path is the query's, and
    [null] when there is none.  Unmanaged groups play no part. *)
Theorem findExistingAudioHook_spec env groups audioFile :
  match findExistingAudioHook env groups audioFile with
  | Some g =>
      ∃ before after,
        groups = before ++ g :: after
        ∧ candidate env audioFile g
        ∧ ∀ g', g' ∈ before -> ¬ candidate env audioFile g'
  | None => ∀ g, g ∈ groups -> ¬ candidate env audioFile g
  end
  ∧ findExistingAudioHook env groups audioFile
    = findExistingAudioHook env (managedGroups groups) audioFile
  ∧ (∀ cmd p, matchPlayerCommand cmd = Some p -> playerCommandShape cmd p)
  ∧ (∀ cmd p, playerCommandShape cmd p -> is_Some (matchPlayerCommand cmd)).
Proof.
  split; [apply findExistingAudioHook_first|].
  split; [apply findExistingAudioHook_managed_only|].
  split; [apply matchPlayerCommand_sound | apply matchPlayerCommand_complete].
Qed.


Lemma findExistingAudioHook_spec_witness :
  findExistingAudioHook linuxEnv twoManagedOneForeign "~/../../sounds/b.wav"
  = Some (managedGroup (play "/sounds/b.wav"))
  ∧ candidate linuxEnv "~/../../sounds/b.wav" (managedGroup (play "/sounds/b.wav")).
Proof.
  pose proof (findExistingAudioHook_spec linuxEnv twoManagedOneForeign
                "~/../../sounds/b.wav") as [Hfirst _].
  assert (findExistingAudioHook linuxEnv twoManagedOneForeign "~/../../sounds/b.wav"
          = Some (managedGroup (play "/sounds/b.wav"))) as Hrun
    by (vm_compute; reflexivity).
  rewrite Hrun in Hfirst. destruct Hfirst as (before & after & _ & Hc & _).
  exact (conj Hrun Hc).
Defined.

(** C4 as stated fails: the lookup does not use the extraction of list,
    test and doctor.  On a managed command with a flag before the quoted
    path the documented extraction reads the path and the lookup worded
    after it finds the group, while [findExistingAudioHook] answers [null];
    on an unquoted path with a space it is the other way round. *)
Lemma findExistingAudioHook_not_the_contract :
  extractAudioFile flaggedCommand = Some "/sounds/done.wav"
  ∧ matchPlayerCommand flaggedCommand = None
  ∧ SpecWording.findByPath linuxEnv [managedGroup flaggedCommand] "/sounds/done.wav"
    = Some (managedGroup flaggedCommand)
  ∧ findExistingAudioHook linuxEnv [managedGroup flaggedCommand] "/sounds/done.wav" = None
  ∧ extractAudioFile bareCommand = Some "/sounds/my"
  ∧ matchPlayerCommand bareCommand = Some "/sounds/my done.wav"
  ∧ SpecWording.findByPath linuxEnv [managedGroup bareCommand] "/sounds/my done.wav" = None
  ∧ findExistingAudioHook linuxEnv [managedGroup bareCommand] "/sounds/my done.wav"
    = Some (managedGroup bareCommand).
Proof. repeat split; vm_compute; reflexivity. Qed.

(** ** Adding the same file again *)

Lemma findExistingAudioHookFrom_skip env expandedPath l rest :
  findExistingAudioHookFrom env expandedPath (unmanagedGroups l ++ rest)
  = findExistingAudioHookFrom env expandedPath rest.
Proof.
  induction l as [|g l IH]; [done|].
  rewrite unmanagedGroups_cons. destruct (isccsoundManaged g) eqn:E; [done|].
  cbn. by rewrite E.
Qed.

Lemma createAudioHook_hooks env fresh event audioFile options :
  hooks (createAudioHook env fresh event audioFile options)
  = [ {| hook_type := "command";
         command := getAudioPlayer env +:+ " " +:+ Js.quoted (expandHome (HOME env) audioFile);
         _ccsound := Some (createWatermark env fresh);
         hook_rest := [] |} ].
Proof.
  unfold createAudioHook. destruct (matcher options) as [m|]; [|done].
  by destruct (Js.truthy m && _).
Qed.

Lemma append_nonempty (a b : string) : a ≠ "" -> a +:+ b ≠ "".
Proof. by destruct a. Qed.

(** On Windows the group written is never found again. *)
Lemma new_group_is_lost_on_windows env fresh event audioFile options l audioFile' :
  platform env = win32 ->
  findExistingAudioHook env
    (unmanagedGroups l ++ [createAudioHook env fresh event audioFile options]) audioFile'
  = None.
Proof.
  intros Hplatform.
  unfold findExistingAudioHook. rewrite findExistingAudioHookFrom_skip.
  cbn [findExistingAudioHookFrom].
  rewrite createAudioHook_managed. cbn [negb].
  rewrite createAudioHook_hooks. cbn [hooksNameFile hook_type command].
  rewrite matchPlayerCommand_win32 by done.
  by destruct (_ && _).
Qed.

Lemma loadedFS_idemp fs : loadedFS (loadedFS fs) = loadedFS fs.
Proof. unfold loadedFS. by destruct (settingsFile fs) eqn:E; cbn; rewrite ?E. Qed.

Lemma parsable_loadedFS fs : parsable fs = true -> parsable (loadedFS fs) = true.
Proof.
  unfold parsable, loadedFS.
  by destruct (settingsFile fs) as [[text|config]|] eqn:E; cbn; rewrite ?E.
Qed.

(** When [addSoundHook] goes through: the event is recognized, the file can
    be reached, the settings parse and no managed group names the file. *)
Lemma add_goes_through env fresh event audioFile options fs :
  (∃ report fs',
      addSoundHook env fresh event audioFile options fs = Done report fs'
      ∧ report ≠ AlreadyExists)
  <-> event ∈ VALID_EVENTS
      ∧ access env (resolve env (expandHome (HOME env) audioFile)) = true
      ∧ parsable fs = true
      ∧ findExistingAudioHook env (groupsOnDisk fs event) audioFile = None.
Proof.
  rewrite addSoundHook_run, <- includes_elem_of. split.
  - intros (report & fs' & Hrun & Hreport). passed_guards Hrun.
    destruct (findExistingAudioHook env _ audioFile); [by simplify_eq|done].
  - intros (-> & -> & -> & Hnone). cbn [negb]. cbn zeta. rewrite Hnone.
    eexists _, _. split; [done|]. by destruct (0 <? _)%nat.
Qed.

Section ReadableCommands.

(** The platforms on which the player command is one word. *)
Variable env : Env.
Hypothesis one_word_player : platform env ≠ win32.

Lemma player_is_a_word :
  getAudioPlayer env ≠ "" ∧ Js.all Js.nonSpace (getAudioPlayer env) = true.
Proof. unfold getAudioPlayer. by destruct (platform env). Qed.

(** The group [createAudioHook] writes for a path that is not empty and
    holds no double quote is found again under every spelling that
    resolves to the same file. *)
Lemma new_group_is_found fresh event audioFile options l audioFile' :
  let expandedPath := expandHome (HOME env) audioFile in
  expandedPath ≠ "" ->
  Js.all Js.nonQuote expandedPath = true ->
  resolve env (expandHome (HOME env) expandedPath)
  = resolve env (expandHome (HOME env) audioFile') ->
  findExistingAudioHook env
    (unmanagedGroups l ++ [createAudioHook env fresh event audioFile options]) audioFile'
  = Some (createAudioHook env fresh event audioFile options).
Proof.
  intros expandedPath Hne Hquote Hsame.
  unfold findExistingAudioHook. rewrite findExistingAudioHookFrom_skip.
  cbn [findExistingAudioHookFrom].
  rewrite createAudioHook_managed. cbn [negb].
  rewrite createAudioHook_hooks. cbn [hooksNameFile hook_type command].
  destruct player_is_a_word as [Hw Hwall].
  rewrite (proj2 (truthy_nonempty _) (append_nonempty _ _ Hw)).
  rewrite matchPlayerCommand_quoted by done.
  fold expandedPath. rewrite Hsame, !String.eqb_refl. done.
Qed.

(** Where the written command can be read back (the expanded path not
    empty, without double quote and not starting with a tilde again), an
    add that returned makes the next add of a path resolving to the same
    file a no-op that leaves every file as it is. *)
Lemma second_add_is_noop fresh fresh' event audioFile audioFile' options options'
    fs report fs1 :
  let expandedPath := expandHome (HOME env) audioFile in
  expandedPath ≠ "" ->
  Js.all Js.nonQuote expandedPath = true ->
  expandHome (HOME env) expandedPath = expandedPath ->
  resolve env expandedPath = resolve env (expandHome (HOME env) audioFile') ->
  addSoundHook env fresh event audioFile options fs = Done report fs1 ->
  addSoundHook env fresh' event audioFile' options' fs1 = Done AlreadyExists fs1.
Proof.
  intros expandedPath Hne Hquote Hstable Hsame Hfirst.
  rewrite addSoundHook_run in Hfirst. rewrite addSoundHook_run.
  destruct (includes VALID_EVENTS event); cbn [negb] in *; [|done].
  fold expandedPath in Hfirst. rewrite <- Hsame.
  destruct (access env (resolve env expandedPath)); cbn [negb] in *; [|done].
  destruct (parsable fs) eqn:Hparse; cbn [negb] in *; [|done].
  cbn zeta in *.
  destruct (findExistingAudioHook env (groupsOnDisk fs event) audioFile)
    as [found|] eqn:Hfound.
  - injection Hfirst as <- <-.
    rewrite parsable_loadedFS by done. cbn [negb].
    rewrite groupsOnDisk_loadedFS, loadedFS_idemp.
    unfold findExistingAudioHook in *. fold expandedPath in Hfound.
    by rewrite <- Hsame, Hfound.
  - injection Hfirst as <- <-. cbn [parsable written settingsFile negb].
    rewrite groupsOnDisk_written, getEventHooks_setEventHooks.
    case_decide; [|done].
    rewrite (new_group_is_found fresh event audioFile options _ audioFile')
      by (try done; fold expandedPath; by rewrite Hstable).
    done.
Qed.

End ReadableCommands.

Lemma second_add_is_noop_example :
  ∃ fs1,
    addSoundHook linuxEnv fresh1 "Stop" "~/a.wav" noOptions busyDisk = Done Replaced fs1
    ∧ addSoundHook linuxEnv fresh2 "Stop" "/home/u/a.wav" noOptions fs1
      = Done AlreadyExists fs1.
Proof.
  eexists. split; [vm_compute; reflexivity|].
  eapply (second_add_is_noop linuxEnv ltac:(done) fresh1 fresh2 "Stop" "~/a.wav"
            "/home/u/a.wav" noOptions noOptions busyDisk Replaced); done.
Qed.

(** C2, at a failing input.  On Linux, with a file whose name holds a
    double quote, the first add writes a command the lookup cannot read
    back, so the second add of the same path replaces the group (a new
    watermark is written) instead of reporting that the hook exists. *)
Theorem add_twice_quote_in_name :
  ∃ fs1 fs2,
    addSoundHook linuxEnv fresh1 "Stop" quoteInName noOptions noSettings = Done Added fs1
    ∧ addSoundHook linuxEnv fresh2 "Stop" quoteInName noOptions fs1 = Done Replaced fs2
    ∧ groupsOnDisk fs1 "Stop" = [createAudioHook linuxEnv fresh1 "Stop" quoteInName noOptions]
    ∧ groupsOnDisk fs2 "Stop" = [createAudioHook linuxEnv fresh2 "Stop" quoteInName noOptions]
    ∧ fs2 ≠ fs1.
Proof.
  eexists _, _.
  split; [vm_compute; reflexivity|].
  split; [vm_compute; reflexivity|].
  split; [vm_compute; reflexivity|].
  split; [vm_compute; reflexivity|].
  intros E. apply (f_equal (λ fs, groupsOnDisk fs "Stop")) in E.
  vm_compute in E. discriminate E.
Qed.

(** C8, at a failing input.  On Windows the player command holds double
    quotes of its own, so after [add("Stop", "~/a.wav")] the add of the
    absolute spelling of the same file is a replacement, not a no-op. *)
Theorem add_tilde_then_absolute_on_windows :
  ∃ fs1 fs2,
    resolve windowsEnv (expandHome (HOME windowsEnv) "~/a.wav")
    = resolve windowsEnv (expandHome (HOME windowsEnv) "C:\Users\u/a.wav")
    ∧ addSoundHook windowsEnv fresh1 "Stop" "~/a.wav" noOptions noSettings = Done Added fs1
    ∧ addSoundHook windowsEnv fresh2 "Stop" "C:\Users\u/a.wav" noOptions fs1
      = Done Replaced fs2
    ∧ fs2 ≠ fs1.
Proof.
  eexists _, _.
  split; [vm_compute; reflexivity|].
  split; [vm_compute; reflexivity|].
  split; [vm_compute; reflexivity|].
  intros E. apply (f_equal (λ fs, groupsOnDisk fs "Stop")) in E.
  vm_compute in E. discriminate E.
Qed.


(** * The rest of the library and the command line: properties *)

Import MoreSamples.

Lemma unmanagedGroups_all l : managedGroups l = [] -> unmanagedGroups l = l.
Proof.
  induction l as [|g l IH]; [done|].
  rewrite managedGroups_cons, unmanagedGroups_cons.
  destruct (isccsoundManaged g); [done|]. intros H. by rewrite IH.
Qed.

Lemma loadedFS_written config : loadedFS (written config) = written config.
Proof. reflexivity. Qed.

(** ** The settings store *)

(** X1. Whatever the three files held (settings that do not parse, a stale
    backup, a stale temporary file), after [writeSettingsFile] the settings
    file holds the document and neither backup nor temporary file is left;
    [readSettingsFile] then returns that document and changes nothing.  The
    other way round, reading a settings file that parses and writing back
    what was read leaves the settings file with the same document. *)
Theorem settings_round_trip config fs :
  (∃ fs', writeSettingsFile config fs = Done tt fs'
          ∧ settingsFile fs' = Some (Json config)
          ∧ backupFile fs' = None ∧ tempFile fs' = None
          ∧ readSettingsFile fs' = Done config fs')
  ∧ (settingsFile fs = Some (Json config) ->
     ∃ fs1 fs2, readSettingsFile fs = Done config fs1
                ∧ writeSettingsFile config fs1 = Done tt fs2
                ∧ settingsFile fs2 = settingsFile fs).
Proof.
  split.
  - exists (written config). rewrite writeSettingsFile_run. split; [done|].
    by rewrite readSettingsFile_run.
  - intros E. exists (ensureDir fs), (written config).
    rewrite readSettingsFile_run, E, writeSettingsFile_run. done.
Qed.

Lemma settings_round_trip_witness :
  ∃ fs', writeSettingsFile (document "Stop" twoManagedOneForeign) litteredDisk = Done tt fs'
         ∧ backupFile fs' = None
         ∧ readSettingsFile fs' = Done (document "Stop" twoManagedOneForeign) fs'.
Proof.
  destruct (settings_round_trip (document "Stop" twoManagedOneForeign) litteredDisk)
    as [(fs' & Hw & _ & Hb & _ & Hr) _].
  exists fs'. exact (conj Hw (conj Hb Hr)).
Defined.

(** X2. For the recognized events: reading the groups of an event after
    [setEventHooks] gives the groups set for that event and the former
    groups for any other event; the other top-level keys are kept; an event
    without a key, and a document without [hooks], read as the empty
    list. *)
Theorem event_hooks_set_then_get config event groups event' :
  event ∈ VALID_EVENTS ->
  event' ∈ VALID_EVENTS ->
  (getEventHooks (setEventHooks config event groups) event').2
  = (if decide (event = event') then groups else (getEventHooks config event').2)
  ∧ settings_rest (setEventHooks config event groups) = settings_rest config
  ∧ (default ∅ (settingsHooks config) !! event' = None ->
     (getEventHooks config event').2 = [])
  ∧ (getEventHooks {| settingsHooks := None; settings_rest := settings_rest config |}
       event').2 = [].
Proof.
  intros _ _.
  split; [apply getEventHooks_setEventHooks|].
  split; [by destruct config as [[m|] r]|].
  split; [|done].
  intros E. destruct config as [[m|] r]; cbn in *; by rewrite E.
Qed.

Lemma event_hooks_set_then_get_witness :
  (getEventHooks (setEventHooks (document "Stop" twoManagedOneForeign) "Notification"
                    [foreignGroup "notify-send done"]) "Stop").2
  = twoManagedOneForeign
  ∧ (getEventHooks (setEventHooks (document "Stop" twoManagedOneForeign) "Notification"
                      [foreignGroup "notify-send done"]) "Notification").2
    = [foreignGroup "notify-send done"]
  ∧ (getEventHooks (document "Stop" twoManagedOneForeign) "PreToolUse").2 = [].
Proof.
  split_and!.
  - refine (eq_trans (proj1 (event_hooks_set_then_get (document "Stop" twoManagedOneForeign)
                               "Notification" [foreignGroup "notify-send done"] "Stop"
                               _ _)) _);
      [by apply includes_elem_of..|reflexivity].
  - refine (eq_trans (proj1 (event_hooks_set_then_get (document "Stop" twoManagedOneForeign)
                               "Notification" [foreignGroup "notify-send done"]
                               "Notification" _ _)) _);
      [by apply includes_elem_of..|reflexivity].
  - refine (proj1 (proj2 (proj2 (event_hooks_set_then_get
                                   (document "Stop" twoManagedOneForeign) "Stop" []
                                   "PreToolUse" _ _))) _);
      [by apply includes_elem_of..|reflexivity].
Defined.

(** ** Removal after removal, removal after an add *)

(** X3. A [removeHooks] that returned leaves nothing for a second one: the
    second call for the same event reports that no managed hook was found
    and leaves the files as they are. *)
Theorem remove_twice event fs report fs1 :
  removeHooks event fs = Done report fs1 ->
  removeHooks event fs1 = Done NoManagedHooks fs1.
Proof.
  intros Hrun. rewrite removeHooks_run in Hrun. rewrite removeHooks_run.
  destruct (includes VALID_EVENTS event); cbn [negb] in *; [|done].
  destruct (parsable fs) eqn:Hp; cbn [negb] in *; [|done]. cbn zeta in *.
  destruct (managedGroups (groupsOnDisk fs event)) as [|m ms] eqn:Hm;
    cbn [length Nat.eqb] in Hrun; injection Hrun as <- <-.
  - rewrite parsable_loadedFS by done. cbn [negb].
    by rewrite groupsOnDisk_loadedFS, Hm, loadedFS_idemp.
  - cbn [parsable written settingsFile negb].
    rewrite groupsOnDisk_written, getEventHooks_setEventHooks.
    case_decide; [|done]. by rewrite managedGroups_unmanagedGroups.
Qed.

Lemma remove_twice_witness :
  ∃ fs1, removeHooks "Stop" busyDisk = Done (Removed 2) fs1
         ∧ removeHooks "Stop" fs1 = Done NoManagedHooks fs1.
Proof.
  eexists. split; [vm_compute; reflexivity|].
  eapply (remove_twice "Stop" busyDisk (Removed 2)). vm_compute. reflexivity.
Defined.

(** X4. An add that went through, followed by [removeHooks] for the same
    event: the removal reports one group, and the files then hold, under
    the event, the unmanaged groups it had before the add, and under every
    other event what they held before the add. *)
Theorem add_then_remove env fresh event audioFile options fs report fs1 :
  addSoundHook env fresh event audioFile options fs = Done report fs1 ->
  report ≠ AlreadyExists ->
  ∃ fs2,
    removeHooks event fs1 = Done (Removed 1) fs2
    ∧ ∀ event',
        groupsOnDisk fs2 event'
        = if decide (event = event') then unmanagedGroups (groupsOnDisk fs event)
          else groupsOnDisk fs event'.
Proof.
  intros Hrun Hreport. rewrite addSoundHook_run in Hrun. passed_guards Hrun.
  destruct (findExistingAudioHook env _ audioFile); [by simplify_eq|].
  injection Hrun as <- <-.
  eexists. rewrite removeHooks_run.
  match goal with E : includes _ _ = true |- _ => rewrite E end.
  cbn [negb parsable written settingsFile]. cbn zeta.
  rewrite groupsOnDisk_written, getEventHooks_setEventHooks.
  case_decide; [|done].
  rewrite managedGroups_app, managedGroups_unmanagedGroups. cbn [app].
  rewrite managedGroups_cons, createAudioHook_managed. cbn [length Nat.eqb managedGroups].
  split; [done|].
  intros event'. unfold loadedConfig at 1. cbn [written settingsFile].
  rewrite groupsOnDisk_written, !getEventHooks_setEventHooks.
  case_decide.
  - rewrite unmanagedGroups_app, unmanagedGroups_idemp. cbn [app].
    rewrite unmanagedGroups_cons, createAudioHook_managed. apply app_nil_r.
  - apply groupsOnDisk_loaded.
Qed.

Lemma add_then_remove_witness :
  ∃ fs1 fs2,
    addSoundHook linuxEnv fresh2 "Stop" "/sounds/c.wav" noOptions busyDisk = Done Replaced fs1
    ∧ removeHooks "Stop" fs1 = Done (Removed 1) fs2
    ∧ groupsOnDisk fs2 "Stop" = [foreignGroup "notify-send done"].
Proof.
  eexists. 
  destruct (add_then_remove linuxEnv fresh2 "Stop" "/sounds/c.wav" noOptions busyDisk
              Replaced _ ltac:(vm_compute; reflexivity) ltac:(discriminate))
    as (fs2 & Hremove & Hgroups).
  exists fs2. split; [vm_compute; reflexivity|]. split; [exact Hremove|].
  exact (Hgroups "Stop").
Defined.

(** ** Clearing and listing *)

Lemma clearEvent_count config n event :
  (clearEvent (config, n) event).2
  = (n + length (managedGroups (getEventHooks config event).2))%nat.
Proof.
  unfold clearEvent.
  destruct (getEventHooks config event) as [config1 eventHooks] eqn:G. cbn [snd].
  fold (unmanagedGroups eventHooks). rewrite removedCount_managed.
  destruct (length (managedGroups eventHooks)); cbn; [lia|done].
Qed.

Lemma clearEvent_groups config n event event' :
  (getEventHooks (clearEvent (config, n) event).1 event').2
  = if decide (event = event') then unmanagedGroups (getEventHooks config event).2
    else (getEventHooks config event').2.
Proof.
  unfold clearEvent.
  destruct (getEventHooks config event) as [config1 eventHooks] eqn:G.
  assert (eventHooks = (getEventHooks config event).2) as -> by (by rewrite G).
  assert (config1 = ensureHooksStructure config) as ->
    by (rewrite <- getEventHooks_fst with (event := event), G; done).
  fold (unmanagedGroups (getEventHooks config event).2).
  rewrite removedCount_managed.
  destruct (managedGroups (getEventHooks config event).2) as [|m ms] eqn:Hm;
    cbn [length Nat.ltb Nat.leb fst].
  - rewrite getEventHooks_ensured. case_decide as E; [subst event'|done].
    by rewrite unmanagedGroups_all.
  - by rewrite setEventHooks_ensured, getEventHooks_setEventHooks.
Qed.

Lemma clearEvents_fold evs config n :
  NoDup evs ->
  (foldl clearEvent (config, n) evs).2
  = (n + sum_list ((λ e, length (managedGroups (getEventHooks config e).2)) <$> evs))%nat
  ∧ ∀ event',
      (getEventHooks (foldl clearEvent (config, n) evs).1 event').2
      = if decide (event' ∈ evs) then unmanagedGroups (getEventHooks config event').2
        else (getEventHooks config event').2.
Proof.
  revert config n. induction evs as [|ev evs IH]; intros config n Hnd.
  - cbn. split; [lia|]. intros event'. case_decide as E; [by apply elem_of_nil in E|done].
  - apply NoDup_cons in Hnd as [Hev Hnd]. cbn [foldl].
    destruct (clearEvent (config, n) ev) as [config1 n1] eqn:E.
    assert (n1 = (clearEvent (config, n) ev).2) as Hn1 by (by rewrite E).
    assert (config1 = (clearEvent (config, n) ev).1) as Hc1 by (by rewrite E).
    rewrite clearEvent_count in Hn1.
    assert (∀ e, (getEventHooks config1 e).2
                 = if decide (ev = e) then unmanagedGroups (getEventHooks config ev).2
                   else (getEventHooks config e).2) as Hgroups
      by (intros e; rewrite Hc1; apply clearEvent_groups).
    destruct (IH config1 n1 Hnd) as [Hsum Hrest]. split.
    + rewrite Hsum, Hn1. cbn [fmap list_fmap sum_list].
      assert (((λ e, length (managedGroups (getEventHooks config1 e).2)) <$> evs)
              = ((λ e, length (managedGroups (getEventHooks config e).2)) <$> evs)) as ->.
      { apply list_fmap_ext. intros i e Hin. rewrite Hgroups.
        case_decide; [|done]. subst e. by apply list_elem_of_lookup_2 in Hin. }
      cbn. lia.
    + intros event'. rewrite Hrest, !Hgroups.
      destruct (decide (ev = event')) as [<-|Hne].
      * rewrite decide_False by done. rewrite decide_True by (by left). done.
      * destruct (decide (event' ∈ evs)) as [Hin|Hnin].
        -- rewrite decide_True by (by right). done.
        -- rewrite decide_False; [done|]. by intros [?|?]%elem_of_cons.
Qed.

Lemma VALID_EVENTS_NoDup : NoDup VALID_EVENTS.
Proof.
  unfold VALID_EVENTS.
  repeat (apply NoDup_cons_2; [by apply includes_not_elem_of|]). apply NoDup_nil_2.
Qed.

Lemma managedOnDisk_loaded fs events :
  sum_list ((λ e, length (managedGroups (getEventHooks (loadedConfig fs) e).2)) <$> events)
  = managedOnDisk fs events.
Proof.
  unfold managedOnDisk. f_equal. apply list_fmap_ext. intros i e _.
  by rewrite groupsOnDisk_loaded.
Qed.

Lemma managedOnDisk_zero fs events event :
  managedOnDisk fs events = 0 -> event ∈ events ->
  managedGroups (groupsOnDisk fs event) = [].
Proof.
  unfold managedOnDisk. induction events as [|e events IH]; [by intros _ ?%elem_of_nil|].
  cbn. intros Hsum [->|Hin]%elem_of_cons.
  - destruct (managedGroups (groupsOnDisk fs e)); [done|]. cbn in Hsum. lia.
  - apply IH; [lia|done].
Qed.

(** X5. A confirmed [clearAllHooks] on settings that parse returns; under
    each of the five events the files then hold the unmanaged groups they
    held, in order, and under any other key of [hooks] what they held
    (managed groups included); the count reported is the number of managed
    groups under the five events, and the "none found" message is printed
    exactly when that number is zero.  When the prompt is declined nothing
    is read or written. *)
Theorem clearAllHooks_clears_the_five fs :
  parsable fs = true ->
  (∃ report fs',
      clearAllHooks true fs = Done report fs'
      ∧ clearedOf report = managedOnDisk fs VALID_EVENTS
      ∧ (report = NothingToClear <-> managedOnDisk fs VALID_EVENTS = 0)
      ∧ (∀ event, event ∈ VALID_EVENTS ->
           groupsOnDisk fs' event = unmanagedGroups (groupsOnDisk fs event))
      ∧ (∀ event, event ∉ VALID_EVENTS -> groupsOnDisk fs' event = groupsOnDisk fs event))
  ∧ clearAllHooks false fs = Done Cancelled fs.
Proof.
  intros Hp. split; [|done].
  rewrite clearAllHooks_run, Hp. cbn [negb].
  destruct (clearEvents_fold VALID_EVENTS (loadedConfig fs) 0 VALID_EVENTS_NoDup)
    as [Hsum Hgroups].
  rewrite managedOnDisk_loaded in Hsum.
  destruct (foldl clearEvent _ _) as [config totalRemoved]. cbn [fst snd] in *.
  rewrite Nat.add_0_l in Hsum.
  destruct totalRemoved as [|k]; cbn [Nat.eqb]; eexists _, _; (split; [done|]).
  - rewrite <- Hsum. repeat split; try done.
    + intros event Hin. rewrite groupsOnDisk_loadedFS.
      symmetry. apply unmanagedGroups_all. by apply (managedOnDisk_zero fs VALID_EVENTS).
    + intros event _. by rewrite groupsOnDisk_loadedFS.
  - rewrite <- Hsum. repeat split; try done.
    + intros event Hin. rewrite groupsOnDisk_written, Hgroups, decide_True by done.
      by rewrite groupsOnDisk_loaded.
    + intros event Hnin. rewrite groupsOnDisk_written, Hgroups, decide_False by done.
      by rewrite groupsOnDisk_loaded.
Qed.

Lemma clearAllHooks_clears_the_five_witness :
  ∃ fs', clearAllHooks true busyDisk = Done (Cleared 2) fs'
         ∧ groupsOnDisk fs' "Stop" = [foreignGroup "notify-send done"].
Proof.
  destruct (clearAllHooks_clears_the_five busyDisk eq_refl)
    as [(report & fs' & Hrun & Hcount & _ & Hfive & _) _].
  assert (report = Cleared 2) as ->.
  { destruct report; vm_compute in Hcount; try discriminate. by rewrite Hcount. }
  exists fs'. split; [exact Hrun|].
  rewrite Hfive by (by apply includes_elem_of). reflexivity.
Defined.


Lemma listHooks_of_group event hs r :
  ccsoundCount (foldl (listHook event) r hs) = ccsoundCount r
  ∧ otherCount (foldl (listHook event) r hs) = otherCount r
  ∧ (∀ evs : list string, Forall (λ l, listedEvent l ∈ evs) (listed r) -> event ∈ evs ->
            Forall (λ l, listedEvent l ∈ evs) (listed (foldl (listHook event) r hs))).
Proof.
  revert r. induction hs as [|h hs IH]; intros r; [done|].
  cbn [foldl]. destruct (IH (listHook event r h)) as (Hc & Ho & Hl).
  rewrite Hc, Ho. unfold listHook in *.
  destruct (String.eqb (hook_type h) "command"); [|done].
  destruct (_ccsound h) as [w|]; [|done]. cbn [ccsoundCount otherCount listed] in *.
  split_and!; try done. intros evs Hr Hev. apply Hl; [|done].
  apply Forall_app. split; [done|]. by apply Forall_singleton.
Qed.

Lemma listGroups_of_event event gs r :
  ccsoundCount (foldl (listGroup event) r gs)
  = (ccsoundCount r + length (managedGroups gs))%nat
  ∧ otherCount (foldl (listGroup event) r gs)
    = (otherCount r + length (unmanagedGroups gs))%nat
  ∧ (∀ evs : list string, Forall (λ l, listedEvent l ∈ evs) (listed r) -> event ∈ evs ->
            Forall (λ l, listedEvent l ∈ evs) (listed (foldl (listGroup event) r gs))).
Proof.
  revert r. induction gs as [|g gs IH]; intros r.
  - change (managedGroups []) with (@nil HookGroup).
    change (unmanagedGroups []) with (@nil HookGroup).
    cbn. split_and!; [lia|lia|done].
  - cbn [foldl]. destruct (IH (listGroup event r g)) as (Hc & Ho & Hl).
    rewrite Hc, Ho, managedGroups_cons, unmanagedGroups_cons. unfold listGroup in *.
    destruct (isccsoundManaged g).
    + match goal with
      | |- context [foldl (listHook event) ?r0 (hooks g)] =>
          destruct (listHooks_of_group event (hooks g) r0) as (Hc' & Ho' & Hl')
      end.
      rewrite Hc', Ho'. cbn [ccsoundCount otherCount length].
      split_and!; [lia|lia|]. intros evs Hr Hev. apply Hl; [|done]. by apply Hl'.
    + cbn [ccsoundCount otherCount length listed] in *.
      split_and!; [lia|lia|]. intros evs Hr Hev. by apply Hl.
Qed.

Lemma listEvent_step config r event :
  listEvent (config, r) event
  = (ensureHooksStructure config, foldl (listGroup event) r (getEventHooks config event).2).
Proof. reflexivity. Qed.

Lemma listEvents_fold (evs : list string) config r (all : list string) :
  evs ⊆ all -> Forall (λ l, listedEvent l ∈ all) (listed r) ->
  ccsoundCount (foldl listEvent (config, r) evs).2
  = (ccsoundCount r
     + sum_list ((λ e, length (managedGroups (getEventHooks config e).2)) <$> evs))%nat
  ∧ otherCount (foldl listEvent (config, r) evs).2
    = (otherCount r
       + sum_list ((λ e, length (unmanagedGroups (getEventHooks config e).2)) <$> evs))%nat
  ∧ Forall (λ l, listedEvent l ∈ all) (listed (foldl listEvent (config, r) evs).2).
Proof.
  revert config r. induction evs as [|ev evs IH]; intros config r Hsub Hr.
  - cbn. split_and!; [lia|lia|done].
  - cbn [foldl]. rewrite listEvent_step.
    destruct (listGroups_of_event ev (getEventHooks config ev).2 r) as (Hc & Ho & Hl).
    assert (ev ∈ all) as Hev by (apply Hsub; by left).
    assert (evs ⊆ all) as Hsub' by (intros x Hx; apply Hsub; by right).
    destruct (IH (ensureHooksStructure config) _ Hsub' (Hl all Hr Hev)) as (Hc' & Ho' & Hl').
    rewrite Hc', Ho', Hc, Ho. cbn [fmap list_fmap sum_list].
    assert (∀ f : list HookGroup -> nat,
              ((λ e, f (getEventHooks (ensureHooksStructure config) e).2) <$> evs)
              = ((λ e, f (getEventHooks config e).2) <$> evs)) as Hsame.
    { intros f. apply list_fmap_ext. intros i e _. by rewrite getEventHooks_ensured. }
    rewrite (Hsame (λ l, length (managedGroups l))).
    rewrite (Hsame (λ l, length (unmanagedGroups l))).
    split_and!; [cbn; lia|cbn; lia|done].
Qed.

Lemma unmanagedOnDisk_loaded fs events :
  sum_list ((λ e, length (unmanagedGroups (getEventHooks (loadedConfig fs) e).2)) <$> events)
  = unmanagedOnDisk fs events.
Proof.
  unfold unmanagedOnDisk. f_equal. apply list_fmap_ext. intros i e _.
  by rewrite groupsOnDisk_loaded.
Qed.

(** X6. On settings that parse, [listHooks] writes nothing beyond what
    loading does; the number of managed hooks it reports is the number of
    managed groups under the five events, which is the number a confirmed
    [clearAllHooks] would report removed; the number of other hooks is the
    number of unmanaged groups under the five events; every line printed is
    for one of the five events. *)
Theorem listHooks_counts fs :
  parsable fs = true ->
  ∃ report,
    listHooks fs = Done report (loadedFS fs)
    ∧ ccsoundCount report = managedOnDisk fs VALID_EVENTS
    ∧ otherCount report = unmanagedOnDisk fs VALID_EVENTS
    ∧ Forall (λ l, listedEvent l ∈ VALID_EVENTS) (listed report)
    ∧ ∃ cleared fs', clearAllHooks true fs = Done cleared fs'
                     ∧ clearedOf cleared = ccsoundCount report.
Proof.
  intros Hp. unfold listHooks. rewrite bind_run, (readSettingsFile_parsable _ Hp).
  eexists. split; [done|].
  destruct (listEvents_fold VALID_EVENTS (loadedConfig fs) emptyListReport VALID_EVENTS)
    as (Hc & Ho & Hl); [done|by apply Forall_nil|].
  rewrite managedOnDisk_loaded in Hc. rewrite unmanagedOnDisk_loaded in Ho.
  rewrite Hc, Ho. split_and!; try done.
  rewrite clearAllHooks_run, Hp. cbn [negb].
  destruct (clearEvents_fold VALID_EVENTS (loadedConfig fs) 0 VALID_EVENTS_NoDup)
    as [Hsum _].
  rewrite managedOnDisk_loaded in Hsum.
  destruct (foldl clearEvent _ _) as [config totalRemoved]. cbn [fst snd] in *.
  destruct totalRemoved; cbn [Nat.eqb]; eexists _, _; (split; [done|]);
    unfold emptyListReport; cbn [clearedOf ccsoundCount]; lia.
Qed.

Lemma listHooks_counts_witness :
  ∃ report, listHooks busyDisk = Done report busyDisk
            ∧ ccsoundCount report = 2 ∧ otherCount report = 1.
Proof.
  destruct (listHooks_counts busyDisk eq_refl) as (report & Hrun & Hc & Ho & _).
  exists report. exact (conj Hrun (conj Hc Ho)).
Defined.

(** ** Adding in a row: presets and lists of events *)

(** What one [addSoundHook] that returned has done to the files. *)
Lemma add_returned env fresh event audioFile options fs report fs' :
  addSoundHook env fresh event audioFile options fs = Done report fs' ->
  managedGroups (groupsOnDisk fs' event) ≠ []
  ∧ (∀ event', event' ≠ event -> groupsOnDisk fs' event' = groupsOnDisk fs event')
  ∧ (∀ event', unmanagedGroups (groupsOnDisk fs' event')
               = unmanagedGroups (groupsOnDisk fs event')).
Proof.
  intros Hrun. rewrite addSoundHook_run in Hrun. passed_guards Hrun.
  destruct (findExistingAudioHook env _ audioFile) as [found|] eqn:Hfound;
    injection Hrun as <- <-.
  - split_and!.
    + rewrite groupsOnDisk_loadedFS.
      pose proof (findExistingAudioHook_first env (groupsOnDisk fs event) audioFile) as H.
      rewrite Hfound in H. destruct H as (before & after & -> & [Hm _] & _).
      rewrite managedGroups_app, managedGroups_cons, Hm.
      by destruct (managedGroups before).
    + intros. by rewrite groupsOnDisk_loadedFS.
    + intros. by rewrite groupsOnDisk_loadedFS.
  - split_and!.
    + rewrite groupsOnDisk_written, getEventHooks_setEventHooks, decide_True by done.
      rewrite managedGroups_app, managedGroups_unmanagedGroups. cbn [app].
      by rewrite managedGroups_cons, createAudioHook_managed.
    + intros event' Hne.
      rewrite groupsOnDisk_written, getEventHooks_setEventHooks, decide_False by done.
      apply groupsOnDisk_loaded.
    + intros event'. rewrite groupsOnDisk_written, getEventHooks_setEventHooks.
      case_decide as E; [subst event'|by rewrite groupsOnDisk_loaded].
      rewrite unmanagedGroups_app, unmanagedGroups_idemp. cbn [app].
      rewrite unmanagedGroups_cons, createAudioHook_managed. apply app_nil_r.
Qed.

Lemma addEach_cons env fresh k event audioFile rest options fs :
  addEach env fresh k ((event, audioFile) :: rest) options fs
  = match addSoundHook env (fresh k) event audioFile options fs with
    | Done report fs1 =>
        match addEach env fresh (S k) rest options fs1 with
        | Done reports fs2 => Done (report :: reports) fs2
        | Exit status why fs2 => Exit status why fs2
        end
    | Exit status why fs1 => Exit status why fs1
    end.
Proof.
  cbn [addEach]. rewrite bind_run.
  destruct (addSoundHook env (fresh k) event audioFile options fs); [|done].
  by rewrite bind_run.
Qed.

Lemma addEach_returned env fresh entries options : ∀ k fs reports fs',
  addEach env fresh k entries options fs = Done reports fs' ->
  length reports = length entries
  ∧ (∀ event, event ∈ entries.*1 -> managedGroups (groupsOnDisk fs' event) ≠ [])
  ∧ (∀ event, managedGroups (groupsOnDisk fs event) ≠ [] ->
              managedGroups (groupsOnDisk fs' event) ≠ [])
  ∧ (∀ event, event ∉ entries.*1 -> groupsOnDisk fs' event = groupsOnDisk fs event)
  ∧ (∀ event, unmanagedGroups (groupsOnDisk fs' event)
              = unmanagedGroups (groupsOnDisk fs event)).
Proof.
  induction entries as [|[event audioFile] rest IH]; intros k fs reports fs' Hrun.
  - injection Hrun as <- <-. split_and!; try done. by intros event ?%elem_of_nil.
  - rewrite addEach_cons in Hrun.
    destruct (addSoundHook env (fresh k) event audioFile options fs)
      as [report fs1|] eqn:Hadd; [|done].
    destruct (addEach env fresh (S k) rest options fs1) as [reports' fs2|] eqn:Hrest;
      [|done].
    injection Hrun as <- <-.
    destruct (add_returned _ _ _ _ _ _ _ _ Hadd) as (Hm & Hother & Hun).
    destruct (IH _ _ _ _ Hrest) as (Hlen & Hin & Hkeep & Hout & Hun').
    assert (∀ e, managedGroups (groupsOnDisk fs e) ≠ [] ->
                 managedGroups (groupsOnDisk fs1 e) ≠ []) as Hkeep1.
    { intros e He. destruct (decide (e = event)) as [->|Hne]; [done|].
      by rewrite Hother. }
    split_and!.
    + cbn. by rewrite Hlen.
    + intros e [->|He]%elem_of_cons; [by apply Hkeep|by apply Hin].
    + intros e He. by apply Hkeep, Hkeep1.
    + intros e He. cbn in He. rewrite not_elem_of_cons in He. destruct He as [Hne He].
      rewrite Hout by done. by apply Hother.
    + intros e. by rewrite Hun', Hun.
Qed.

(** X7. When [applyPreset] returns, every event of the preset has at least
    one managed group in the settings file and one message was printed per
    event; the unmanaged groups of every event are the ones the file held,
    in order, and the events the preset does not name hold what they
    held. *)
Theorem applyPreset_configures env fresh presetName fs reports fs' :
  applyPreset env fresh presetName fs = Done reports fs' ->
  length reports = length (presetEntries env presetName)
  ∧ (∀ event, event ∈ (presetEntries env presetName).*1 ->
              event ∈ VALID_EVENTS ∧ managedGroups (groupsOnDisk fs' event) ≠ [])
  ∧ (∀ event, event ∉ (presetEntries env presetName).*1 ->
              groupsOnDisk fs' event = groupsOnDisk fs event)
  ∧ (∀ event, unmanagedGroups (groupsOnDisk fs' event)
              = unmanagedGroups (groupsOnDisk fs event)).
Proof.
  intros Hrun. unfold applyPreset in Hrun.
  destruct (addEach_returned _ _ _ _ _ _ _ _ Hrun) as (Hlen & Hin & _ & Hout & Hun).
  split_and!; try done.
  intros event He. split; [|by apply Hin].
  apply includes_elem_of. clear -He.
  destruct presetName; cbn in He;
    repeat (apply elem_of_cons in He as [->|He]; [done|]); by apply elem_of_nil in He.
Qed.

Lemma applyPreset_configures_witness :
  ∃ fs', applyPreset linuxEnv freshes development busyDisk = Done [Added; Added; Replaced] fs'
         ∧ managedGroups (groupsOnDisk fs' "PostToolUse") ≠ []
         ∧ unmanagedGroups (groupsOnDisk fs' "Stop") = [foreignGroup "notify-send done"].
Proof.
  eexists. split; [vm_compute; reflexivity|].
  destruct (applyPreset_configures linuxEnv freshes development busyDisk
              [Added; Added; Replaced] _ ltac:(vm_compute; reflexivity))
    as (_ & Hin & _ & Hun).
  split; [|exact (Hun "Stop")].
  apply Hin. by apply includes_elem_of.
Defined.

(** X8. Nothing is rolled back.  When the adds for the first entries of a
    row return and the add for the next entry exits, the row exits with
    the same status and error, and the settings file holds what the adds
    before had written: a preset, or a list of events on the command line,
    stays applied up to the entry that failed. *)
Theorem addEach_stops_without_rollback env fresh k before event audioFile after options
    fs reports fs1 status why fs2 :
  addEach env fresh k before options fs = Done reports fs1 ->
  addSoundHook env (fresh (k + length before)%nat) event audioFile options fs1
  = Exit status why fs2 ->
  addEach env fresh k (before ++ (event, audioFile) :: after) options fs
  = Exit status why fs2
  ∧ settingsFile fs2 = settingsFile fs1
  ∧ ∀ e, e ∈ before.*1 -> managedGroups (groupsOnDisk fs2 e) ≠ [].
Proof.
  intros Hbefore Hfail.
  assert (settingsFile fs2 = settingsFile fs1) as Hsame.
  { rewrite addSoundHook_run in Hfail.
    destruct (negb (includes VALID_EVENTS event)); [by simplify_eq|].
    destruct (negb (access env _)); [by simplify_eq|].
    destruct (negb (parsable fs1)); [by simplify_eq|].
    cbn zeta in Hfail. by destruct (findExistingAudioHook env _ audioFile). }
  split_and!; [|done|].
  - revert k fs reports Hbefore Hfail.
    induction before as [|[e f] before IH]; intros k fs reports Hbefore Hfail.
    + injection Hbefore as <- <-. cbn [app length] in *.
      rewrite Nat.add_0_r in Hfail. by rewrite addEach_cons, Hfail.
    + cbn [app]. rewrite addEach_cons. rewrite addEach_cons in Hbefore.
      destruct (addSoundHook env (fresh k) e f options fs) as [r fsa|]; [|done].
      destruct (addEach env fresh (S k) before options fsa) as [rs fsb|] eqn:Hb; [|done].
      injection Hbefore as <- <-.
      rewrite (IH (S k) fsa rs Hb); [done|].
      cbn [length] in Hfail. by rewrite Nat.add_succ_comm.
  - intros e He.
    destruct (addEach_returned _ _ _ _ _ _ _ _ Hbefore) as (_ & Hin & _).
    unfold groupsOnDisk. rewrite Hsame. by apply Hin.
Qed.

Lemma addEach_stops_without_rollback_witness :
  ∃ fs2,
    applyPreset pingOnlyEnv freshes development noSettings
    = Exit 1 (AudioFileNotFound "/usr/share/sounds/alsa/Pop.wav") fs2
    ∧ managedGroups (groupsOnDisk fs2 "PreToolUse") ≠ [].
Proof.
  eexists.
  destruct (addEach_stops_without_rollback pingOnlyEnv freshes 0
              [("PreToolUse", "/usr/share/sounds/alsa/Ping.wav")]
              "PostToolUse" "/usr/share/sounds/alsa/Pop.wav"
              [("Stop", "/usr/share/sounds/alsa/Tink.wav")] {| matcher := None |}
              noSettings [Added] _ 1 (AudioFileNotFound "/usr/share/sounds/alsa/Pop.wav") _
              ltac:(vm_compute; reflexivity) ltac:(vm_compute; reflexivity))
    as (Hrun & _ & Hkept).
  split; [exact Hrun|]. apply Hkept. by apply includes_elem_of.
Defined.

(** X9. On Windows the sounds of a preset are bare names, not paths: the
    first add looks for a file of that name relative to the working
    directory, and when there is none [applyPreset] exits with the
    file-not-found error before any file is read or written. *)
Theorem applyPreset_on_windows env fresh presetName fs :
  platform env = win32 ->
  let first := match presetName with development => "Ping" | _ => "Tink" end in
  (∀ event audioFile, (event, audioFile) ∈ presetEntries env presetName ->
                      audioFile ∈ ["Tink"; "Glass"; "Ping"; "Pop"])
  ∧ (access env (resolve env first) = false ->
     applyPreset env fresh presetName fs = Exit 1 (AudioFileNotFound first) fs).
Proof.
  intros Hwin first. split.
  - intros event audioFile Hin. unfold presetEntries, getSystemSoundPath in Hin.
    rewrite Hwin in Hin.
    destruct presetName;
      repeat (apply elem_of_cons in Hin as [Hin|Hin];
              [injection Hin as -> ->; by apply includes_elem_of|]);
      by apply elem_of_nil in Hin.
  - intros Hmissing. unfold applyPreset, presetEntries, getSystemSoundPath.
    rewrite Hwin. subst first.
    destruct presetName; rewrite addEach_cons, addSoundHook_run; cbn [includes existsb];
      cbn; by rewrite Hmissing.
Qed.

Lemma applyPreset_on_windows_witness :
  applyPreset bareWindowsEnv freshes minimal busyDisk
  = Exit 1 (AudioFileNotFound "Tink") busyDisk.
Proof.
  exact (proj2 (applyPreset_on_windows bareWindowsEnv freshes minimal busyDisk eq_refl)
           eq_refl).
Defined.


(** ** Paths: the home directory and the command text *)

Lemma substitution_plain before matched after tpl :
  Js.all nonDollar tpl = true -> Js.substitution before matched after tpl = tpl.
Proof.
  induction tpl as [|c tpl IH]; [done|]. cbn [Js.all]. unfold nonDollar at 1.
  intros [Hc Hall]%andb_true_iff. cbn [Js.substitution].
  destruct (Ascii.eqb c "$"); [done|]. by rewrite IH.
Qed.

Lemma substitution_whole_match before matched after h rest :
  Js.all nonDollar h = true ->
  Js.substitution before matched after (h +:+ "$&") +:+ rest = h +:+ matched +:+ rest.
Proof.
  induction h as [|c h IH]; cbn [Js.all String.append].
  - intros _. cbn. induction matched as [|m ms IHm]; cbn; [done|].
    f_equal. cbn in IHm. clear -ms. induction ms as [|x ms IH]; [done|]. cbn. by rewrite IH.
  - unfold nonDollar at 1. intros [Hc Hh]%andb_true_iff. cbn [Js.substitution].
    destruct (Ascii.eqb c "$"); [done|]. cbn. by rewrite IH.
Qed.

(** X10. The expansion of the home directory, [s.replace(/^~/, HOME || '')]:
    a path that does not start with a tilde is left as it is; a leading
    tilde is replaced by [HOME] when [HOME] holds no dollar sign, and just
    dropped when [HOME] is unset or empty; only the first character is
    looked at.  A dollar sign in [HOME] is read as a replacement pattern:
    with [HOME] ending in [$&] the tilde comes back. *)
Theorem expandHome_cases home rest :
  (∀ c, c ≠ "~"%char -> expandHome home (String c rest) = String c rest)
  ∧ expandHome home "" = ""
  ∧ (∀ h, home = Some h -> Js.all nonDollar h = true ->
          expandHome home (String "~" rest) = h +:+ rest)
  ∧ (home = None ∨ home = Some "" -> expandHome home (String "~" rest) = rest)
  ∧ (∀ h, home = Some (h +:+ "$&") -> Js.all nonDollar h = true ->
          expandHome home (String "~" rest) = h +:+ "~" +:+ rest).
Proof.
  split_and!.
  - intros c Hc. cbn. destruct (Ascii.eqb_spec c "~"); done.
  - done.
  - intros h -> Hh. cbn. by rewrite substitution_plain.
  - by intros [-> | ->].
  - intros h -> Hh. cbn [expandHome default]. rewrite Ascii.eqb_refl.
    by apply substitution_whole_match.
Qed.

Lemma expandHome_cases_witness :
  expandHome (Some "/home/u") "~/a.wav" = "/home/u/a.wav"
  ∧ expandHome None "~/a.wav" = "/a.wav"
  ∧ expandHome (Some "/home/u$&") "~/a.wav" = "/home/u~/a.wav".
Proof.
  split_and!.
  - exact (proj1 (proj2 (proj2 (expandHome_cases (Some "/home/u") "/a.wav")))
             "/home/u" eq_refl eq_refl).
  - exact (proj1 (proj2 (proj2 (proj2 (expandHome_cases None "/a.wav"))))
             (or_introl eq_refl)).
  - exact (proj2 (proj2 (proj2 (proj2 (expandHome_cases (Some "/home/u$&") "/a.wav"))))
             "/home/u" eq_refl eq_refl).
Defined.

Lemma firstQuoted_after_player env p :
  platform env ≠ win32 -> p ≠ "" -> Js.all Js.nonQuote p = true ->
  firstQuoted (getAudioPlayer env +:+ " " +:+ Js.quoted p) = Some p.
Proof.
  intros Hplatform Hp Hall.
  assert (firstQuoted (Js.quoted p) = Some p) as Hq.
  { unfold Js.quoted. cbn [firstQuoted]. unfold quotedHere.
    change (Js.lit Js.dquote (String Js.dquote (p +:+ String Js.dquote "")))
      with [p +:+ String Js.dquote ""].
    destruct (plus_longest Js.nonQuote p (String Js.dquote "")) as [ps Hps]; [done..|].
    assert (head ([p +:+ String Js.dquote ""] ≫=
                    (λ r1, Js.plus Js.nonQuote r1 ≫=
                             (λ pr2, Js.lit Js.dquote pr2.2 ≫= (λ _, [pr2.1]))))
            = Some p) as ->; [|done].
    apply head_bind_first. rewrite Hps. by apply head_bind_first. }
  unfold getAudioPlayer. destruct (platform env); try done; cbn; exact Hq.
Qed.

(** X11. What [createAudioHook] writes is read back alike by both
    extractions, off Windows: for an expanded path that is not empty and
    holds no double quote, the pattern of [findExistingAudioHook] and the
    extraction of list, test and doctor both read that path in the
    command.  On Windows neither does: the first reads nothing and the
    second reads the text of the player script, whatever the path. *)
Theorem written_command_read_back env fresh event audioFile options :
  let expandedPath := expandHome (HOME env) audioFile in
  let written := createAudioHook env fresh event audioFile options in
  (platform env ≠ win32 -> expandedPath ≠ "" -> Js.all Js.nonQuote expandedPath = true ->
   ∀ hook, hook ∈ hooks written ->
           matchPlayerCommand (command hook) = Some expandedPath
           ∧ extractAudioFile (command hook) = Some expandedPath)
  ∧ (platform env = win32 ->
     ∀ hook, hook ∈ hooks written ->
             matchPlayerCommand (command hook) = None
             ∧ extractAudioFile (command hook) = Some windowsScript).
Proof.
  intros expandedPath written. subst written. rewrite createAudioHook_hooks. split.
  - intros Hplatform Hne Hall hook ->%list_elem_of_singleton. cbn [command].
    destruct (player_is_a_word env Hplatform) as [Hw Hwall]. split.
    + by apply matchPlayerCommand_quoted.
    + unfold extractAudioFile. by rewrite firstQuoted_after_player.
  - intros Hplatform hook ->%list_elem_of_singleton. cbn [command]. split.
    + by apply matchPlayerCommand_win32.
    + unfold getAudioPlayer. by rewrite Hplatform.
Qed.

Lemma written_command_read_back_witness :
  Forall (λ hook, matchPlayerCommand (command hook) = Some "/home/u/my sounds/a.wav"
                  ∧ extractAudioFile (command hook) = Some "/home/u/my sounds/a.wav")
         (hooks (createAudioHook linuxEnv fresh1 "Stop" "~/my sounds/a.wav" noOptions)).
Proof.
  apply Forall_forall.
  refine (proj1 (written_command_read_back linuxEnv fresh1 "Stop" "~/my sounds/a.wav"
                   noOptions) _ _ _); done.
Defined.

(** ** Adding the same file again, where the command can be read back *)

(** X12. Off Windows, for a path whose expansion is not empty, holds no
    double quote and does not start with a tilde again: after an add that
    returned, an add of the same path for the same event reports that the
    hook exists and leaves every file as it is. *)
Theorem add_again_is_noop env fresh fresh' event audioFile options options' fs report fs1 :
  platform env ≠ win32 ->
  expandHome (HOME env) audioFile ≠ "" ->
  Js.all Js.nonQuote (expandHome (HOME env) audioFile) = true ->
  expandHome (HOME env) (expandHome (HOME env) audioFile) = expandHome (HOME env) audioFile ->
  addSoundHook env fresh event audioFile options fs = Done report fs1 ->
  addSoundHook env fresh' event audioFile options' fs1 = Done AlreadyExists fs1.
Proof.
  intros Hplatform Hne Hall Hstable Hrun.
  by apply (second_add_is_noop env Hplatform fresh fresh' event audioFile audioFile
              options options' fs report fs1).
Qed.

Lemma add_again_is_noop_witness :
  ∃ fs1,
    addSoundHook linuxEnv fresh1 "Stop" "~/a.wav" noOptions busyDisk = Done Replaced fs1
    ∧ addSoundHook linuxEnv fresh2 "Stop" "~/a.wav" noOptions fs1 = Done AlreadyExists fs1.
Proof.
  eexists. split; [vm_compute; reflexivity|].
  eapply (add_again_is_noop linuxEnv fresh1 fresh2 "Stop" "~/a.wav" noOptions noOptions
            busyDisk Replaced); done.
Defined.

(** X13. On Windows no add is ever a no-op after an add that went through
    for the same event: whatever the two paths, the second add that
    returns reports a replacement and leaves exactly one managed group,
    its own. *)
Theorem add_again_on_windows env fresh fresh' event audioFile audioFile' options options'
    fs report fs1 report' fs2 :
  platform env = win32 ->
  addSoundHook env fresh event audioFile options fs = Done report fs1 ->
  report ≠ AlreadyExists ->
  addSoundHook env fresh' event audioFile' options' fs1 = Done report' fs2 ->
  report' = Replaced
  ∧ managedGroups (groupsOnDisk fs2 event)
    = [createAudioHook env fresh' event audioFile' options'].
Proof.
  intros Hwin Hrun Hreport Hrun'.
  rewrite addSoundHook_run in Hrun. passed_guards Hrun.
  destruct (findExistingAudioHook env _ audioFile); [by simplify_eq|].
  injection Hrun as <- <-.
  rewrite addSoundHook_run in Hrun'. passed_guards Hrun'.
  rewrite groupsOnDisk_written, getEventHooks_setEventHooks, decide_True in Hrun' by done.
  rewrite new_group_is_lost_on_windows in Hrun' by done.
  injection Hrun' as <- <-.
  rewrite managedGroups_app, managedGroups_unmanagedGroups. cbn [app].
  rewrite managedGroups_cons, createAudioHook_managed. split; [done|].
  rewrite groupsOnDisk_written, getEventHooks_setEventHooks, decide_True by done.
  rewrite managedGroups_app, managedGroups_unmanagedGroups. cbn [app].
  by rewrite managedGroups_cons, createAudioHook_managed.
Qed.

Lemma add_again_on_windows_witness :
  ∃ fs1 report' fs2,
    addSoundHook windowsEnv fresh1 "Stop" "C:\Users\u\a.wav" noOptions noSettings
    = Done Added fs1
    ∧ addSoundHook windowsEnv fresh2 "Stop" "C:\Users\u\a.wav" noOptions fs1
      = Done report' fs2
    ∧ report' = Replaced.
Proof.
  eexists _, _, _. split; [vm_compute; reflexivity|]. split; [vm_compute; reflexivity|].
  eapply (add_again_on_windows windowsEnv fresh1 fresh2 "Stop" "C:\Users\u\a.wav"
            "C:\Users\u\a.wav" noOptions noOptions noSettings Added).
  - reflexivity.
  - vm_compute. reflexivity.
  - discriminate.
  - vm_compute. reflexivity.
Defined.


(** ** Testing *)

Lemma foldl_ext_all {A B} (f g : A -> B -> A) (l : list B) a :
  (∀ x y, f x y = g x y) -> foldl f a l = foldl g a l.
Proof.
  intros H. revert a. induction l as [|y l IH]; intros a; [done|].
  cbn. by rewrite H, IH.
Qed.

Lemma testHook_dry env answer options t hook :
  dryRun options = true ->
  testHook (withExecSync env answer) options t hook = testHook env options t hook
  ∧ testHookOfAll (withExecSync env answer) options t hook
    = testHookOfAll env options t hook.
Proof.
  intros Hdry. unfold testHook, testHookOfAll. rewrite Hdry. cbn [negb].
  by change (validateAudioFile (withExecSync env answer)) with (validateAudioFile env).
Qed.

(** X14. In a dry run nothing is played: the report of [testSpecificEvent]
    and of [testAllEvents] is the same whatever the player would answer. *)
Theorem dry_run_plays_nothing env answer event options fs :
  dryRun options = true ->
  testSpecificEvent (withExecSync env answer) event options fs
  = testSpecificEvent env event options fs
  ∧ testAllEvents (withExecSync env answer) options fs = testAllEvents env options fs.
Proof.
  intros Hdry. split.
  - unfold testSpecificEvent. destruct (negb (includes VALID_EVENTS event)); [done|].
    rewrite !bind_run. destruct (readSettingsFile fs) as [config fs1|]; [|done].
    destruct (getEventHooks config event) as [config1 eventHooks].
    destruct (_ =? 0)%nat; [done|]. do 2 f_equal.
    apply foldl_ext_all. intros t g. apply foldl_ext_all. intros t' h.
    by apply testHook_dry.
  - unfold testAllEvents. rewrite !bind_run.
    destruct (readSettingsFile fs) as [config fs1|]; [|done].
    assert (foldl (testEventOfAll (withExecSync env answer) options)
              (config, emptyTally, 0) (default VALID_EVENTS (events options))
            = foldl (testEventOfAll env options)
                (config, emptyTally, 0) (default VALID_EVENTS (events options))) as ->;
      [|done].
    apply foldl_ext_all. intros [[c t] n] ev. unfold testEventOfAll.
    destruct (getEventHooks c ev) as [c1 eventHooks].
    destruct (_ =? 0)%nat; [done|]. do 2 f_equal.
    apply foldl_ext_all. intros t0 g. apply foldl_ext_all. intros t' h.
    by apply testHook_dry.
Qed.

Lemma dry_run_plays_nothing_witness :
  testSpecificEvent (withExecSync linuxEnv (λ _, false)) "Stop" quietOptions busyDisk
  = testSpecificEvent linuxEnv "Stop" quietOptions busyDisk.
Proof.
  exact (proj1 (dry_run_plays_nothing linuxEnv (λ _, false) "Stop" quietOptions busyDisk
                  eq_refl)).
Defined.

(** The two loops count alike. *)
Lemma testHook_tallies env options t t' hook :
  successCount t = successCount t' -> failureCount t = failureCount t' ->
  successCount (testHook env options t hook) = successCount (testHookOfAll env options t' hook)
  ∧ failureCount (testHook env options t hook)
    = failureCount (testHookOfAll env options t' hook).
Proof.
  intros Hs Hf. unfold testHook, testHookOfAll.
  destruct (String.eqb (hook_type hook) "command" && Js.truthy (command hook)); [|done].
  destruct (extractAudioFile (command hook)) as [f|];
    [|by destruct (verbose options)].
  destruct (Js.truthy f); [|by destruct (verbose options)].
  destruct (negb (exists_ (validateAudioFile env f)));
    [by destruct (verbose options); cbn; rewrite ?Hs, ?Hf|].
  destruct (negb (dryRun options)); [destruct (execSync env (command hook))|];
    destruct (verbose options), (showCommand options); cbn; by rewrite ?Hs, ?Hf.
Qed.

Lemma testHooks_tallies env options hs : ∀ t t',
  successCount t = successCount t' -> failureCount t = failureCount t' ->
  successCount (foldl (testHook env options) t hs)
  = successCount (foldl (testHookOfAll env options) t' hs)
  ∧ failureCount (foldl (testHook env options) t hs)
    = failureCount (foldl (testHookOfAll env options) t' hs).
Proof.
  induction hs as [|h hs IH]; intros t t' Hs Hf; [done|].
  cbn [foldl]. destruct (testHook_tallies env options t t' h Hs Hf). by apply IH.
Qed.

Lemma testGroups_tallies env options gs : ∀ t t',
  successCount t = successCount t' -> failureCount t = failureCount t' ->
  successCount (foldl (λ t g, foldl (testHook env options) t (hooks g)) t gs)
  = successCount (foldl (λ t g, foldl (testHookOfAll env options) t (hooks g)) t' gs)
  ∧ failureCount (foldl (λ t g, foldl (testHook env options) t (hooks g)) t gs)
    = failureCount (foldl (λ t g, foldl (testHookOfAll env options) t (hooks g)) t' gs).
Proof.
  induction gs as [|g gs IH]; intros t t' Hs Hf; [done|].
  cbn [foldl]. destruct (testHooks_tallies env options (hooks g) t t' Hs Hf). by apply IH.
Qed.

Lemma testSpecificEvent_run env event options fs :
  testSpecificEvent env event options fs =
  if negb (includes VALID_EVENTS event) then Exit 1 (InvalidEvent event) fs
  else if negb (parsable fs) then Exit 1 SettingsParseError (ensureDir fs)
  else
    let ccsoundHooks := managedGroups (groupsOnDisk fs event) in
    if (length ccsoundHooks =? 0)%nat then Done NoHooksToTest (loadedFS fs)
    else Done (TestResults
                 (foldl (λ t hookGroup, foldl (testHook env options) t (hooks hookGroup))
                        emptyTally ccsoundHooks))
              (loadedFS fs).
Proof.
  unfold testSpecificEvent.
  destruct (negb (includes VALID_EVENTS event)); [done|].
  rewrite bind_run.
  destruct (parsable fs) eqn:P; cbn [negb].
  - rewrite (readSettingsFile_parsable _ P).
    destruct (getEventHooks (loadedConfig fs) event) as [config eventHooks] eqn:G.
    assert (eventHooks = groupsOnDisk fs event) as ->
      by (rewrite <- groupsOnDisk_loaded, G; done).
    cbn zeta. fold (managedGroups (groupsOnDisk fs event)).
    by destruct (_ =? 0)%nat.
  - by rewrite (readSettingsFile_unparsable _ P).
Qed.

Lemma testEventOfAll_step env options config t n event :
  testEventOfAll env options (config, t, n) event
  = let ccsoundHooks := managedGroups (getEventHooks config event).2 in
    if (length ccsoundHooks =? 0)%nat
    then (ensureHooksStructure config,
          (if verbose options then say (NoHooksConfigured event) t else t), n)
    else (ensureHooksStructure config,
          foldl (λ t hookGroup, foldl (testHookOfAll env options) t (hooks hookGroup))
                (say (EventHeader event) t) ccsoundHooks,
          S n).
Proof. reflexivity. Qed.

Lemma testAllEvents_run env options fs :
  testAllEvents env options fs =
  if negb (parsable fs) then Exit 1 SettingsParseError (ensureDir fs)
  else
    let '(_, t, testedEvents) :=
      foldl (testEventOfAll env options) (loadedConfig fs, emptyTally, 0%nat)
            (default VALID_EVENTS (events options)) in
    if (testedEvents =? 0)%nat then Done (NothingToTest (lines t)) (loadedFS fs)
    else Done (AllResults t testedEvents) (loadedFS fs).
Proof.
  unfold testAllEvents. rewrite bind_run.
  destruct (parsable fs) eqn:P; cbn [negb].
  - rewrite (readSettingsFile_parsable _ P).
    destruct (foldl _ _ _) as [[c t] n]. by destruct (_ =? 0)%nat.
  - by rewrite (readSettingsFile_unparsable _ P).
Qed.

(** X15. For a recognized event, [testAllEvents] restricted to that event
    and [testSpecificEvent] agree: both find nothing to test, or both test
    and count the same successes and the same failures; both leave the
    files as loading leaves them. *)
Theorem test_one_event_two_ways env event options fs :
  event ∈ VALID_EVENTS ->
  parsable fs = true ->
  (∃ printed,
      testSpecificEvent env event options fs = Done NoHooksToTest (loadedFS fs)
      ∧ testAllEvents env (onlyEvents options [event]) fs
        = Done (NothingToTest printed) (loadedFS fs)
      ∧ managedGroups (groupsOnDisk fs event) = [])
  ∨ (∃ t t',
      testSpecificEvent env event options fs = Done (TestResults t) (loadedFS fs)
      ∧ testAllEvents env (onlyEvents options [event]) fs
        = Done (AllResults t' 1) (loadedFS fs)
      ∧ successCount t' = successCount t
      ∧ failureCount t' = failureCount t).
Proof.
  intros Hev%includes_elem_of Hp.
  rewrite testSpecificEvent_run, testAllEvents_run, Hev, Hp. cbn [negb]. cbn zeta.
  change (default VALID_EVENTS (events (onlyEvents options [event]))) with [event].
  cbn [foldl]. rewrite testEventOfAll_step, groupsOnDisk_loaded. cbn zeta.
  change (testHookOfAll env (onlyEvents options [event])) with (testHookOfAll env options).
  destruct (managedGroups (groupsOnDisk fs event)) as [|g gs] eqn:Hm;
    cbn [length Nat.eqb].
  - left. eexists. by split_and!.
  - right. eexists _, _. split_and!; try done.
    + symmetry. by apply testGroups_tallies.
    + symmetry. by apply testGroups_tallies.
Qed.

Lemma test_one_event_two_ways_witness :
  ∃ t t',
    testSpecificEvent linuxEnv "Stop" quietOptions busyDisk = Done (TestResults t) busyDisk
    ∧ testAllEvents linuxEnv (onlyEvents quietOptions ["Stop"]) busyDisk
      = Done (AllResults t' 1) busyDisk
    ∧ successCount t' = successCount t.
Proof.
  destruct (test_one_event_two_ways linuxEnv "Stop" quietOptions busyDisk)
    as [(printed & _ & _ & Hnone) | (t & t' & H1 & H2 & Hs & _)].
  - by apply includes_elem_of.
  - reflexivity.
  - discriminate Hnone.
  - exists t, t'. exact (conj H1 (conj H2 Hs)).
Defined.

(** The files after a confirmed clear: as loaded, or one written document;
    in both cases the five events hold their unmanaged groups. *)
Lemma clearAllHooks_clears_the_five_run fs :
  parsable fs = true ->
  ∃ report fs',
    clearAllHooks true fs = Done report fs'
    ∧ (∀ event, event ∈ VALID_EVENTS ->
         groupsOnDisk fs' event = unmanagedGroups (groupsOnDisk fs event))
    ∧ (fs' = loadedFS fs ∨ ∃ config, fs' = written config).
Proof.
  intros Hp. rewrite clearAllHooks_run, Hp. cbn [negb].
  destruct (clearEvents_fold VALID_EVENTS (loadedConfig fs) 0 VALID_EVENTS_NoDup)
    as [Hsum Hgroups].
  rewrite managedOnDisk_loaded in Hsum.
  destruct (foldl clearEvent _ _) as [config totalRemoved]. cbn [fst snd] in *.
  rewrite Nat.add_0_l in Hsum.
  destruct totalRemoved as [|k]; cbn [Nat.eqb]; eexists _, _; (split; [done|]).
  - split; [|by left]. intros event Hin. rewrite groupsOnDisk_loadedFS.
    symmetry. apply unmanagedGroups_all. by apply (managedOnDisk_zero fs VALID_EVENTS).
  - split; [|right; by eexists]. intros event Hin.
    rewrite groupsOnDisk_written, Hgroups, decide_True by done.
    by rewrite groupsOnDisk_loaded.
Qed.

(** ** Commands that only read *)

Lemma onlyLoaded_loadedFS fs : onlyLoaded fs (loadedFS fs).
Proof.
  unfold onlyLoaded, loadedFS. split.
  - intros content E. by rewrite E.
  - intros E. by rewrite E.
Qed.

Lemma onlyLoaded_unparsable fs : parsable fs = false -> onlyLoaded fs (ensureDir fs).
Proof.
  unfold onlyLoaded, parsable. intros Hp. split; [done|].
  intros E. by rewrite E in Hp.
Qed.

(** X16. [listHooks], [testSpecificEvent] and [testAllEvents] never change
    a settings file that exists, whether it parses or not, nor its backup
    or temporary file; when there is no settings file they leave one that
    holds the empty document. *)
Theorem readers_only_load env event options fs :
  onlyLoaded fs (finalFS (listHooks fs))
  ∧ (event ∈ VALID_EVENTS -> onlyLoaded fs (finalFS (testSpecificEvent env event options fs)))
  ∧ onlyLoaded fs (finalFS (testAllEvents env options fs)).
Proof.
  split_and!.
  - unfold listHooks. rewrite bind_run.
    destruct (parsable fs) eqn:Hp.
    + rewrite (readSettingsFile_parsable _ Hp). apply onlyLoaded_loadedFS.
    + rewrite (readSettingsFile_unparsable _ Hp). by apply onlyLoaded_unparsable.
  - intros Hev%includes_elem_of. rewrite testSpecificEvent_run, Hev. cbn [negb].
    destruct (parsable fs) eqn:Hp; cbn [negb finalFS]; [|by apply onlyLoaded_unparsable].
    cbn zeta. destruct (_ =? 0)%nat; apply onlyLoaded_loadedFS.
  - rewrite testAllEvents_run.
    destruct (parsable fs) eqn:Hp; cbn [negb finalFS]; [|by apply onlyLoaded_unparsable].
    destruct (foldl _ _ _) as [[c t] n]. destruct (_ =? 0)%nat; apply onlyLoaded_loadedFS.
Qed.

Lemma readers_only_load_witness :
  settingsFile (finalFS (testSpecificEvent linuxEnv "Stop" quietOptions litteredDisk))
  = Some (Unparsable "{")
  ∧ finalFS (listHooks noSettings) = written defaultSettings.
Proof.
  destruct (readers_only_load linuxEnv "Stop" quietOptions litteredDisk)
    as (_ & Htest & _).
  destruct (readers_only_load linuxEnv "Stop" quietOptions noSettings) as ([_ Hlist] & _).
  split.
  - apply (proj1 (Htest ltac:(by apply includes_elem_of)) (Unparsable "{") eq_refl).
  - apply Hlist. reflexivity.
Defined.

(** ** Clearing again, removing by the menu *)

Lemma managedOnDisk_none fs (events : list string) :
  (∀ event, event ∈ events -> managedGroups (groupsOnDisk fs event) = []) ->
  managedOnDisk fs events = 0.
Proof.
  unfold managedOnDisk. induction events as [|e events IH]; intros H; [done|].
  cbn. rewrite (H e) by (by left). cbn. apply IH. intros e' He'. apply H. by right.
Qed.

(** X17. After a confirmed [clearAllHooks] that returned, a second one
    finds nothing to clear and leaves the files as they are. *)
Theorem clear_twice fs report fs1 :
  clearAllHooks true fs = Done report fs1 ->
  clearAllHooks true fs1 = Done NothingToClear fs1.
Proof.
  intros Hrun.
  assert (parsable fs = true) as Hp.
  { rewrite clearAllHooks_run in Hrun. cbn [negb] in Hrun. by destruct (parsable fs). }
  destruct (clearAllHooks_clears_the_five_run fs Hp) as (report0 & fs0 & Hrun0 & Hfive & Hfs).
  rewrite Hrun in Hrun0. injection Hrun0 as <- <-.
  assert (managedOnDisk fs1 VALID_EVENTS = 0) as Hzero.
  { apply managedOnDisk_none. intros e He. rewrite Hfive by done.
    apply managedGroups_unmanagedGroups. }
  assert (parsable fs1 = true) as Hp1 by (destruct Hfs as [-> | [c ->]]; [by apply parsable_loadedFS|done]).
  rewrite clearAllHooks_run, Hp1. cbn [negb].
  destruct (clearEvents_fold VALID_EVENTS (loadedConfig fs1) 0 VALID_EVENTS_NoDup)
    as [Hsum _].
  rewrite managedOnDisk_loaded, Hzero in Hsum.
  destruct (foldl clearEvent _ _) as [config totalRemoved]. cbn [fst snd] in *.
  subst totalRemoved. cbn [Nat.eqb Nat.add].
  destruct Hfs as [-> | [c ->]]; [by rewrite loadedFS_idemp|done].
Qed.

Lemma clear_twice_witness :
  ∃ fs1, clearAllHooks true busyDisk = Done (Cleared 2) fs1
         ∧ clearAllHooks true fs1 = Done NothingToClear fs1.
Proof.
  eexists. split; [vm_compute; reflexivity|].
  eapply (clear_twice busyDisk (Cleared 2)). vm_compute. reflexivity.
Defined.

Lemma elem_of_eventsWithHooks config event :
  event ∈ eventsWithHooks config
  <-> event ∈ VALID_EVENTS ∧ managedGroups (getEventHooks config event).2 ≠ [].
Proof.
  unfold eventsWithHooks, findExistingccsoundHooks. rewrite list_elem_of_filter.
  fold (managedGroups (getEventHooks config event).2).
  destruct (managedGroups (getEventHooks config event).2); cbn; split;
    intros [H1 H2]; split; try done; lia.
Qed.

(** X18. [interactiveRemove] offers exactly the recognized events that
    have a managed group, in the order of the five events: an event is in
    the list handed to the menu if and only if it is one of the five and
    holds a managed group.  When the list is empty nothing is asked and
    nothing removed; otherwise, for whichever offered event the menu
    answers, the removal goes through for that event: it reports at least
    one group removed, never an invalid event or an empty removal, and
    leaves the unmanaged groups of that event. *)
Theorem interactiveRemove_removes prompt fs :
  parsable fs = true ->
  let offered :=
    filter (λ event, (0 < length (managedGroups (groupsOnDisk fs event)))%nat)
           VALID_EVENTS in
  (∀ event, event ∈ offered
            <-> event ∈ VALID_EVENTS ∧ managedGroups (groupsOnDisk fs event) ≠ [])
  ∧ (offered = [] ->
     interactiveRemove prompt fs = Done NothingToRemove (loadedFS fs)
     ∧ managedOnDisk fs VALID_EVENTS = 0)
  ∧ (offered ≠ [] -> prompt offered ∈ offered ->
     ∃ n fs',
       interactiveRemove prompt fs
       = Done (RemovedFor (prompt offered) (Removed (S n))) fs'
       ∧ prompt offered ∈ VALID_EVENTS
       ∧ length (managedGroups (groupsOnDisk fs (prompt offered))) = S n
       ∧ groupsOnDisk fs' (prompt offered)
         = unmanagedGroups (groupsOnDisk fs (prompt offered))).
Proof.
  intros Hp offered.
  assert (eventsWithHooks (loadedConfig fs) = offered) as Hoffered.
  { unfold eventsWithHooks, offered. apply list_filter_iff. intros event.
    unfold findExistingccsoundHooks. fold (managedGroups (getEventHooks (loadedConfig fs) event).2).
    by rewrite groupsOnDisk_loaded. }
  assert (∀ event, event ∈ offered
                   <-> event ∈ VALID_EVENTS ∧ managedGroups (groupsOnDisk fs event) ≠ [])
    as Hiff.
  { intros event. rewrite <-Hoffered, elem_of_eventsWithHooks.
    by rewrite groupsOnDisk_loaded. }
  split; [exact Hiff|]. unfold interactiveRemove.
  rewrite bind_run, (readSettingsFile_parsable _ Hp), Hoffered. split.
  - intros Hnone. rewrite Hnone. split; [done|]. apply managedOnDisk_none. intros event Hev.
    destruct (managedGroups (groupsOnDisk fs event)) as [|g gs] eqn:Hm; [done|].
    assert (event ∈ offered) as Hin by (apply Hiff; by rewrite Hm).
    rewrite Hnone in Hin. by apply elem_of_nil in Hin.
  - intros Hsome Hanswer. destruct (Hiff (prompt offered)) as [Hin _].
    destruct (Hin Hanswer) as [Hev Hm].
    destruct offered as [|e rest] eqn:Hlist; [done|]. rewrite <-Hlist in *.
    rewrite bind_run, removeHooks_run.
    rewrite (proj2 (includes_elem_of _ _) Hev), parsable_loadedFS by done.
    cbn [negb]. cbn zeta. rewrite groupsOnDisk_loadedFS.
    destruct (managedGroups (groupsOnDisk fs (prompt offered))) as [|g gs] eqn:Hgs; [done|].
    cbn [length Nat.eqb]. eexists _, _. split_and!; try done.
    by rewrite groupsOnDisk_written, getEventHooks_setEventHooks, decide_True.
Qed.

Lemma interactiveRemove_removes_witness :
  ∃ fs',
    interactiveRemove (λ offered, default "" (last offered)) twoEventsDisk
    = Done (RemovedFor "PostToolUse" (Removed 1)) fs'
    ∧ groupsOnDisk fs' "PostToolUse" = []
    ∧ groupsOnDisk fs' "Stop" = twoManagedOneForeign.
Proof.
  destruct (proj2 (proj2 (interactiveRemove_removes (λ offered, default "" (last offered))
                            twoEventsDisk eq_refl)))
    as (n & fs' & Hrun & _ & Hlen & Hgroups).
  - discriminate.
  - apply elem_of_cons. right. apply elem_of_cons. by left.
  - exists fs'. vm_compute in Hlen. injection Hlen as <-.
    split; [exact Hrun|]. split; [exact Hgroups|].
    vm_compute in Hrun. injection Hrun as <-. reflexivity.
Defined.

(** ** The commands *)

Lemma addEach_never_invalid env fresh entries options : ∀ k fs status event fs',
  Forall (λ ef, ef.1 ∈ VALID_EVENTS) entries ->
  addEach env fresh k entries options fs ≠ Exit status (InvalidEvent event) fs'.
Proof.
  induction entries as [|[e f] rest IH]; intros k fs status event fs' Hvalid; [done|].
  apply Forall_cons in Hvalid as [He%includes_elem_of Hrest]. cbn [fst] in He.
  rewrite addEach_cons, addSoundHook_run, He. cbn [negb].
  destruct (negb (access env _)); [done|].
  destruct (negb (parsable fs)); [done|]. cbn zeta.
  destruct (findExistingAudioHook env _ f).
  - specialize (IH (S k) (loadedFS fs) status event fs' Hrest).
    by destruct (addEach env fresh (S k) rest options (loadedFS fs)).
  - match goal with
    | |- context [addEach env fresh (S k) rest options ?fs1] =>
        specialize (IH (S k) fs1 status event fs' Hrest);
        by destruct (addEach env fresh (S k) rest options fs1)
    end.
Qed.

Lemma presetEntries_valid env presetName :
  Forall (λ ef, ef.1 ∈ VALID_EVENTS) (presetEntries env presetName).
Proof.
  destruct presetName; unfold presetEntries;
    repeat (apply Forall_cons_2; [by apply includes_elem_of|]); apply Forall_nil_2.
Qed.

Lemma addEach_status env fresh entries options : ∀ k fs status why fs',
  addEach env fresh k entries options fs = Exit status why fs' -> status = 1.
Proof.
  induction entries as [|[e f] rest IH]; intros k fs status why fs' Hrun; [done|].
  rewrite addEach_cons in Hrun.
  destruct (addSoundHook env (fresh k) e f options fs) as [r fs1|s w fs1] eqn:Hadd.
  - destruct (addEach env fresh (S k) rest options fs1) as [|s w fs2] eqn:Hrest; [done|].
    injection Hrun as -> -> ->. by eapply IH.
  - injection Hrun as -> -> ->. rewrite addSoundHook_run in Hadd.
    destruct (negb (includes VALID_EVENTS e)); [by simplify_eq|].
    destruct (negb (access env _)); [by simplify_eq|].
    destruct (negb (parsable fs)); [by simplify_eq|].
    cbn zeta in Hadd. by destruct (findExistingAudioHook env _ f).
Qed.

(** X19. The [preset] command refuses every name but minimal, complete and
    development with the invalid-preset error, exit status 1 and the files
    untouched.  For one of the three names it runs the preset; if that
    fails the status is 1 and the error is a missing audio file or
    settings that do not parse, never an invalid event. *)
Theorem presetCommand_outcomes env fresh presetName fs :
  (presetName ∉ ["minimal"; "complete"; "development"] ->
   presetCommand env fresh presetName fs = Aborted 1 (InvalidPreset presetName) fs)
  ∧ (presetName ∈ ["minimal"; "complete"; "development"] ->
     (∃ reports fs', presetCommand env fresh presetName fs = Completed reports fs')
     ∨ (∃ audioFile fs',
          presetCommand env fresh presetName fs
          = Aborted 1 (Library (AudioFileNotFound audioFile)) fs')
     ∨ (∃ fs', presetCommand env fresh presetName fs
               = Aborted 1 (Library SettingsParseError) fs')).
Proof.
  unfold presetCommand, validPreset. split.
  - intros Hnot.
    destruct (String.eqb_spec presetName "minimal") as [->|_];
      [exfalso; apply Hnot; by apply includes_elem_of|].
    destruct (String.eqb_spec presetName "complete") as [->|_];
      [exfalso; apply Hnot; by apply includes_elem_of|].
    destruct (String.eqb_spec presetName "development") as [->|_];
      [exfalso; apply Hnot; by apply includes_elem_of|].
    done.
  - intros Hin.
    assert (∀ name, (∃ reports fs', library (applyPreset env fresh name fs)
                                    = Completed reports fs')
                    ∨ (∃ audioFile fs', library (applyPreset env fresh name fs)
                                        = Aborted 1 (Library (AudioFileNotFound audioFile)) fs')
                    ∨ (∃ fs', library (applyPreset env fresh name fs)
                              = Aborted 1 (Library SettingsParseError) fs')) as Hrun.
    { intros name. unfold applyPreset.
      destruct (addEach env fresh 0 (presetEntries env name) {| matcher := None |} fs)
        as [reports fs'|status why fs'] eqn:Hrun; cbn [library].
      - left. eauto.
      - rewrite (addEach_status _ _ _ _ _ _ _ _ _ Hrun). destruct why as [event|audioFile|].
        + exfalso. by eapply addEach_never_invalid; [apply presetEntries_valid|exact Hrun].
        + right. left. eauto.
        + right. right. eauto. }
    repeat (apply elem_of_cons in Hin as [->|Hin]; [apply Hrun|]).
    by apply elem_of_nil in Hin.
Qed.

Lemma presetCommand_outcomes_witness :
  presetCommand linuxEnv freshes "Minimal" busyDisk
  = Aborted 1 (InvalidPreset "Minimal") busyDisk.
Proof.
  apply (proj1 (presetCommand_outcomes linuxEnv freshes "Minimal" busyDisk)).
  by apply includes_not_elem_of.
Defined.

Lemma all_append p a b : Js.all p (a +:+ b) = Js.all p a && Js.all p b.
Proof. induction a as [|c a IH]; [done|]. cbn. rewrite IH. by destruct (p c). Qed.

Lemma all_weaken (p q : ascii -> bool) s :
  (∀ c, p c = true -> q c = true) -> Js.all p s = true -> Js.all q s = true.
Proof.
  intros Hpq. induction s as [|c s IH]; [done|]. cbn.
  intros [Hc Hs]%andb_true_iff. by rewrite (Hpq c Hc), IH.
Qed.

Lemma space_is_no_comma c : Js.isSpace c = true -> nonComma c = true.
Proof.
  unfold nonComma. destruct (Ascii.eqb_spec c ",") as [->|_]; [|done]. by vm_compute.
Qed.

Lemma split_no_separator sep s :
  Js.all (λ c, negb (Ascii.eqb c sep)) s = true -> Js.split sep s = [s].
Proof.
  induction s as [|c s IH]; [done|]. cbn. intros [Hc Hs]%andb_true_iff.
  destruct (Ascii.eqb c sep); [done|]. by rewrite IH.
Qed.

Lemma split_at_separator sep s rest :
  Js.all (λ c, negb (Ascii.eqb c sep)) s = true ->
  Js.split sep (s +:+ String sep rest) = s :: Js.split sep rest.
Proof.
  induction s as [|c s IH]; cbn.
  - intros _. by rewrite Ascii.eqb_refl.
  - intros [Hc Hs]%andb_true_iff. destruct (Ascii.eqb c sep); [done|]. by rewrite IH.
Qed.

Lemma split_join (xs : list string) :
  xs ≠ [] -> Forall (λ x, Js.all nonComma x = true) xs ->
  Js.split "," (NodePath.join "," xs) = xs.
Proof.
  induction xs as [|x xs IH]; [done|]. intros _ [Hx Hxs]%Forall_cons.
  destruct xs as [|y xs].
  - by apply split_no_separator.
  - change (NodePath.join "," (x :: y :: xs))
      with (x +:+ String "," (NodePath.join "," (y :: xs))).
    rewrite split_at_separator by done. by rewrite IH.
Qed.

Lemma trimStart_blanks l s : blanks l -> JsText.trimStart (l +:+ s) = JsText.trimStart s.
Proof.
  unfold blanks. induction l as [|c l IH]; [done|]. cbn.
  intros [Hc Hl]%andb_true_iff. rewrite Hc. by apply IH.
Qed.

Lemma trimStart_started s : startsNonSpace s = true -> JsText.trimStart s = s.
Proof.
  destruct s as [|c s]; [done|]. cbn. unfold Js.nonSpace.
  by destruct (Js.isSpace c).
Qed.

Lemma trimEnd_blanks s r : blanks r -> JsText.trimEnd (s +:+ r) = JsText.trimEnd s.
Proof.
  unfold blanks. intros Hr. induction s as [|c s IH].
  - cbn. induction r as [|d r IHr]; [done|]. cbn in *.
    apply andb_true_iff in Hr as [Hd Hr]. by rewrite IHr, Hd.
  - cbn. by rewrite IH.
Qed.

Lemma trimEnd_ended s : endsNonSpace s = true -> JsText.trimEnd s = s.
Proof.
  induction s as [|c s IH]; [done|]. destruct s as [|d s].
  - cbn. unfold Js.nonSpace. by destruct (Js.isSpace c).
  - intros H. change (endsNonSpace (String c (String d s))) with (endsNonSpace (String d s)) in H.
    cbn [JsText.trimEnd] in *. by rewrite (IH H).
Qed.

Lemma trim_padded l n r :
  blanks l -> tidyName n -> blanks r -> JsText.trim (l +:+ n +:+ r) = n.
Proof.
  intros Hl (_ & Hstart & Hend) Hr. unfold JsText.trim.
  rewrite trimStart_blanks by done.
  rewrite trimStart_started by (destruct n; [done|exact Hstart]).
  rewrite trimEnd_blanks by done. by apply trimEnd_ended.
Qed.

(** X20. The list of events of [add-sound]: for names without comma and
    without blank at either end, written with any blanks around them and
    commas between them, the command runs the adds of those names, in
    order, with the file and the matcher given; the option [--event] is
    not looked at.  Without a file, or without any event, the command
    exits with status 1 and the files untouched. *)
Theorem addSoundCommand_events_list env fresh file m unused padded fs :
  file ≠ "" ->
  padded ≠ [] ->
  Forall (λ lnr, blanks lnr.1.1 ∧ tidyName lnr.1.2 ∧ blanks lnr.2) padded ->
  addSoundCommand env fresh
    {| arg_file := Some file; arg_event := unused;
       arg_events := Some (NodePath.join "," (paddedName <$> padded));
       arg_matcher := m |} fs
  = library (addEach env fresh 0 ((λ lnr, (lnr.1.2, file)) <$> padded)
               {| matcher := m |} fs)
  ∧ addSoundCommand env fresh
      {| arg_file := None; arg_event := unused;
         arg_events := Some (NodePath.join "," (paddedName <$> padded));
         arg_matcher := m |} fs
    = Aborted 1 FileOptionRequired fs
  ∧ addSoundCommand env fresh
      {| arg_file := Some file; arg_event := None; arg_events := None;
         arg_matcher := m |} fs
    = Aborted 1 EventOptionRequired fs.
Proof.
  intros Hfile Hne Hpadded. split; [|split].
  2: reflexivity.
  2: { unfold addSoundCommand. cbn [arg_file truthyOption].
       by rewrite (proj2 (truthy_nonempty file) Hfile). }
  assert (Forall (λ x, Js.all nonComma x = true) (paddedName <$> padded)) as Hcommas.
  { apply Forall_fmap. eapply Forall_impl; [exact Hpadded|].
    intros [[l n] r] (Hl & (Hn & _) & Hr). unfold compose, paddedName. cbn [fst snd] in *.
    rewrite !all_append, Hn.
    rewrite (all_weaken _ _ l space_is_no_comma Hl), (all_weaken _ _ r space_is_no_comma Hr).
    done. }
  assert (Js.truthy (NodePath.join "," (paddedName <$> padded)) = true) as Htruthy.
  { destruct padded as [|[[l n] r] rest]; [done|].
    apply Forall_cons in Hpadded as [(_ & (_ & Hstart & _) & _) _]. cbn [fst snd] in Hstart.
    apply truthy_nonempty. cbn [fmap list_fmap paddedName fst snd].
    destruct n as [|c n]; [done|].
    destruct rest; cbn; by destruct l. }
  assert (requestedEvents
            {| arg_file := Some file; arg_event := unused;
               arg_events := Some (NodePath.join "," (paddedName <$> padded));
               arg_matcher := m |}
          = (λ lnr, Some lnr.1.2) <$> padded) as Hevents.
  { unfold requestedEvents. cbn [arg_events truthyOption]. rewrite Htruthy.
    change (default "" (Some (NodePath.join "," (paddedName <$> padded))))
      with (NodePath.join "," (paddedName <$> padded)).
    rewrite split_join by (try done; by destruct padded).
    rewrite <- list_fmap_compose. apply Forall_fmap_ext_1.
    eapply Forall_impl; [exact Hpadded|].
    intros [[l n] r] (Hl & Hn & Hr). cbn. f_equal. by apply trim_padded. }
  unfold addSoundCommand. cbn [arg_file truthyOption arg_matcher default].
  rewrite (proj2 (truthy_nonempty file) Hfile). cbn [negb]. cbn zeta.
  rewrite Hevents.
  assert (truthyOption (mjoin (head ((λ lnr, Some lnr.1.2) <$> padded))) = true) as ->.
  { destruct padded as [|[[l n] r] rest]; [done|].
    apply Forall_cons in Hpadded as [(_ & (_ & Hstart & _) & _) _]. cbn in *.
    by destruct n. }
  cbn [negb]. by rewrite <- list_fmap_compose.
Qed.

Lemma addSoundCommand_events_list_witness :
  addSoundCommand linuxEnv freshes
    {| arg_file := Some "/sounds/c.wav"; arg_event := Some "Bogus";
       arg_events := Some "Stop , Notification"; arg_matcher := None |} busyDisk
  = library (addEach linuxEnv freshes 0
               [("Stop", "/sounds/c.wav"); ("Notification", "/sounds/c.wav")]
               {| matcher := None |} busyDisk).
Proof.
  apply (addSoundCommand_events_list linuxEnv freshes "/sounds/c.wav" None (Some "Bogus")
           [("", "Stop", " "); (" ", "Notification", "")] busyDisk).
  - done.
  - done.
  - repeat (apply Forall_cons_2; [by vm_compute|]). apply Forall_nil_2.
Defined.

(** ** Testing what was added *)

(** X21. Off Windows, for a path whose expansion is not empty, holds no
    double quote and does not start with a tilde again: after an add that
    went through, [testSpecificEvent] for the event tests exactly the new
    hook and finds its file.  It prints one result line for the expanded
    path (skipped in a dry run, passed or failed by the player otherwise),
    counts one success or one playback failure, and leaves the files as the
    add left them. *)
Theorem add_then_test env fresh event audioFile options options' fs report fs1 :
  platform env ≠ win32 ->
  expandHome (HOME env) audioFile ≠ "" ->
  Js.all Js.nonQuote (expandHome (HOME env) audioFile) = true ->
  expandHome (HOME env) (expandHome (HOME env) audioFile) = expandHome (HOME env) audioFile ->
  addSoundHook env fresh event audioFile options fs = Done report fs1 ->
  report ≠ AlreadyExists ->
  let expandedPath := expandHome (HOME env) audioFile in
  let cmd := getAudioPlayer env +:+ " " +:+ Js.quoted expandedPath in
  let played := dryRun options' || execSync env cmd in
  testSpecificEvent env event options' fs1
  = Done (TestResults {| lines := linesOfFound env options' cmd expandedPath;
                         successCount := if played then 1 else 0;
                         failureCount := if played then 0 else 1 |}) fs1.
Proof.
  intros Hplatform Hne Hall Hidem Hrun Hreport expandedPath cmd played.
  rewrite addSoundHook_run in Hrun. passed_guards Hrun.
  destruct (findExistingAudioHook env _ audioFile); [by simplify_eq|].
  injection Hrun as <- <-.
  rewrite testSpecificEvent_run.
  match goal with E : includes _ _ = true |- _ => rewrite E end.
  cbn [negb parsable written settingsFile]. cbn zeta.
  rewrite groupsOnDisk_written, getEventHooks_setEventHooks, decide_True by done.
  rewrite managedGroups_app, managedGroups_unmanagedGroups. cbn [app].
  rewrite managedGroups_cons, createAudioHook_managed.
  cbn [managedGroups length Nat.eqb foldl]. rewrite createAudioHook_hooks.
  cbn [foldl]. rewrite loadedFS_written. do 2 f_equal.
  unfold testHook. cbn [hook_type command].
  fold expandedPath. fold cmd.
  assert (Js.truthy cmd = true) as ->.
  { apply truthy_nonempty, append_nonempty. by destruct (player_is_a_word env). }
  cbn [String.eqb Ascii.eqb Bool.eqb andb].
  unfold extractAudioFile. subst cmd. rewrite firstQuoted_after_player by done.
  cbn [default from_option].
  assert (Js.truthy expandedPath = true) as -> by by apply truthy_nonempty.
  unfold validateAudioFile. subst expandedPath. rewrite Hidem.
  match goal with E : access _ _ = true |- _ => rewrite E end.
  cbn [exists_ negb]. subst played. unfold linesOfFound.
  destruct (verbose options'), (showCommand options'), (dryRun options');
    cbn [orb negb]; try done;
    by destruct (execSync env _).
Qed.

(** X22. On Windows, after an add that went through, [testSpecificEvent]
    for the event looks for a file named by the text of the player script,
    not for the audio file: unless such a file is reachable, it reports the
    new hook as failed with its file not found, whatever the path added
    and whatever the options, and plays nothing. *)
Theorem add_then_test_on_windows env fresh event audioFile options options' fs report fs1 :
  platform env = win32 ->
  addSoundHook env fresh event audioFile options fs = Done report fs1 ->
  report ≠ AlreadyExists ->
  access env (resolve env windowsScript) = false ->
  testSpecificEvent env event options' fs1
  = Done (TestResults
            {| lines := (if verbose options' then [Testing (Some windowsScript)] else [])
                        ++ [FailNotFound windowsScript];
               successCount := 0; failureCount := 1 |}) fs1.
Proof.
  intros Hplatform Hrun Hreport Hscript.
  rewrite addSoundHook_run in Hrun. passed_guards Hrun.
  destruct (findExistingAudioHook env _ audioFile); [by simplify_eq|].
  injection Hrun as <- <-.
  rewrite testSpecificEvent_run.
  match goal with E : includes _ _ = true |- _ => rewrite E end.
  cbn [negb parsable written settingsFile]. cbn zeta.
  rewrite groupsOnDisk_written, getEventHooks_setEventHooks, decide_True by done.
  rewrite managedGroups_app, managedGroups_unmanagedGroups. cbn [app].
  rewrite managedGroups_cons, createAudioHook_managed.
  cbn [managedGroups length Nat.eqb foldl]. rewrite createAudioHook_hooks.
  cbn [foldl]. rewrite loadedFS_written. do 2 f_equal.
  unfold testHook. cbn [hook_type command].
  unfold getAudioPlayer. rewrite Hplatform.
  match goal with
  | |- context [extractAudioFile ?c] =>
      assert (extractAudioFile c = Some windowsScript) as -> by done
  end.
  cbn [String.eqb Ascii.eqb Bool.eqb andb Js.truthy String.append].
  unfold validateAudioFile.
  change (expandHome (HOME env) windowsScript) with windowsScript.
  rewrite Hscript. cbn [exists_ negb].
  by destruct (verbose options').
Qed.

Lemma add_then_test_witness :
  ∃ fs1,
    addSoundHook linuxEnv fresh1 "Stop" "~/a.wav" noOptions busyDisk = Done Replaced fs1
    ∧ testSpecificEvent linuxEnv "Stop" quietOptions fs1
      = Done (TestResults {| lines := [Skip "/home/u/a.wav"];
                             successCount := 1; failureCount := 0 |}) fs1.
Proof.
  eexists. split; [vm_compute; reflexivity|].
  refine (add_then_test linuxEnv fresh1 "Stop" "~/a.wav" noOptions quietOptions busyDisk
            Replaced _ _ _ _ _ _ _); try done.
Defined.

Lemma add_then_test_on_windows_witness :
  ∃ fs1,
    addSoundHook oneSoundWindowsEnv fresh1 "Stop" "C:\Users\u\a.wav" noOptions noSettings
    = Done Added fs1
    ∧ testSpecificEvent oneSoundWindowsEnv "Stop" quietOptions fs1
      = Done (TestResults {| lines := [FailNotFound windowsScript];
                             successCount := 0; failureCount := 1 |}) fs1.
Proof.
  eexists. split; [vm_compute; reflexivity|].
  refine (add_then_test_on_windows oneSoundWindowsEnv fresh1 "Stop" "C:\Users\u\a.wav" noOptions
            quietOptions noSettings Added _ _ _ _ _); try done.
Defined.

(** ** The diagnostics *)

Lemma checkHook_app env event inv hook :
  checkHook env event inv hook = inv ++ missingOf env event hook.
Proof.
  unfold missingOf, checkHook.
  destruct (_ && _); [|by rewrite app_nil_r].
  destruct (extractAudioFile _) as [f|]; [|by rewrite app_nil_r].
  destruct (Js.truthy f); [|by rewrite app_nil_r].
  destruct (negb _); [done|by rewrite app_nil_r].
Qed.

Lemma checkHooks_fold env event hs : ∀ inv,
  foldl (checkHook env event) inv hs = inv ++ (hs ≫= missingOf env event).
Proof.
  induction hs as [|h hs IH]; intros inv; cbn [foldl mbind list_bind].
  - by rewrite app_nil_r.
  - by rewrite IH, checkHook_app, <-app_assoc.
Qed.

Lemma checkGroups_fold env event gs : ∀ n inv,
  foldl (checkGroup env event) (n, inv) gs
  = ((n + length (managedGroups gs))%nat,
     inv ++ (hookGroup ← managedGroups gs; hooks hookGroup ≫= missingOf env event)).
Proof.
  induction gs as [|g gs IH]; intros n inv.
  - change (managedGroups []) with (@nil HookGroup). cbn. by rewrite Nat.add_0_r, app_nil_r.
  - cbn [foldl]. rewrite managedGroups_cons. unfold checkGroup at 2.
    destruct (isccsoundManaged g).
    + rewrite IH, checkHooks_fold. cbn [length mbind list_bind].
      rewrite <-app_assoc. f_equal. lia.
    + by rewrite IH.
Qed.

Lemma managedHooks_bind {A} config event (f : Hook -> list A) :
  (hookGroup ← managedGroups (getEventHooks config event).2; hooks hookGroup ≫= f)
  = managedHooks config event ≫= f.
Proof.
  unfold managedHooks. induction (managedGroups _) as [|g gs IH]; [done|].
  cbn [mbind list_bind]. by rewrite bind_app, IH.
Qed.

Lemma managedHooks_ensured config event :
  managedHooks (ensureHooksStructure config) event = managedHooks config event.
Proof. unfold managedHooks. by rewrite getEventHooks_ensured. Qed.

Lemma checkEvents_fold env evs : ∀ config n inv,
  ∃ config',
    foldl (checkEvent env) (config, (n, inv)) evs
    = (config',
       ((n + sum_list ((λ e, length (managedGroups (getEventHooks config e).2)) <$> evs))%nat,
        inv ++ (e ← evs; managedHooks config e ≫= missingOf env e)))
    ∧ ∀ e, managedHooks config' e = managedHooks config e.
Proof.
  induction evs as [|ev evs IH]; intros config n inv.
  - exists config. cbn. by rewrite Nat.add_0_r, app_nil_r.
  - cbn [foldl]. unfold checkEvent at 2.
    change (let '(config0, eventHooks) := getEventHooks config ev in
            (config0, foldl (checkGroup env ev) (n, inv) eventHooks))
      with (ensureHooksStructure config,
            foldl (checkGroup env ev) (n, inv) (getEventHooks config ev).2).
    rewrite checkGroups_fold, managedHooks_bind.
    destruct (IH (ensureHooksStructure config)
                 (n + length (managedGroups (getEventHooks config ev).2))%nat
                 (inv ++ (managedHooks config ev ≫= missingOf env ev)))
      as (config' & -> & Hsame).
    exists config'. split.
    + f_equal. f_equal.
      * cbn [fmap list_fmap sum_list]. rewrite <-Nat.add_assoc. do 2 f_equal.
        f_equal. apply list_fmap_ext. intros i e _. by rewrite getEventHooks_ensured.
      * cbn [mbind list_bind]. rewrite <-app_assoc. do 2 f_equal.
        apply list_bind_ext; [|done]. intros e. by rewrite managedHooks_ensured.
    + intros e. by rewrite Hsame, managedHooks_ensured.
Qed.

Lemma detailHook_app inv event printed hook :
  detailHook inv event printed hook = printed ++ detailOf inv event hook.
Proof.
  unfold detailOf, detailHook.
  destruct (String.eqb _ _); [|by rewrite app_nil_r].
  destruct (_ccsound hook) as [w|]; [|by rewrite app_nil_r].
  destruct (existsb _ _); by rewrite <-?app_assoc.
Qed.

Lemma detailHooks_fold inv event hs : ∀ printed,
  foldl (detailHook inv event) printed hs = printed ++ (hs ≫= detailOf inv event).
Proof.
  induction hs as [|h hs IH]; intros printed; cbn [foldl mbind list_bind].
  - by rewrite app_nil_r.
  - by rewrite IH, detailHook_app, <-app_assoc.
Qed.

Lemma detailGroups_fold inv event gs : ∀ printed,
  foldl (detailGroup inv event) printed gs
  = printed ++ (hookGroup ← managedGroups gs; hooks hookGroup ≫= detailOf inv event).
Proof.
  induction gs as [|g gs IH]; intros printed.
  - change (managedGroups []) with (@nil HookGroup). cbn. by rewrite app_nil_r.
  - cbn [foldl]. rewrite managedGroups_cons. unfold detailGroup at 2.
    destruct (isccsoundManaged g).
    + rewrite IH, detailHooks_fold. cbn [mbind list_bind]. by rewrite <-app_assoc.
    + by rewrite IH.
Qed.

Lemma detailEvents_fold inv evs : ∀ config printed,
  (foldl (detailEvent inv) (config, printed) evs).2
  = printed ++ (e ← evs; managedHooks config e ≫= detailOf inv e).
Proof.
  induction evs as [|ev evs IH]; intros config printed.
  - cbn. by rewrite app_nil_r.
  - cbn [foldl]. unfold detailEvent at 2.
    change (let '(config0, eventHooks) := getEventHooks config ev in
            (config0, foldl (detailGroup inv ev) printed eventHooks))
      with (ensureHooksStructure config,
            foldl (detailGroup inv ev) printed (getEventHooks config ev).2).
    rewrite IH, detailGroups_fold, managedHooks_bind.
    cbn [mbind list_bind]. rewrite <-app_assoc. do 2 f_equal.
    apply list_bind_ext; [|done]. intros e. by rewrite managedHooks_ensured.
Qed.

(** In a dry run the failures [testAllEvents] counts are the invalid hooks
    of the diagnostics. *)
Lemma testHookOfAll_dry env options event t hook :
  dryRun options = true ->
  failureCount (testHookOfAll env options t hook)
  = (failureCount t + length (missingOf env event hook))%nat.
Proof.
  intros Hdry. unfold testHookOfAll, missingOf, checkHook. rewrite Hdry.
  destruct (_ && _); [|cbn; lia].
  destruct (extractAudioFile _) as [f|]; [|cbn; lia].
  destruct (Js.truthy f); [|cbn; lia].
  destruct (negb _); cbn; [lia|].
  destruct (showCommand options); cbn; lia.
Qed.

Lemma testHooksOfAll_dry env options event hs : ∀ t,
  dryRun options = true ->
  failureCount (foldl (testHookOfAll env options) t hs)
  = (failureCount t + length (hs ≫= missingOf env event))%nat.
Proof.
  induction hs as [|h hs IH]; intros t Hdry; cbn [foldl mbind list_bind].
  - cbn. lia.
  - rewrite IH, (testHookOfAll_dry _ _ event), length_app by done. lia.
Qed.

Lemma testGroupsOfAll_dry env options event gs : ∀ t,
  dryRun options = true ->
  failureCount (foldl (λ t g, foldl (testHookOfAll env options) t (hooks g)) t gs)
  = (failureCount t + length (g ← gs; hooks g ≫= missingOf env event))%nat.
Proof.
  induction gs as [|g gs IH]; intros t Hdry; cbn [foldl mbind list_bind].
  - cbn. lia.
  - rewrite IH, (testHooksOfAll_dry _ _ event), length_app by done. lia.
Qed.

Lemma testEventsOfAll_dry env options evs : ∀ config t k,
  dryRun options = true ->
  let '(_, t', k') := foldl (testEventOfAll env options) (config, t, k) evs in
  failureCount t'
  = (failureCount t + length (e ← evs; managedHooks config e ≫= missingOf env e))%nat
  ∧ (k' = 0%nat
     <-> k = 0%nat
         ∧ sum_list ((λ e, length (managedGroups (getEventHooks config e).2)) <$> evs)
           = 0%nat).
Proof.
  induction evs as [|ev evs IH]; intros config t k Hdry.
  - cbn. split; [lia|]. lia.
  - cbn [foldl]. rewrite testEventOfAll_step. cbn zeta.
    destruct (length (managedGroups (getEventHooks config ev).2) =? 0)%nat eqn:Hlen.
    + apply Nat.eqb_eq in Hlen.
      specialize (IH (ensureHooksStructure config)
                     (if verbose options then say (NoHooksConfigured ev) t else t) k Hdry).
      destruct (foldl _ _ evs) as [[c' t'] k']. destruct IH as [IHf IHk].
      cbn [mbind list_bind fmap list_fmap sum_list].
      assert (managedHooks config ev = []) as ->.
      { unfold managedHooks. apply length_zero_iff_nil in Hlen. by rewrite Hlen. }
      cbn [mbind list_bind app]. split.
      * rewrite IHf. assert (failureCount (if verbose options
                                           then say (NoHooksConfigured ev) t else t)
                             = failureCount t) as -> by by destruct (verbose options).
        do 2 f_equal. apply list_bind_ext; [|done]. intros e.
        by rewrite managedHooks_ensured.
      * rewrite IHk, Hlen.
        assert (((λ e, length (managedGroups (getEventHooks (ensureHooksStructure config) e).2))
                   <$> evs)
                = ((λ e, length (managedGroups (getEventHooks config e).2)) <$> evs)) as ->.
        { apply list_fmap_ext. intros i e _. by rewrite getEventHooks_ensured. }
        done.
    + apply Nat.eqb_neq in Hlen.
      specialize (IH (ensureHooksStructure config)
                     (foldl (λ t g, foldl (testHookOfAll env options) t (hooks g))
                            (say (EventHeader ev) t)
                            (managedGroups (getEventHooks config ev).2))
                     (S k) Hdry).
      destruct (foldl _ _ evs) as [[c' t'] k']. destruct IH as [IHf IHk].
      cbn [mbind list_bind fmap list_fmap sum_list]. split.
      * rewrite IHf, (testGroupsOfAll_dry _ _ ev), managedHooks_bind, length_app by done.
        cbn [say failureCount]. rewrite <-Nat.add_assoc. do 2 f_equal.
        f_equal. apply list_bind_ext; [|done]. intros e.
        by rewrite managedHooks_ensured.
      * rewrite IHk. split; [by intros [? _]|]. intros [_ Hsum]. exfalso.
        unfold sum_list in Hsum. cbn [sum_list_with fmap list_fmap] in Hsum. unfold id in Hsum. lia.
Qed.

Lemma runDiagnostics_run env m fs :
  parsable fs = true ->
  let n := managedOnDisk fs VALID_EVENTS in
  let inv := e ← VALID_EVENTS; managedHooks (loadedConfig fs) e ≫= missingOf env e in
  ∃ d,
    runDiagnostics env m fs = Done d (loadedFS fs)
    ∧ settingsWritable d = true
    ∧ hooksStatus d
      = (if (0 <? n)%nat then Configured n (Z.of_nat n - Z.of_nat (length inv))
         else NoneConfigured)
    ∧ details d
      = (if (0 <? n)%nat
         then e ← VALID_EVENTS; managedHooks (loadedConfig fs) e ≫= detailOf inv e
         else [])
    ∧ (ReplaceMissingFiles ∈ recommendations d <-> inv ≠ [])
    ∧ (ConfigureHooks ∈ recommendations d <-> n = 0%nat).
Proof.
  intros Hp n inv. unfold runDiagnostics.
  destruct (checkClaudeCodeInstallation m) as [installed v].
  rewrite bind_run, (readSettingsFile_parsable _ Hp).
  destruct (checkEvents_fold env VALID_EVENTS (loadedConfig fs) 0 [])
    as (config' & Hfold & Hsame).
  rewrite Hfold. rewrite managedOnDisk_loaded. cbn [app Nat.add]. fold n. fold inv.
  eexists. split; [done|]. cbn [settingsWritable hooksStatus details recommendations].
  split_and!.
  - by destruct (settingsAccessW m).
  - done.
  - destruct (0 <? n)%nat; [|done].
    rewrite detailEvents_fold. cbn [app]. apply list_bind_ext; [|done].
    intros e. by rewrite Hsame.
  - rewrite !elem_of_app.
    destruct (negb installed), (negb (audioSystemAvailable env)), inv as [|ih inv'],
      (n =? 0)%nat, (n =? 1)%nat; cbn [length Nat.ltb Nat.leb Nat.eqb andb];
      rewrite ?elem_of_cons, ?elem_of_nil; split; intros; try done;
      try (intuition discriminate); auto.
  - rewrite !elem_of_app.
    destruct (Nat.eqb_spec n 0) as [->|Hn].
    + rewrite list_elem_of_singleton. split; auto.
    + split; [|done].
      destruct (negb installed), (negb (audioSystemAvailable env)),
        (0 <? length inv)%nat, ((n =? 1)%nat && (length inv =? 0)%nat);
        rewrite ?elem_of_cons, ?elem_of_nil; intuition discriminate.
Qed.

(** X23. The diagnostics agree with the listing and with a dry run of the
    test of all events.  On settings that parse, [runDiagnostics] leaves
    the files as loading leaves them and always reports the settings file
    writable.  The number of hooks it reports configured is the number
    [listHooks] counts; the number it reports valid is that number less the
    failures a dry run of [testAllEvents] counts (hooks whose file is
    missing), and it recommends replacing missing files exactly when that
    dry run fails somewhere.  When the dry run finds nothing to test, the
    diagnostics report no hook, print no detail and recommend configuring
    hooks. *)
Theorem runDiagnostics_agrees env m options fs :
  parsable fs = true ->
  dryRun options = true ->
  events options = None ->
  ∃ d report tested,
    runDiagnostics env m fs = Done d (loadedFS fs)
    ∧ listHooks fs = Done report (loadedFS fs)
    ∧ testAllEvents env options fs = Done tested (loadedFS fs)
    ∧ settingsWritable d = true
    ∧ match tested with
      | NothingToTest _ =>
          ccsoundCount report = 0%nat
          ∧ hooksStatus d = NoneConfigured
          ∧ details d = []
          ∧ ConfigureHooks ∈ recommendations d
      | AllResults t _ =>
          (0 < ccsoundCount report)%nat
          ∧ hooksStatus d
            = Configured (ccsoundCount report)
                (Z.of_nat (ccsoundCount report) - Z.of_nat (failureCount t))
          ∧ (ReplaceMissingFiles ∈ recommendations d <-> (0 < failureCount t)%nat)
          ∧ ConfigureHooks ∉ recommendations d
      end.
Proof.
  intros Hp Hdry Hevents.
  destruct (runDiagnostics_run env m fs Hp) as (d & Hrun & Hw & Hstatus & Hdetails & Hrep & Hconf).
  exists d. unfold listHooks. rewrite bind_run, (readSettingsFile_parsable _ Hp).
  destruct (listEvents_fold VALID_EVENTS (loadedConfig fs) emptyListReport VALID_EVENTS)
    as (Hc & _ & _); [done|by apply Forall_nil|].
  rewrite managedOnDisk_loaded in Hc. cbn [emptyListReport ccsoundCount Nat.add] in Hc.
  eexists. rewrite testAllEvents_run, Hp, Hevents. cbn [negb default from_option].
  pose proof (testEventsOfAll_dry env options VALID_EVENTS (loadedConfig fs) emptyTally 0 Hdry)
    as Htest.
  destruct (foldl (testEventOfAll env options) _ _) as [[c' t] k].
  destruct Htest as [Hfail Hk]. rewrite managedOnDisk_loaded in Hk.
  cbn [emptyTally failureCount Nat.add] in Hfail.
  destruct (Nat.eqb_spec k 0) as [Hzero|Hpos]; eexists;
    (split; [exact Hrun|]); (split; [reflexivity|]); (split; [reflexivity|]);
    (split; [exact Hw|]); rewrite Hc.
  - apply Hk in Hzero as [_ Hn]. rewrite Hn in Hstatus, Hdetails.
    split_and!; try done. by apply Hconf.
  - assert (managedOnDisk fs VALID_EVENTS ≠ 0%nat) as Hn by (intros Hn; apply Hpos, Hk; done).
    destruct (Nat.ltb_spec 0 (managedOnDisk fs VALID_EVENTS)) as [Hlt|]; [|lia].
    rewrite Hfail. split_and!; try done.
    + rewrite Hrep. destruct (_ ≫= _) as [|ih inv]; cbn [length]; split; try done; lia.
    + by rewrite Hconf.
Qed.

Lemma runDiagnostics_agrees_witness :
  ∃ d, runDiagnostics emptyVolumeEnv bareMachine busyDisk = Done d busyDisk
       ∧ settingsWritable d = true
       ∧ hooksStatus d = Configured 2 0.
Proof.
  destruct (runDiagnostics_agrees emptyVolumeEnv bareMachine quietOptions busyDisk
              eq_refl eq_refl eq_refl)
    as (d & report & tested & Hrun & Hlist & Htest & Hw & H).
  exists d. split; [exact Hrun|]. split; [exact Hw|].
  vm_compute in Hlist. vm_compute in Htest.
  injection Hlist as <-. injection Htest as <-.
  by destruct H as (_ & -> & _).
Defined.

Lemma startsWith_refl s : JsSearch.startsWith s s = true.
Proof. induction s as [|c s IH]; [done|]. cbn. by rewrite Ascii.eqb_refl. Qed.

Lemma includes_suffix p s : JsSearch.includes (p +:+ s) s = true.
Proof.
  induction p as [|c p IH]; cbn [String.append].
  - destruct s; cbn; [done|]. by rewrite Ascii.eqb_refl, startsWith_refl.
  - cbn [JsSearch.includes]. rewrite IH. apply orb_true_r.
Qed.

Lemma extractAudioFile_of_empty : extractAudioFile "" = None.
Proof. reflexivity. Qed.

Lemma elem_of_managedHooks config event hook :
  hook ∈ managedHooks config event
  <-> ∃ hookGroup, hookGroup ∈ (getEventHooks config event).2
                   ∧ isccsoundManaged hookGroup = true ∧ hook ∈ hooks hookGroup.
Proof.
  unfold managedHooks, managedGroups. rewrite list_elem_of_bind. split.
  - intros (g & Hh & [Hm Hg]%list_elem_of_filter). by exists g.
  - intros (g & Hg & Hm & Hh). exists g. split; [done|]. by apply list_elem_of_filter.
Qed.

(** X24. A PASS line of the diagnostics can be trusted, a FAIL line is
    always explained: when [runDiagnostics] prints PASS for an event and a
    path that is not empty, the event is one of the five and the file is
    there; when it prints FAIL for an event, some hook of a managed group
    under that same event has a missing file, and the recommendations say
    to replace missing files. *)
Theorem runDiagnostics_lines env m fs d fs' event :
  runDiagnostics env m fs = Done d fs' ->
  (∀ audioFile version,
     Detail false event (Some audioFile) version ∈ details d ->
     audioFile ≠ "" ->
     event ∈ VALID_EVENTS
     ∧ access env (resolve env (expandHome (HOME env) audioFile)) = true)
  ∧ (∀ audioFile version,
       Detail true event audioFile version ∈ details d ->
       ReplaceMissingFiles ∈ recommendations d
       ∧ ∃ hookGroup hook missing,
           hookGroup ∈ groupsOnDisk fs event
           ∧ isccsoundManaged hookGroup = true
           ∧ hook ∈ hooks hookGroup
           ∧ extractAudioFile (command hook) = Some missing
           ∧ access env (resolve env (expandHome (HOME env) missing)) = false).
Proof.
  intros Hrun.
  assert (parsable fs = true) as Hp.
  { unfold runDiagnostics in Hrun. destruct (checkClaudeCodeInstallation m).
    rewrite bind_run, readSettingsFile_run in Hrun. unfold parsable.
    by destruct (settingsFile fs) as [[text|config]|]. }
  destruct (runDiagnostics_run env m fs Hp) as (d' & Hrun' & _ & _ & Hdetails & Hrep & _).
  rewrite Hrun in Hrun'. injection Hrun' as <- _.
  set (inv := e ← VALID_EVENTS; managedHooks (loadedConfig fs) e ≫= missingOf env e) in *.
  assert (∀ isInvalid audioFile version,
            Detail isInvalid event audioFile version ∈ details d ->
            event ∈ VALID_EVENTS
            ∧ ∃ hook, hook ∈ managedHooks (loadedConfig fs) event
                      ∧ String.eqb (hook_type hook) "command" = true
                      ∧ extractAudioFile (command hook) = audioFile
                      ∧ isInvalid = existsb (invalidFor event audioFile) inv) as Hline.
  { intros isInvalid audioFile version Hin. rewrite Hdetails in Hin.
    destruct (0 <? _)%nat; [|by apply elem_of_nil in Hin].
    apply list_elem_of_bind in Hin as (e & Hin & He).
    apply list_elem_of_bind in Hin as (hook & Hin & Hhook).
    unfold detailOf, detailHook in Hin.
    destruct (String.eqb _ _) eqn:Htype; [|by apply elem_of_nil in Hin].
    destruct (_ccsound hook) as [w|]; [|by apply elem_of_nil in Hin].
    assert (Detail isInvalid event audioFile version
            = Detail (existsb (invalidFor e (extractAudioFile (command hook))) inv) e
                (extractAudioFile (command hook)) (wm_version w)) as Heq.
    { destruct (existsb _ _); cbn [app] in Hin;
        rewrite ?elem_of_cons, ?elem_of_nil in Hin; by intuition. }
    injection Heq as -> -> -> ->. split; [done|]. by exists hook. }
  assert (∀ ih, ih ∈ inv ->
            ∃ hook missing,
              hook ∈ managedHooks (loadedConfig fs) (ih_event ih)
              ∧ extractAudioFile (command hook) = Some missing
              ∧ access env (resolve env (expandHome (HOME env) missing)) = false) as Hinv.
  { intros ih Hin. subst inv.
    apply list_elem_of_bind in Hin as (e & Hin & He).
    apply list_elem_of_bind in Hin as (hook & Hin & Hhook).
    unfold missingOf, checkHook in Hin.
    destruct (_ && _); [|by apply elem_of_nil in Hin].
    destruct (extractAudioFile _) as [f|] eqn:Hf; [|by apply elem_of_nil in Hin].
    destruct (Js.truthy f); [|by apply elem_of_nil in Hin].
    unfold validateAudioFile in Hin.
    destruct (access env _) eqn:Haccess; cbn [exists_ negb] in Hin;
      [by apply elem_of_nil in Hin|].
    apply list_elem_of_singleton in Hin as ->. cbn [ih_event]. by exists hook, f. }
  split.
  - intros audioFile version Hin Hne.
    destruct (Hline _ _ _ Hin) as (He & hook & Hhook & Htype & Hf & Hpass). split; [done|].
    destruct (access env _) eqn:Haccess; [done|]. exfalso.
    assert ({| ih_event := event; ih_error := "file not found: " +:+ audioFile |} ∈ inv)
      as Hih.
    { subst inv. apply list_elem_of_bind. exists event. split; [|done].
      apply list_elem_of_bind. exists hook. split; [|done].
      unfold missingOf, checkHook. rewrite Hf, Htype.
      destruct (command hook) as [|c cmd] eqn:Hcmd; [done|].
      apply truthy_nonempty in Hne. rewrite Hne. unfold validateAudioFile.
      rewrite Haccess. cbn. apply list_elem_of_singleton. done. }
    symmetry in Hpass. apply not_true_iff_false in Hpass. apply Hpass.
    apply existsb_exists. eexists. split; [by apply list_elem_of_In|].
    unfold invalidFor. cbn [ih_event ih_error default from_option].
    by rewrite String.eqb_refl, includes_suffix.
  - intros audioFile version Hin.
    destruct (Hline _ _ _ Hin) as (He & hook & Hhook & Htype & Hf & Hfail).
    symmetry in Hfail. apply existsb_exists in Hfail as (ih & Hih%list_elem_of_In & Hfor).
    split.
    + apply Hrep. intros Hnil. rewrite Hnil in Hih. by apply elem_of_nil in Hih.
    + destruct (Hinv ih Hih) as (hook' & missing & Hhook' & Hmissing & Haccess).
      unfold invalidFor in Hfor. apply andb_true_iff in Hfor as [Hev%String.eqb_eq _].
      rewrite Hev in Hhook'.
      apply elem_of_managedHooks in Hhook' as (g & Hg & Hm & Hh).
      rewrite groupsOnDisk_loaded in Hg. by exists g, hook', missing.
Qed.

Lemma runDiagnostics_lines_witness :
  ∃ d, runDiagnostics oneSoundEnv bareMachine busyDisk = Done d busyDisk
       ∧ details d
         = [Detail false "Stop" (Some "/sounds/a.wav") "1.0.1";
            Detail true "Stop" (Some "/sounds/b.wav") "1.0.1";
            DetailError (Some "file not found: /sounds/b.wav")]
       ∧ access oneSoundEnv (resolve oneSoundEnv (expandHome (HOME oneSoundEnv) "/sounds/a.wav"))
         = true
       ∧ ReplaceMissingFiles ∈ recommendations d.
Proof.
  eexists. split; [vm_compute; reflexivity|]. split; [reflexivity|].
  match goal with
  | |- context [recommendations ?d] =>
      destruct (runDiagnostics_lines oneSoundEnv bareMachine busyDisk d busyDisk "Stop")
        as [Hpass Hfail]
  end.
  - vm_compute. reflexivity.
  - split.
    + apply (Hpass "/sounds/a.wav" "1.0.1"); [|done]. cbn [details]. apply elem_of_cons. by left.
    + apply (Hfail (Some "/sounds/b.wav") "1.0.1"). cbn [details].
      apply elem_of_cons. right. apply elem_of_cons. by left.
Defined.

(** ** The choice of a sound *)

Lemma keysPressed_in_range soundChoices keys : ∀ currentIndex,
  (0 ≤ currentIndex < Z.of_nat (length soundChoices))%Z ->
  match keysPressed soundChoices currentIndex keys with
  | Selected value => ∃ choice, choice ∈ soundChoices ∧ choice_value choice = value
  | Waiting index => (0 ≤ index < Z.of_nat (length soundChoices))%Z
  | Interrupted => keyCtrlC ∈ keys
  | Rejected | NoSuchChoice => False
  end.
Proof.
  induction keys as [|key keys IH]; intros i Hi; cbn [keysPressed]; [done|].
  destruct (String.eqb_spec key keyCtrlC) as [->|_]; [by left|].
  assert (∀ j, (0 ≤ j < Z.of_nat (length soundChoices))%Z ->
               match keysPressed soundChoices j keys with
               | Selected value => ∃ choice, choice ∈ soundChoices ∧ choice_value choice = value
               | Waiting index => (0 ≤ index < Z.of_nat (length soundChoices))%Z
               | Interrupted => keyCtrlC ∈ key :: keys
               | Rejected | NoSuchChoice => False
               end) as Hnext.
  { intros j Hj. specialize (IH j Hj).
    destruct (keysPressed soundChoices j keys); try done. by right. }
  destruct (_ || _).
  { apply Hnext. lia. }
  destruct (_ || _).
  { apply Hnext. lia. }
  destruct (_ || _).
  - unfold choiceAt. destruct (Z.ltb_spec i 0) as [|_]; [lia|].
    destruct (soundChoices !! Z.to_nat i) as [choice|] eqn:Hchoice.
    + exists choice. split; [|done]. by eapply list_elem_of_lookup_2.
    + apply lookup_ge_None in Hchoice. lia.
  - apply Hnext. lia.
Qed.

Lemma useCustomSoundSelector_keys env systemSounds keys :
  useCustomSoundSelector (soundChoicesOf env systemSounds) (Some keys)
  = keysPressed (soundChoicesOf env systemSounds) 0 keys.
Proof. reflexivity. Qed.

Lemma audioFileOfChoice_previewed env systemSounds customFile choice :
  choice ∈ soundChoicesOf env systemSounds ->
  audioFileOfChoice env (choice_value choice) customFile
  = default customFile (choice_file choice)
  ∧ Js.truthy (choice_value choice) = true.
Proof.
  unfold soundChoicesOf. intros [->|Hin]%elem_of_cons; [done|].
  apply list_elem_of_fmap in Hin as (sound & -> & _). cbn [choice_value choice_file].
  split; [|done]. unfold audioFileOfChoice. cbn. by destruct sound.
Qed.

(** X25. The sound heard in the selector is the sound configured.
    Whatever is typed, the cursor of the selector stays on an entry of the
    list, so that Enter always selects one; and whether the selector or the
    list prompt it falls back to is used, the value selected is that of an
    entry, and the audio file [quickstart] derives from it is the file
    previewed for this entry, or the path typed for the first entry
    (Custom audio file).  The sound Tink the source falls back to for other
    values is therefore never taken. *)
Theorem selected_sound_is_previewed env lsOutput stdin listAnswer customFile :
  let soundChoices := soundChoicesOf env (getSystemSounds env lsOutput) in
  match selectSoundWithPreview env lsOutput stdin listAnswer with
  | Selected value =>
      ∃ choice,
        choice ∈ soundChoices
        ∧ choice_value choice = value
        ∧ audioFileOfChoice env value customFile = default customFile (choice_file choice)
  | Waiting currentIndex => (0 ≤ currentIndex < Z.of_nat (length soundChoices))%Z
  | Interrupted => ∃ keys, stdin = Some keys ∧ keyCtrlC ∈ keys
  | Rejected | NoSuchChoice => False
  end.
Proof.
  intros soundChoices. unfold selectSoundWithPreview. fold soundChoices.
  destruct stdin as [keys|].
  - subst soundChoices. rewrite useCustomSoundSelector_keys.
    set (soundChoices := soundChoicesOf env (getSystemSounds env lsOutput)).
    pose proof (keysPressed_in_range soundChoices keys 0) as Hkeys.
    destruct (keysPressed soundChoices 0 keys) as [value| |index| |].
    + destruct Hkeys as (choice & Hin & <-); [cbn; lia|]. exists choice.
      split_and!; try done. by eapply audioFileOfChoice_previewed.
    + exists keys. split; [done|]. apply Hkeys. cbn. lia.
    + apply Hkeys. cbn. lia.
    + exfalso. apply Hkeys. cbn. lia.
    + apply Hkeys. cbn. lia.
  - cbn [useCustomSoundSelector].
    destruct (find _ soundChoices) as [choice|] eqn:Hfind.
    + apply find_some in Hfind as [Hin%list_elem_of_In _].
      destruct (audioFileOfChoice_previewed env _ customFile choice Hin) as [Hfile ->].
      by exists choice.
    + eexists. split; [by left|]. done.
Qed.

(** ** The guided setup *)

Lemma add_result_parsable env fresh event audioFile options fs report fs1 :
  addSoundHook env fresh event audioFile options fs = Done report fs1 ->
  event ∈ VALID_EVENTS ∧ parsable fs1 = true.
Proof.
  intros Hrun. rewrite addSoundHook_run in Hrun. passed_guards Hrun.
  split; [by apply includes_elem_of|].
  destruct (findExistingAudioHook env _ audioFile); injection Hrun as <- <-; [|done].
  by apply parsable_loadedFS.
Qed.

Lemma addEach_done_valid env fresh entries options : ∀ k fs reports fs',
  addEach env fresh k entries options fs = Done reports fs' ->
  Forall (λ ef, ef.1 ∈ VALID_EVENTS) entries ∧ (entries ≠ [] -> parsable fs' = true).
Proof.
  induction entries as [|[event audioFile] rest IH]; intros k fs reports fs' Hrun.
  - split; [by apply Forall_nil|done].
  - rewrite addEach_cons in Hrun.
    destruct (addSoundHook _ _ _ _ _ _) as [report fs1|] eqn:Hadd; [|done].
    destruct (add_result_parsable _ _ _ _ _ _ _ _ Hadd) as [Hev Hp].
    destruct (addEach env fresh (S k) rest options fs1) as [reports' fs2|] eqn:Hrest; [|done].
    injection Hrun as <- <-. destruct (IH _ _ _ _ Hrest) as [Hvalid Hp'].
    split; [by apply Forall_cons_2|]. intros _.
    destruct rest as [|entry rest]; [|by apply Hp'].
    cbn in Hrest. by injection Hrest as <- <-.
Qed.

Lemma testEventsOfAll_tested env options evs : ∀ config t k,
  (foldl (testEventOfAll env options) (config, t, k) evs).2 = 0%nat ->
  k = 0%nat ∧ ∀ e, e ∈ evs -> managedGroups (getEventHooks config e).2 = [].
Proof.
  induction evs as [|ev evs IH]; intros config t k Hk.
  - split; [done|]. intros e He. by apply elem_of_nil in He.
  - cbn [foldl] in Hk. rewrite testEventOfAll_step in Hk. cbn zeta in Hk.
    destruct (length (managedGroups (getEventHooks config ev).2) =? 0)%nat eqn:Hlen.
    + apply IH in Hk as [-> Hrest]. split; [done|].
      intros e [->|He]%elem_of_cons.
      * by apply Nat.eqb_eq, length_zero_iff_nil in Hlen.
      * rewrite <-getEventHooks_ensured. by apply Hrest.
    + by apply IH in Hk as [? _].
Qed.

Lemma selectSoundWithPreview_answers env lsOutput stdin listAnswer :
  match selectSoundWithPreview env lsOutput stdin listAnswer with
  | Rejected | NoSuchChoice => False
  | _ => True
  end.
Proof.
  unfold selectSoundWithPreview. destruct stdin as [keys|]; [|done].
  rewrite useCustomSoundSelector_keys.
  pose proof (keysPressed_in_range
                (soundChoicesOf env (getSystemSounds env lsOutput)) keys 0) as Hkeys.
  destruct (keysPressed _ 0 keys); try done; apply Hkeys; cbn; lia.
Qed.

(** X26. How the guided setup ends.  When [quickstart] completes, one add
    was reported per event checked, every event checked is one of the five
    and has a managed group in the settings file, the events not checked
    hold what they held, and the unmanaged groups of every event are
    unchanged; the test it ends with, when asked for, is no dry run, finds
    the settings readable and has at least one event to test.  When it
    stops because Claude Code is missing, because no event was checked, or
    in the selector, the files are untouched.  A failure of the library has
    status 1, and is no invalid event when the events checked are among the
    five. *)
Theorem quickstart_ends env fresh m npmInstalled after lsOutput answers fs outcome fs' :
  quickstart env fresh m npmInstalled after lsOutput answers fs = (outcome, fs') ->
  match outcome with
  | SetupComplete reports tested =>
      length reports = length (checkedEvents answers)
      ∧ checkedEvents answers ≠ []
      ∧ (∀ event, event ∈ checkedEvents answers ->
                  event ∈ VALID_EVENTS ∧ managedGroups (groupsOnDisk fs' event) ≠ [])
      ∧ (∀ event, event ∉ checkedEvents answers ->
                  groupsOnDisk fs' event = groupsOnDisk fs event)
      ∧ (∀ event, unmanagedGroups (groupsOnDisk fs' event)
                  = unmanagedGroups (groupsOnDisk fs event))
      ∧ match tested with
        | Some (AllResults t testedEvents) =>
            shouldTest answers = true ∧ (0 < testedEvents)%nat
        | Some (NothingToTest _) => False
        | None => shouldTest answers = false
        end
  | LibraryExit status why =>
      status = 1%nat
      ∧ (Forall (λ event, event ∈ VALID_EVENTS) (checkedEvents answers) ->
         ∀ event, why ≠ InvalidEvent event)
  | SelectorThrew => False
  | ClaudeCodeRequired | NoEventsSelected | SelectorInterrupted | SelectorWaiting =>
      fs' = fs
  end.
Proof.
  unfold quickstart. destruct (checkClaudeCodeInstallation m) as [installed v].
  destruct (negb (if negb installed then _ else _)); [by intros [= <- <-]|].
  destruct (length (checkedEvents answers) =? 0)%nat eqn:Hlen; [by intros [= <- <-]|].
  apply Nat.eqb_neq in Hlen.
  assert (checkedEvents answers ≠ []) as Hevents by (by destruct (checkedEvents answers)).
  pose proof (selectSoundWithPreview_answers env lsOutput (stdin answers) (listAnswer answers))
    as Hsel.
  destruct (selectSoundWithPreview _ _ _ _) as [soundChoice| |index| |]; try done;
    try by intros [= <- <-].
  set (audioFile := audioFileOfChoice env soundChoice (customFile answers)).
  set (entries := (λ event, (event, audioFile)) <$> checkedEvents answers).
  assert (entries.*1 = checkedEvents answers) as Hfst.
  { subst entries. rewrite <-list_fmap_compose. apply list_fmap_id. }
  destruct (addEach _ _ _ _ _ _) as [reports fs1|status why fs1] eqn:Hadds.
  - destruct (addEach_returned _ _ _ _ _ _ _ _ Hadds) as (Hreports & Hin & _ & Hout & Hun).
    destruct (addEach_done_valid _ _ _ _ _ _ _ _ Hadds) as [Hvalid Hp].
    rewrite Hfst in Hin, Hout. unfold entries in Hreports. rewrite length_fmap in Hreports.
    assert (∀ event, event ∈ checkedEvents answers -> event ∈ VALID_EVENTS) as Hfive.
    { intros event He. rewrite Forall_forall in Hvalid.
      apply (Hvalid (event, audioFile)). subst entries.
      apply list_elem_of_fmap. by exists event. }
    assert (parsable fs1 = true) as Hp1.
    { apply Hp. subst entries. by destruct (checkedEvents answers). }
    destruct (shouldTest answers).
    + rewrite testAllEvents_run, Hp1. cbn [negb testOfEvents events default from_option]. unfold id.
      destruct (foldl _ _ _) as [[c t] k] eqn:Hfold.
      destruct (Nat.eqb_spec k 0) as [->|Hk].
      * exfalso.
        pose proof (testEventsOfAll_tested env (testOfEvents (checkedEvents answers))
                      (checkedEvents answers) (loadedConfig fs1) emptyTally 0) as Htested.
        rewrite Hfold in Htested. destruct (Htested eq_refl) as [_ Hnone].
        destruct (checkedEvents answers) as [|event rest] eqn:Hev; [done|].
        apply (Hin event); [by left|]. rewrite <-groupsOnDisk_loaded. apply Hnone. by left.
      * intros [= <- <-]. split_and!; try done; try lia.
        -- intros event He. split; [by apply Hfive|].
           rewrite groupsOnDisk_loadedFS. by apply Hin.
        -- intros event He. rewrite groupsOnDisk_loadedFS. by apply Hout.
        -- intros event. by rewrite groupsOnDisk_loadedFS.
    + intros [= <- <-]. split_and!; try done.
      intros event He. split; [by apply Hfive|by apply Hin].
  - intros [= <- <-]. split; [by eapply addEach_status|].
    intros Hvalid event ->. eapply addEach_never_invalid; [|exact Hadds].
    subst entries. apply Forall_fmap. eapply Forall_impl; [exact Hvalid|]. by intros e He.
Qed.

Lemma quickstart_ends_witness :
  ∃ tested fs',
    quickstart linuxEnv freshes readyMachine false readyMachine None setupAnswers busyDisk
    = (SetupComplete [Replaced; Added] tested, fs')
    ∧ managedGroups (groupsOnDisk fs' "Notification") ≠ []
    ∧ unmanagedGroups (groupsOnDisk fs' "Stop") = [foreignGroup "notify-send done"].
Proof.
  eexists _, _. split; [vm_compute; reflexivity|].
  match goal with
  | |- context [groupsOnDisk ?fs' "Notification"] =>
      pose proof (quickstart_ends linuxEnv freshes readyMachine false readyMachine None
                    setupAnswers busyDisk (SetupComplete [Replaced; Added] _) fs'
                    ltac:(vm_compute; reflexivity)) as Hend
  end.
  cbn beta iota in Hend. destruct Hend as (_ & _ & Hin & _ & Hun & _). split.
  - apply (Hin "Notification"). cbn [setupAnswers checkedEvents].
    apply elem_of_cons. right. apply elem_of_cons. by left.
  - by rewrite Hun.
Defined.


(** ** The sounds of the system *)

Lemma append_assoc (a b c : string) : (a +:+ b) +:+ c = a +:+ b +:+ c.
Proof. induction a as [|x a IH]; [done|]. cbn. by rewrite IH. Qed.

Lemma split_joined sep (xs : list string) :
  xs ≠ [] -> Forall (λ x, Js.all (λ c, negb (Ascii.eqb c sep)) x = true) xs ->
  Js.split sep (NodePath.join (String sep "") xs) = xs.
Proof.
  induction xs as [|x xs IH]; [done|]. intros _ [Hx Hxs]%Forall_cons.
  destruct xs as [|y ys]; [by apply split_no_separator|].
  change (NodePath.join (String sep "") (x :: y :: ys))
    with (x +:+ String sep "" +:+ NodePath.join (String sep "") (y :: ys)).
  change (String sep "" +:+ ?r) with (String sep r).
  rewrite split_at_separator by done. by rewrite IH.
Qed.

Lemma endsNonSpace_append a b : b ≠ "" -> endsNonSpace (a +:+ b) = endsNonSpace b.
Proof.
  intros Hb. induction a as [|c a IH]; [done|]. cbn [String.append endsNonSpace].
  destruct (a +:+ b) eqn:Hab; [|done]. by destruct a, b.
Qed.

Lemma lsOutputOf_joined names :
  names ≠ [] ->
  lsOutputOf names
  = NodePath.join (String newline "") (soundFile <$> names) +:+ String newline "".
Proof.
  induction names as [|name names IH]; [done|]. intros _. cbn [lsOutputOf foldr].
  destruct names as [|name' names']; [done|].
  change (foldr _ "" (name' :: names')) with (lsOutputOf (name' :: names')).
  rewrite IH by done.
  change (NodePath.join (String newline "") (soundFile <$> name :: name' :: names'))
    with (soundFile name +:+ String newline ""
          +:+ NodePath.join (String newline "") (soundFile <$> name' :: names')).
  by rewrite !append_assoc.
Qed.

Lemma removeFirst_at_start p s :
  JsSearch.startsWith s p = true ->
  JsReplace.removeFirst p s = JsReplace.dropChars (String.length p) s.
Proof. intros Hstarts. destruct s; cbn [JsReplace.removeFirst]; by rewrite Hstarts. Qed.

Lemma removeFirst_prefix p s : JsReplace.removeFirst p (p +:+ s) = s.
Proof.
  rewrite removeFirst_at_start.
  - induction p as [|c p IH]; [by destruct s|]. by cbn.
  - induction p as [|c p IH]; [by destruct s|]. cbn. by rewrite Ascii.eqb_refl.
Qed.

Lemma removeFirst_extension name :
  plainName name -> JsReplace.removeFirst ".aiff" (name +:+ ".aiff") = name.
Proof.
  unfold plainName. induction name as [|c name IH]; [done|].
  cbn [Js.all]. intros [[_ Hc]%andb_true_iff Hname]%andb_true_iff.
  cbn [String.append JsReplace.removeFirst JsSearch.startsWith].
  apply negb_true_iff in Hc. rewrite Hc. cbn [andb]. by rewrite IH.
Qed.

Lemma soundFiles_joined_end names :
  names ≠ [] ->
  NodePath.join (String newline "") (soundFile <$> names) ≠ ""
  ∧ endsNonSpace (NodePath.join (String newline "") (soundFile <$> names)) = true.
Proof.
  induction names as [|name names IH]; [done|]. intros _.
  destruct names as [|name' names'].
  - split; [done|]. cbn [fmap list_fmap NodePath.join]. unfold soundFile.
    rewrite endsNonSpace_append by (by destruct name). by rewrite endsNonSpace_append.
  - destruct IH as [Hne Hend]; [done|].
    change (NodePath.join (String newline "") (soundFile <$> name :: name' :: names'))
      with (soundFile name +:+ String newline ""
            +:+ NodePath.join (String newline "") (soundFile <$> name' :: names')).
    split; [done|]. rewrite endsNonSpace_append by done.
    by rewrite endsNonSpace_append.
Qed.

Lemma soundFiles_named names :
  Forall plainName names ->
  (λ f, JsReplace.removeFirst ".aiff" (JsReplace.removeFirst "/System/Library/Sounds/" f))
    <$> filter (λ f, Js.truthy f = true) (soundFile <$> names)
  = names.
Proof.
  induction 1 as [|name names Hname _ IH]; [done|].
  cbn [fmap list_fmap]. rewrite filter_cons_True by done.
  cbn [fmap list_fmap] in *. rewrite IH. f_equal. unfold soundFile.
  rewrite removeFirst_prefix. by apply removeFirst_extension.
Qed.

(** X27. The sounds offered on macOS are the files [ls] prints.  When the
    output of [ls] is one line per file of the sounds directory, for names
    that hold neither a line break nor a dot, [getSystemSounds] returns
    these names in order, and the file previewed and configured for each
    ([getSystemSoundPath]) is the file listed.  When [ls] prints nothing
    but the empty line of [echo], no sound is offered; when the command
    fails, the fourteen names of the fallback are. *)
Theorem getSystemSounds_reads_ls env names :
  platform env = darwin ->
  names ≠ [] ->
  Forall plainName names ->
  getSystemSounds env (Some (lsOutputOf names)) = names
  ∧ getSystemSoundPath env <$> getSystemSounds env (Some (lsOutputOf names))
    = soundFile <$> names
  ∧ getSystemSounds env (Some (String newline "")) = []
  ∧ length (getSystemSounds env None) = 14%nat.
Proof.
  intros Hdarwin Hnames Hplain.
  assert (getSystemSounds env (Some (lsOutputOf names)) = names) as Hread.
  { unfold getSystemSounds. rewrite Hdarwin.
    destruct (soundFiles_joined_end names Hnames) as [Hne Hend].
    assert (JsText.trim (lsOutputOf names)
            = NodePath.join (String newline "") (soundFile <$> names)) as ->.
    { unfold JsText.trim. rewrite trimStart_started by (by destruct names).
      rewrite lsOutputOf_joined by done.
      rewrite trimEnd_blanks by done. by apply trimEnd_ended. }
    rewrite split_joined; [by apply soundFiles_named|by destruct names|].
    apply Forall_fmap. eapply Forall_impl; [exact Hplain|].
    intros name Hname. unfold compose, soundFile. rewrite !all_append.
    apply andb_true_iff. split; [done|]. apply andb_true_iff. split; [|done].
    eapply all_weaken; [|exact Hname]. by intros c [? _]%andb_true_iff. }
  rewrite Hread. split_and!; try done.
  - apply list_fmap_ext. intros i name _. unfold getSystemSoundPath, soundFile.
    by rewrite Hdarwin.
  - unfold getSystemSounds. by rewrite Hdarwin.
  - unfold getSystemSounds. by rewrite Hdarwin.
Qed.

Lemma getSystemSounds_reads_ls_witness :
  getSystemSounds (withPlatform linuxEnv darwin)
    (Some (lsOutputOf ["Basso"; "Glass"; "Tink"]))
  = ["Basso"; "Glass"; "Tink"].
Proof.
  refine (proj1 (getSystemSounds_reads_ls (withPlatform linuxEnv darwin)
                   ["Basso"; "Glass"; "Tink"] eq_refl _ _)); [done|].
  repeat (apply Forall_cons_2; [reflexivity|]). apply Forall_nil_2.
Defined.


(** ** The test command *)

Lemma testEventsOfAll_count env options config0 evs : ∀ config t k,
  (∀ e, (getEventHooks config e).2 = (getEventHooks config0 e).2) ->
  (foldl (testEventOfAll env options) (config, t, k) evs).2
  = (k + length (filter (λ event, (0 < length (findExistingccsoundHooks
                                                 (getEventHooks config0 event).2))%nat)
                        evs))%nat.
Proof.
  induction evs as [|ev evs IH]; intros config t k Hsame; [cbn; lia|].
  cbn [foldl]. rewrite testEventOfAll_step. cbn zeta.
  assert (∀ e, (getEventHooks (ensureHooksStructure config) e).2
               = (getEventHooks config0 e).2) as Hsame'.
  { intros e. by rewrite getEventHooks_ensured. }
  change (findExistingccsoundHooks (getEventHooks config0 ev).2)
    with (managedGroups (getEventHooks config0 ev).2) in *.
  rewrite Hsame.
  destruct (Nat.eqb_spec (length (managedGroups (getEventHooks config0 ev).2)) 0) as [Hz|Hnz].
  - rewrite IH by done. rewrite filter_cons_False; [done|].
    change (findExistingccsoundHooks (getEventHooks config0 ev).2)
      with (managedGroups (getEventHooks config0 ev).2). lia.
  - rewrite IH by done. rewrite filter_cons_True; [cbn [length]; lia|].
    change (findExistingccsoundHooks (getEventHooks config0 ev).2)
      with (managedGroups (getEventHooks config0 ev).2). lia.
Qed.

(** X28. [test --all] from the command line.  The positional event is
    ignored, commander sets no list of events, so the five events are gone
    through: on settings that parse the command completes, leaves the files
    as loading leaves them, and the number of events it reports tested is
    the number of events the interactive removal would offer (those of the
    five with a managed group), none meaning there was nothing to test.
    Without [--all] and without an event the command exits with status 1
    and the files untouched. *)
Theorem testCommand_all env event args fs :
  (arg_all args = true ->
   (∀ event', testCommand env event' args fs = testCommand env event args fs)
   ∧ (parsable fs = true ->
      ∃ tested,
        testCommand env event args fs = Completed (inl tested) (loadedFS fs)
        ∧ match tested with
          | NothingToTest _ => eventsWithHooks (loadedConfig fs) = []
          | AllResults _ testedEvents =>
              testedEvents = length (eventsWithHooks (loadedConfig fs))
              ∧ (0 < testedEvents <= 5)%nat
          end))
  ∧ (arg_all args = false -> truthyOption event = false ->
     testCommand env event args fs = Aborted 1 EventOrAllRequired fs).
Proof.
  split.
  - intros Hall. unfold testCommand. rewrite Hall. split; [done|]. intros Hp.
    unfold fmap, IO_fmap. rewrite bind_run, testAllEvents_run, Hp.
    cbn [negb testOptionsOf events default from_option]. unfold id.
    pose proof (testEventsOfAll_count env (testOptionsOf args) (loadedConfig fs) VALID_EVENTS
                  (loadedConfig fs) emptyTally 0 (λ _, eq_refl)) as Hcount.
    change (filter _ VALID_EVENTS) with (eventsWithHooks (loadedConfig fs)) in Hcount.
    assert (length (eventsWithHooks (loadedConfig fs)) <= 5)%nat as Hfive.
    { unfold eventsWithHooks. etrans; [apply length_filter|]. done. }
    destruct (foldl _ _ _) as [[c t] k]. cbn [snd Nat.add] in Hcount. subst k.
    destruct (Nat.eqb_spec (length (eventsWithHooks (loadedConfig fs))) 0) as [Hz|Hnz];
      eexists; (split; [reflexivity|]); cbn beta iota.
    + by apply length_zero_iff_nil.
    + split; [done|lia].
  - intros Hall Hevent. unfold testCommand. by rewrite Hall, Hevent.
Qed.

Lemma testCommand_all_witness :
  ∃ tested,
    testCommand linuxEnv (Some "Bogus") allQuietly busyDisk
    = Completed (inl tested) (loadedFS busyDisk)
    ∧ match tested with
      | NothingToTest _ => eventsWithHooks (loadedConfig busyDisk) = []
      | AllResults _ testedEvents =>
          testedEvents = length (eventsWithHooks (loadedConfig busyDisk))
          ∧ (0 < testedEvents <= 5)%nat
      end.
Proof.
  exact (proj2 (proj1 (testCommand_all linuxEnv (Some "Bogus") allQuietly busyDisk) eq_refl)
           eq_refl).
Defined.
